(** * Scripture reference resolution and AI query gateway

    A shallow embedding of the three service modules of the scripture
    reader and of the reference parser of its top-level component:

    - [BibleService]: [levenshtein], the abbreviation tables,
      [findBookMetadata], [getTeluguVerse], [fetchChapter] and
      [fetchVersesByReferences] (services/bibleService);
    - [App]: [parseReferencesFromString] together with the regular
      expression it applies (App.tsx);
    - [GeminiService]: [safeGenerate], [sendMessageToBot], [getChat],
      [getVerseAnalysis] and [searchBibleByKeyword] (services/geminiService);
    - [AppHandlers]: the state variables of the top-level component and
      its handlers for navigation, the hash, the loading of a chapter and
      the search (App.tsx);
    - [Chatbot]: [handleSend] (components/Chatbot).

    A handler that awaits a reply is modelled as run to its end, with no
    other event in between.

    JavaScript strings are modelled as lists of code units.  The model is
    exact for code units 0..255, which is what [ascii] offers: the white
    space class, [toLowerCase] and the character classes of the regular
    expression are given for that whole range.  JavaScript numbers are
    modelled as integers extended with [NaN]; digit runs are read exactly
    (the rounding of doubles beyond 2^53 is outside the model). *)

From Stdlib Require Import ssreflect ZArith Ascii String DecimalString.
From Stdlib Require DecimalPos DecimalZ.
From stdpp Require Import base list gmap strings.

Abbreviation str := (list ascii).

(** ** JavaScript text primitives *)

Module Js.

(** A string literal of the source. *)
Definition lit (s : string) : str := list_ascii_of_string s.

Definition code (c : ascii) : N := N_of_ascii c.

Definition inRange (lo hi : N) (c : ascii) : bool :=
  ((lo <=? code c) && (code c <=? hi))%N.

(** [\d] *)
Definition isDigit (c : ascii) : bool := inRange 48 57 c.

(** [[a-zA-Z]]; the [i] flag adds nothing to this class. *)
Definition isAlpha (c : ascii) : bool := inRange 65 90 c || inRange 97 122 c.

(** [\s], also the characters removed by [trim]: TAB, LF, VT, FF, CR,
    SPACE and NBSP. *)
Definition isSpace (c : ascii) : bool :=
  inRange 9 13 c || (code c =? 32)%N || (code c =? 160)%N.

Definition isUpper (c : ascii) : bool :=
  inRange 65 90 c || (inRange 192 222 c && negb (code c =? 215)%N).

Definition lowerChar (c : ascii) : ascii :=
  if isUpper c then ascii_of_N (code c + 32) else c.

Definition toLowerCase (s : str) : str := lowerChar <$> s.

Fixpoint trimStart (s : str) : str :=
  match s with
  | c :: s' => if isSpace c then trimStart s' else s
  | [] => []
  end.

Definition trimEnd (s : str) : str := reverse (trimStart (reverse s)).

Definition trim (s : str) : str := trimEnd (trimStart s).

(** [s.replace(/\s/g, '')] *)
Definition removeSpaces (s : str) : str := filter (λ c, isSpace c = false) s.

Definition LF : ascii := ascii_of_N 10.
Definition SP : ascii := ascii_of_N 32.

(** [s.replace(/\n/g, ' ')] *)
Definition replaceLineFeeds (s : str) : str :=
  (λ c, if bool_decide (c = LF) then SP else c) <$> s.

Fixpoint startsWith (s p : str) : bool :=
  match p, s with
  | [], _ => true
  | a :: p', b :: s' => bool_decide (a = b) && startsWith s' p'
  | _ :: _, [] => false
  end.

Fixpoint includes (s p : str) : bool :=
  startsWith s p ||
  match s with
  | [] => false
  | _ :: s' => includes s' p
  end.

Definition strEq (a b : str) : bool := bool_decide (a = b).

(** Numbers: the integers and [NaN]. *)
Inductive number := NaN | Num (z : Z).

(** [a === b] on numbers. *)
Definition numEq (a b : number) : bool :=
  match a, b with
  | Num x, Num y => (x =? y)%Z
  | _, _ => false
  end.

Definition minus (a b : number) : number :=
  match a, b with
  | Num x, Num y => Num (x - y)
  | _, _ => NaN
  end.

(** Truthiness of a number: [0] and [NaN] are falsy. *)
Definition numTruthy (a : number) : bool :=
  match a with
  | Num z => negb (z =? 0)%Z
  | NaN => false
  end.

Definition showZ (z : Z) : str := lit (NilZero.string_of_int (Z.to_int z)).

(** A number inside a template literal. *)
Definition show (a : number) : str :=
  match a with
  | Num z => showZ z
  | NaN => lit "NaN"
  end.

Definition digitValue (c : ascii) : Z := Z.of_N (code c) - 48.

(** The value of a run of decimal digits, most significant first. *)
Definition digitsValue (ds : str) : Z :=
  foldl (λ acc c, 10 * acc + digitValue c)%Z 0%Z ds.

Fixpoint takeDigits (s : str) : str :=
  match s with
  | c :: s' => if isDigit c then c :: takeDigits s' else []
  | [] => []
  end.

(** [parseInt(s, 10)]: leading white space is skipped, a sign is read,
    then the longest run of digits; no digit gives [NaN].  The argument is
    a capture group, which may be undefined ([None]). *)
Definition parseInt (g : option str) : number :=
  match g with
  | None => NaN
  | Some s =>
      let t := trimStart s in
      let '(sign, body) :=
        match t with
        | c :: t' =>
            if bool_decide (c = "-"%char) then ((-1)%Z, t')
            else if bool_decide (c = "+"%char) then (1%Z, t')
            else (1%Z, t)
        | [] => (1%Z, t)
        end in
      match takeDigits body with
      | [] => NaN
      | ds => Num (sign * digitsValue ds)
      end
  end.

(** [a[i]] on an array, for a number [i]: [undefined] out of range. *)
Definition at_ {A} (l : list A) (i : number) : option A :=
  match i with
  | Num z => if (z <? 0)%Z then None else l !! Z.to_nat z
  | NaN => None
  end.

(** An error object: its [name] and its [message]. *)
Record Error := mkError { errName : str; errMessage : str }.

Definition error (msg : str) : Error := mkError (lit "Error") msg.

End Js.

Export Js.

(** ** services/bibleService *)

Module BibleService.

(** [levenshtein]: the two-row dynamic programme.  [currentRow] grows by
    [push]; a row is read with [row[j]]. *)
Definition rowAt (row : list nat) (j : nat) : nat := default 0 (row !! j).

Definition levenshteinCell (c1 : ascii) (previousRow : list nat)
    (currentRow : list nat) (jc : nat * ascii) : list nat :=
  let '(j, c2) := jc in
  let insertions := rowAt previousRow (j + 1) + 1 in
  let deletions := rowAt currentRow j + 1 in
  let substitutions :=
    rowAt previousRow j + (if bool_decide (c1 ≠ c2) then 1 else 0) in
  currentRow ++ [insertions `min` (deletions `min` substitutions)].

Definition levenshteinRow (s2 : str) (previousRow : list nat)
    (ic : nat * ascii) : list nat :=
  let '(i, c1) := ic in
  foldl (levenshteinCell c1 previousRow) [i + 1] (imap pair s2).

Definition levenshteinOrdered (s1 s2 : str) : nat :=
  if bool_decide (length s2 = 0) then length s1
  else
    let previousRow := seq 0 (length s2 + 1) in
    rowAt (foldl (levenshteinRow s2) previousRow (imap pair s1)) (length s2).

Definition levenshtein (s1 s2 : str) : nat :=
  if bool_decide (length s1 < length s2) then levenshteinOrdered s2 s1
  else levenshteinOrdered s1 s2.

(** [bookNameToAbbreviation], in the order of the object literal. *)
Definition bookNameToAbbreviation : list (str * str) :=
  prod_map lit lit <$>
  [
    ("Genesis", "Gen"); ("Exodus", "Exod"); ("Leviticus", "Lev");
    ("Numbers", "Num"); ("Deuteronomy", "Deut"); ("Joshua", "Josh");
    ("Judges", "Judg"); ("Ruth", "Ruth"); ("1 Samuel", "1 Sam");
    ("2 Samuel", "2 Sam"); ("1 Kings", "1 Kgs"); ("2 Kings", "2 Kgs");
    ("1 Chronicles", "1 Chr"); ("2 Chronicles", "2 Chr"); ("Ezra", "Ezra");
    ("Nehemiah", "Neh"); ("Esther", "Esth"); ("Job", "Job");
    ("Psalms", "Ps"); ("Proverbs", "Prov"); ("Ecclesiastes", "Eccl");
    ("Song of Solomon", "Song"); ("Isaiah", "Isa"); ("Jeremiah", "Jer");
    ("Lamentations", "Lam"); ("Ezekiel", "Ezek"); ("Daniel", "Dan");
    ("Hosea", "Hos"); ("Joel", "Joel"); ("Amos", "Amos");
    ("Obadiah", "Obad"); ("Jonah", "Jonah"); ("Micah", "Mic");
    ("Nahum", "Nah"); ("Habakkuk", "Hab"); ("Zephaniah", "Zeph");
    ("Haggai", "Hag"); ("Zechariah", "Zech"); ("Malachi", "Mal");
    ("Matthew", "Matt"); ("Mark", "Mark"); ("Luke", "Luke");
    ("John", "John"); ("Acts", "Acts"); ("Romans", "Rom");
    ("1 Corinthians", "1 Cor"); ("2 Corinthians", "2 Cor");
    ("Galatians", "Gal"); ("Ephesians", "Eph"); ("Philippians", "Phil");
    ("Colossians", "Col"); ("1 Thessalonians", "1 Thess");
    ("2 Thessalonians", "2 Thess"); ("1 Timothy", "1 Tim");
    ("2 Timothy", "2 Tim"); ("Titus", "Titus"); ("Philemon", "Phlm");
    ("Hebrews", "Heb"); ("James", "Jas"); ("1 Peter", "1 Pet");
    ("2 Peter", "2 Pet"); ("1 John", "1 John"); ("2 John", "2 John");
    ("3 John", "3 John"); ("Jude", "Jude"); ("Revelation", "Rev")
  ]%string.

Record BookWithVerseCounts := mkBookWithVerseCounts {
  bookName : str;
  bookChapters : list nat   (* verse count of each chapter *)
}.

(** What [findBookMetadata] returns: an entry of [BIBLE_META]. *)
Record BookMeta := mkBookMeta { name : str; chapters : nat }.

(** [abbreviationToBookName]: each abbreviation, lower-cased, is entered
    without and with its white space; a later entry overwrites an earlier
    one with the same key.  Looking up a key the object does not own falls
    through to the prototype, whose values are no book names, so the
    lookup that follows in [BIBLE_META] finds nothing: a finite map gives
    the same result. *)
Definition abbreviationToBookName : gmap str str :=
  foldl (λ (acc : gmap str str) '(name, abbr),
           <[toLowerCase abbr := name]>
             (<[removeSpaces (toLowerCase abbr) := name]> acc))
        ∅ bookNameToAbbreviation.

(** The nested corpus: the fields [Verseid] and [Verse] of a verse, the
    array [Verse] of a chapter, [Chapter] of a book, [Book] of the
    corpus. *)
Record TeluguVerse := mkTeluguVerse { tvVerseid : str; tvVerse : str }.
Record TeluguChapter := mkTeluguChapter { tcVerse : list TeluguVerse }.
Record TeluguBook := mkTeluguBook { tbChapter : list TeluguChapter }.
Record TeluguBible := mkTeluguBible { tbBook : list TeluguBook }.

(** One verse of a reply of the scripture-text service. *)
Record BibleApiResponseVerse := mkApiVerse {
  book_id : str;
  book_name : str;
  chapter : number;
  verse : number;
  text : str
}.

Record BibleApiResponse := mkApiResponse {
  reference : str;
  verses : list BibleApiResponseVerse;
  responseText : str;
  translation_id : str;
  translation_name : str;
  translation_note : str
}.

(** What [fetch(url)] followed by [res.json()] comes to: the request is
    rejected, or answered with a status that is not ok, or answered with a
    body. *)
Inductive HttpReply :=
| Rejected (e : Error)
| Status (status : Z)
| Ok (body : BibleApiResponse).

(** The [text] object of a merged verse; [BSI_TELUGU] is an optional
    key. *)
Record VerseText := mkVerseText {
  KJV : str;
  ESV : str;
  NIV : str;
  BSI_TELUGU : option str
}.

Record Verse := mkVerse { verseNumber : number; verseText : VerseText }.

Record FullVerse := mkFullVerse {
  fvBook : str;
  fvChapter : number;
  fvVerse : number;
  fvText : VerseText
}.

Record ParsedReference := mkParsedReference {
  refBook : str;
  refChapter : number;
  startVerse : number;
  endVerse : option number
}.

Definition API_BASE_URL : str := lit "https://bible-api.com/".

Section Data.

(** The verse counts of the chapters of a book, the part of
    [BIBLE_META_WITH_VERSE_COUNTS] that no source file shows. *)
Variable chapterVerseCounts : str → list nat.

(** The secondary-language corpus, [teluguBibleData]. *)
Variable teluguBibleData : TeluguBible.

(** The scripture-text service: the reply to the request for a URL. *)
Variable http : str → HttpReply.

(** Modelled from the spec: [BIBLE_META_WITH_VERSE_COUNTS] of
    data/bibleMetaWithVerseCounts, a static table in canonical book
    order, Genesis to Revelation.  Its names are the canonical names,
    the keys of [bookNameToAbbreviation]; its verse counts are the
    parameter [chapterVerseCounts]. *)
Definition BIBLE_META_WITH_VERSE_COUNTS : list BookWithVerseCounts :=
  (λ '(n, _), mkBookWithVerseCounts n (chapterVerseCounts n))
    <$> bookNameToAbbreviation.

Definition BIBLE_META : list BookMeta :=
  (λ book, mkBookMeta (bookName book) (length (bookChapters book)))
    <$> BIBLE_META_WITH_VERSE_COUNTS.

Definition bookNameToIndexMap : gmap str nat :=
  foldl (λ (acc : gmap str nat) '(index, book), <[bookName book := index]> acc)
        ∅ (imap pair BIBLE_META_WITH_VERSE_COUNTS).

Definition findBookMetadata (query : str) : option BookMeta :=
  let cleanedQuery := toLowerCase (trim query) in
  let cleanedQueryNoSpace := removeSpaces cleanedQuery in
  (* Full name match *)
  match List.find (λ b, strEq (toLowerCase (name b)) cleanedQuery) BIBLE_META with
  | Some fullNameMatch => Some fullNameMatch
  | None =>
      (* Abbreviation match *)
      let bookNameFromAbbr :=
        match abbreviationToBookName !! cleanedQueryNoSpace with
        | Some n => Some n
        | None => abbreviationToBookName !! cleanedQuery
        end in
      match bookNameFromAbbr ≫= (λ n, List.find (λ b, strEq (name b) n) BIBLE_META) with
      | Some bookMeta => Some bookMeta
      | None =>
          (* Common variation *)
          if strEq cleanedQuery (lit "song of songs") then
            List.find (λ b, strEq (name b) (lit "Song of Solomon")) BIBLE_META
          else
            (* Starts-with fallback *)
            List.find (λ b, startsWith (toLowerCase (name b)) cleanedQuery) BIBLE_META
      end
  end.


(** [getTeluguVerse]: the optional chaining stops at the first missing
    book or chapter; with the corpus typed as above nothing is thrown
    inside the [try]. *)
Definition getTeluguVerse (book : str) (chapter verse : number) : option str :=
  match bookNameToIndexMap !! book with
  | None => None
  | Some bookIndex =>
      let chapterIndex := minus chapter (Num 1) in
      let verseIndex := minus verse (Num 1) in
      match tbBook teluguBibleData !! bookIndex with
      | None => None
      | Some b =>
          match at_ (tbChapter b) chapterIndex with
          | None => None
          | Some c => tvVerse <$> at_ (tcVerse c) verseIndex
          end
      end
  end.

(** [...(teluguVerse && { BSI_TELUGU: teluguVerse })]: an undefined or
    empty line adds no key. *)
Definition spreadTelugu (teluguVerse : option str) : option str :=
  match teluguVerse with
  | Some (c :: t) => Some (c :: t)
  | _ => None
  end.

(** [Promise.all] of two requests: fulfilled with both values, rejected
    as soon as one is rejected.  When both are rejected, which reason
    surfaces depends on the timing of the replies; the model takes the
    first in array order. *)
Definition both {A B} (a : Error + A) (b : Error + B) : Error + (A * B) :=
  match a, b with
  | inl e, _ => inl e
  | _, inl e => inl e
  | inr x, inr y => inr (x, y)
  end.

(** [Promise.all] of a list of requests followed by [flat]. *)
Fixpoint allFlat {A} (ps : list (Error + list A)) : Error + list A :=
  match ps with
  | [] => inr []
  | inl e :: _ => inl e
  | inr x :: ps' =>
      match allFlat ps' with
      | inl e => inl e
      | inr xs => inr (x ++ xs)
      end
  end.

Definition fetchTranslation (book : str) (chapter : number) (version : str)
    : Error + BibleApiResponse :=
  match http (API_BASE_URL ++ book ++ lit " " ++ show chapter
                ++ lit "?translation=" ++ version) with
  | Rejected e => inl e
  | Status status =>
      inl (error (lit "HTTP error! status: " ++ showZ status
                    ++ lit " for " ++ version))
  | Ok body => inr body
  end.

Definition mergeChapterVerse (book : str) (chapter : number)
    (webData : BibleApiResponse) (kjvVerse : BibleApiResponseVerse) : Verse :=
  let webVerse := List.find (λ v, numEq (verse v) (verse kjvVerse)) (verses webData) in
  let teluguVerse := getTeluguVerse book chapter (verse kjvVerse) in
  let kjvText := trim (replaceLineFeeds (text kjvVerse)) in
  let webText :=
    match webVerse with
    | Some w => trim (replaceLineFeeds (text w))
    | None => kjvText
    end in
  mkVerse (verse kjvVerse)
          (mkVerseText kjvText webText webText (spreadTelugu teluguVerse)).

(** [fetchChapter].  The field [verses] of a reply is an array by its
    type, so the test for no KJV verse is the test for an empty one.  The
    [catch] logs the error and throws it again. *)
Definition fetchChapter (book : str) (chapter : number) : Error + list Verse :=
  match both (fetchTranslation book chapter (lit "web"))
             (fetchTranslation book chapter (lit "kjv")) with
  | inl e => inl e
  | inr (webData, kjvData) =>
      if bool_decide (length (verses kjvData) = 0) then
        inl (error (lit "No KJV verses found for " ++ book ++ lit " "
                      ++ show chapter))
      else inr (mergeChapterVerse book chapter webData <$> verses kjvData)
  end.

Definition referenceString (ref : ParsedReference) : str :=
  match endVerse ref with
  | Some e =>
      if numTruthy e then
        refBook ref ++ lit " " ++ show (refChapter ref) ++ lit ":"
          ++ show (startVerse ref) ++ lit "-" ++ show e
      else
        refBook ref ++ lit " " ++ show (refChapter ref) ++ lit ":"
          ++ show (startVerse ref)
  | None =>
      refBook ref ++ lit " " ++ show (refChapter ref) ++ lit ":"
        ++ show (startVerse ref)
  end.

Definition fetchEnglish (ref : ParsedReference) (version : str)
    : Error + BibleApiResponse :=
  match http (API_BASE_URL ++ referenceString ref
                ++ lit "?translation=" ++ version) with
  | Rejected e => inl e
  | Status status =>
      inl (error (lit "HTTP error! status: " ++ showZ status
                    ++ lit " for " ++ version ++ lit " at "
                    ++ referenceString ref))
  | Ok body => inr body
  end.

Definition mergeReferenceVerse (ref : ParsedReference)
    (webData : BibleApiResponse) (kjvVerse : BibleApiResponseVerse) : FullVerse :=
  let teluguVerse := getTeluguVerse (refBook ref) (refChapter ref) (verse kjvVerse) in
  let webVerse := List.find (λ v, numEq (verse v) (verse kjvVerse)) (verses webData) in
  let kjvText := trim (replaceLineFeeds (text kjvVerse)) in
  let webText :=
    match webVerse with
    | Some w => trim (replaceLineFeeds (text w))
    | None => kjvText
    end in
  mkFullVerse (refBook ref) (refChapter ref) (verse kjvVerse)
              (mkVerseText kjvText webText webText (spreadTelugu teluguVerse)).

(** The body of the [map] over the references: one pair of requests; no
    KJV verse gives a console warning and the empty array. *)
Definition fetchReference (ref : ParsedReference) : Error + list FullVerse :=
  match both (fetchEnglish ref (lit "web")) (fetchEnglish ref (lit "kjv")) with
  | inl e => inl e
  | inr (webData, kjvData) =>
      if bool_decide (length (verses kjvData) = 0) then inr []
      else inr (mergeReferenceVerse ref webData <$> verses kjvData)
  end.

Definition fetchVersesByReferences (references : list ParsedReference)
    : Error + list FullVerse :=
  allFlat (fetchReference <$> references).

End Data.

End BibleService.

(** ** App.tsx: the reference parser *)

Module App.

Import BibleService.

(** The regular expressions of the parser need characters, greedy
    repetition of a character class, sequence, the greedy option and
    capture groups. *)
Inductive regex :=
| Chr (p : ascii → bool)
| Star (p : ascii → bool)
| Plus (p : ascii → bool)
| Seq (r1 r2 : regex)
| Opt (r : regex)
| Group (i : nat) (r : regex).

(** [match[i]] is [caps !! i]; a group that took no part in the match is
    undefined. *)
Abbreviation captures := (gmap nat str).

(** The backtracking matcher, in continuation-passing style: [k] is the
    rest of the pattern, and an alternative is tried only when everything
    after the earlier one has failed.  A greedy repetition takes the
    longest run first and gives characters back one at a time. *)
Fixpoint star {A} (p : ascii → bool) (s : str) (k : str → option A) : option A :=
  match s with
  | c :: s' =>
      if p c then
        match star p s' k with
        | Some a => Some a
        | None => k s
        end
      else k s
  | [] => k s
  end.

Definition plus {A} (p : ascii → bool) (s : str) (k : str → option A) : option A :=
  match s with
  | c :: s' => if p c then star p s' k else None
  | [] => None
  end.

Fixpoint run {A} (r : regex) (s : str) (c : captures)
    (k : str → captures → option A) : option A :=
  match r with
  | Chr p =>
      match s with
      | a :: s' => if p a then k s' c else None
      | [] => None
      end
  | Star p => star p s (λ s', k s' c)
  | Plus p => plus p s (λ s', k s' c)
  | Seq r1 r2 => run r1 s c (λ s' c', run r2 s' c' k)
  | Opt r' =>
      match run r' s c k with
      | Some a => Some a
      | None => k s c
      end
  | Group i r' =>
      run r' s c (λ s' c', k s' (<[i := take (length s - length s') s]> c'))
  end.

(** [s.match(r)] for a regular expression without the [g] flag: the
    first position, from the left, at which the pattern matches. *)
Fixpoint exec (r : regex) (s : str) : option captures :=
  match run r s ∅ (λ _ c, Some c) with
  | Some c => Some c
  | None =>
      match s with
      | [] => None
      | _ :: s' => exec r s'
      end
  end.

Definition isChar (c : ascii) : ascii → bool := λ a, bool_decide (a = c).

(** [[a-zA-Z\s]] *)
Definition isAlphaOrSpace (c : ascii) : bool := isAlpha c || isSpace c.

(** [referenceRegex], part by part.  Group 1 is the book token: group 2,
    a digit and any white space, taken if possible, then one or more
    letters or white space characters. *)
Definition bookToken : regex :=
  Group 1 (Seq (Opt (Group 2 (Seq (Chr isDigit) (Star isSpace))))
               (Plus isAlphaOrSpace)).

(** If possible, a dash and the end verse (group 5). *)
Definition endVersePart : regex :=
  Opt (Seq (Chr (isChar "-")) (Group 5 (Plus isDigit))).

(** White space, the chapter (group 3), a colon, the verse (group 4) and
    the end verse part. *)
Definition chapterAndVerse : regex :=
  Seq (Plus isSpace)
 (Seq (Group 3 (Plus isDigit))
 (Seq (Chr (isChar ":"))
 (Seq (Group 4 (Plus isDigit)) endVersePart))).

(** No body of a quantifier can match the empty string, and the flag [i]
    changes none of the classes. *)
Definition referenceRegex : regex := Seq bookToken chapterAndVerse.

(** [s.split(/[,;]/g)] *)
Fixpoint split (p : ascii → bool) (s : str) : list str :=
  match s with
  | [] => [[]]
  | c :: s' =>
      if p c then [] :: split p s'
      else
        match split p s' with
        | seg :: segs => (c :: seg) :: segs
        | [] => [[c]]
        end
  end.

Definition isCommaOrSemicolon (c : ascii) : bool :=
  bool_decide (c = ","%char) || bool_decide (c = ";"%char).

Definition typeError : Error :=
  mkError (lit "TypeError") (lit "Cannot read properties of undefined (reading 'trim')").

Section Parser.

Variable chapterVerseCounts : str → list nat.

(** One turn of the [for] loop of [parseReferencesFromString]:
    [parsedReferences] is the array built so far.  Reading [trim] from
    an undefined first group would throw. *)
Definition parsePart (parsedReferences : list ParsedReference) (part : str)
    : Error + list ParsedReference :=
  let trimmedPart := trim part in
  if bool_decide (trimmedPart = []) then inr parsedReferences
  else
    match exec referenceRegex trimmedPart with
    | None => inr parsedReferences
    | Some m =>
        match m !! 1 with
        | None => inl typeError
        | Some g1 =>
            let bookQuery := trim g1 in
            match findBookMetadata chapterVerseCounts bookQuery with
            | None => inr parsedReferences
            | Some bookMeta =>
                inr (parsedReferences ++
                     [ mkParsedReference
                         (name bookMeta)
                         (parseInt (m !! 3))
                         (parseInt (m !! 4))
                         (match m !! 5 with
                          | Some (c :: g5) => Some (parseInt (Some (c :: g5)))
                          | _ => None
                          end) ])
            end
        end
    end.

Definition parseReferencesFromString (refString : str)
    : Error + list ParsedReference :=
  foldl (λ acc part,
           match acc with
           | inl e => inl e
           | inr parsedReferences => parsePart parsedReferences part
           end)
        (inr []) (split isCommaOrSemicolon refString).

End Parser.

End App.

(** ** services/geminiService *)

Module GeminiService.

(** [ChatMode] is declared in a file that is not among the sources; the
    code passes a mode as the [model] of a session and compares it with a
    model identifier, so a mode is modelled as that identifier. *)
Abbreviation ChatMode := str (only parsing).

Record Message := mkMessage { msgId : str; msgText : str; msgSender : str }.

Record VerseReference := mkVerseReference {
  vrBook : str;
  vrChapter : number;
  vrVerse : number
}.

Inductive AnalysisType := CrossReferences | HistoricalContext | Interlinear.

Definition analysisName (t : AnalysisType) : str :=
  match t with
  | CrossReferences => lit "Cross-references"
  | HistoricalContext => lit "Historical Context"
  | Interlinear => lit "Interlinear"
  end.

(** A conversational session as [chats.create] receives it: the model,
    the system instruction and the further entries of [config]. *)
Record Chat := mkChat {
  chatModel : str;
  chatSystemInstruction : str;
  chatConfig : list (str * str)
}.

(** A call to the remote service. *)
Inductive Request :=
| GenerateContent (model contents systemInstruction : str)
| SendMessage (chat : nat) (message : str).

(** The answer of the remote service to one call: the time it takes, in
    milliseconds, and the text or the error it ends with. *)
Record Reply := mkReply { latency : N; outcome : Error + str }.

(** The module-level variables ([ai], [chatInstances], [verseCache],
    [globalCooldownUntil]) and the environment: the clock read by
    [Date.now()], the configured credential, the sessions created so far
    (a session handle is an index into [chats]) and the calls made to the
    remote service. *)
Record World := mkWorld {
  now : Z;
  apiKey : option str;
  ai : bool;
  chatInstances : gmap str nat;
  chats : list Chat;
  verseCache : gmap str str;
  globalCooldownUntil : Z;
  network : list Request
}.

Definition initial (t : Z) (key : option str) : World :=
  mkWorld t key false ∅ [] ∅ 0 [].

(** Computations on the world that return or throw. *)
Definition M (A : Type) : Type := World → (Error + A) * World.

Definition ret {A} (a : A) : M A := λ w, (inr a, w).

Definition throw {A} (e : Error) : M A := λ w, (inl e, w).

Definition bind {A B} (m : M A) (f : A → M B) : M B :=
  λ w, match m w with
       | (inr a, w') => f a w'
       | (inl e, w') => (inl e, w')
       end.

Definition tryCatch {A} (m : M A) (handler : Error → M A) : M A :=
  λ w, match m w with
       | (inr a, w') => (inr a, w')
       | (inl e, w') => handler e w'
       end.

#[global] Instance M_ret : MRet M := @ret.
#[global] Instance M_bind : MBind M := λ A B f m, bind m f.

(** The assignments to the module-level variables. *)
Definition withAi (w : World) : World :=
  mkWorld (now w) (apiKey w) true (chatInstances w) (chats w)
          (verseCache w) (globalCooldownUntil w) (network w).

Definition withCooldownUntil (t : Z) (w : World) : World :=
  mkWorld (now w) (apiKey w) (ai w) (chatInstances w) (chats w)
          (verseCache w) t (network w).

Definition withCached (key text : str) (w : World) : World :=
  mkWorld (now w) (apiKey w) (ai w) (chatInstances w) (chats w)
          (<[key := text]> (verseCache w)) (globalCooldownUntil w) (network w).

(** [chatInstances.set(mode, newChat)] for a session just created: its
    handle is the next free index. *)
Definition withChat (mode : ChatMode) (newChat : Chat) (w : World) : World :=
  mkWorld (now w) (apiKey w) (ai w)
          (<[mode := length (chats w)]> (chatInstances w))
          (chats w ++ [newChat]) (verseCache w)
          (globalCooldownUntil w) (network w).

(** Time passing between two operations. *)
Definition advance (d : N) (w : World) : World :=
  mkWorld (now w + Z.of_N d) (apiKey w) (ai w) (chatInstances w) (chats w)
          (verseCache w) (globalCooldownUntil w) (network w).

(** One call to the remote service, made and awaited: the reply arrives
    after its latency. *)
Definition called (req : Request) (reply : Reply) (w : World) : World :=
  mkWorld (now w + Z.of_N (latency reply)) (apiKey w) (ai w)
          (chatInstances w) (chats w) (verseCache w)
          (globalCooldownUntil w) (network w ++ [req]).

Definition dateNow : M Z := λ w, (inr (now w), w).

Definition setCooldown (t : Z) : M unit := λ w, (inr (), withCooldownUntil t w).

Definition cacheSet (key text : str) : M unit := λ w, (inr (), withCached key text w).

Definition call (req : Request) (reply : Reply) : M str :=
  λ w, (outcome reply, called req reply w).

Definition ApiKeyError (message : str) : Error :=
  mkError (lit "ApiKeyError") message.

(** [getAiInstance]: the client handle is created on first use; an absent
    or empty credential is an error. *)
Definition getAiInstance : M unit :=
  λ w, if ai w then (inr (), w)
       else
         match apiKey w with
         | Some (_ :: _) => (inr (), withAi w)
         | _ => (inl (ApiKeyError (lit "API key missing.")), w)
         end.

(** [Math.ceil(ms / 1000)] *)
Definition ceilSeconds (ms : Z) : Z := (- ((- ms) / 1000))%Z.

Definition cooldownMessage (secs : Z) : str :=
  lit "AI cooling down. Try again in " ++ showZ secs ++ lit "s.".

Definition busyMessage : str :=
  lit "AI is busy. Please wait 60 seconds and try again.".

Definition conciseInstruction : str :=
  lit "You are a concise biblical expert. Provide direct answers without filler.".

Definition scholarInstruction : str :=
  lit "You are an expert Bible scholar. Be precise, deep, and context-rich.".

Definition isQuotaError (err : Error) : bool :=
  includes (errMessage err) (lit "429")
  || includes (errMessage err) (lit "RESOURCE_EXHAUSTED").

(** [safeGenerate]; [reply] is what the remote service answers if it is
    called. *)
Definition safeGenerate (reply : Reply) (model prompt : str) : M str :=
  t ← dateNow;
  until ← (λ w, (inr (globalCooldownUntil w), w)) : M Z;
  if (t <? until)%Z then
    t' ← dateNow;
    throw (error (cooldownMessage (ceilSeconds (until - t'))))
  else
    tryCatch
      (getAiInstance ;; call (GenerateContent model prompt conciseInstruction) reply)
      (λ err,
         if isQuotaError err then
           t' ← dateNow;
           setCooldown (t' + 60000) ;;
           throw (error busyMessage)
         else throw err).

(** [getChat]: the session of a mode is created when the mode is first
    used and kept in [chatInstances]. *)
Definition getChat (mode : ChatMode) : M nat :=
  λ w, match chatInstances w !! mode with
       | Some chat => (inr chat, w)
       | None =>
           match getAiInstance w with
           | (inl e, w') => (inl e, w')
           | (inr _, w') =>
               let config : list (str * str) := [] in
               let newChat := mkChat mode scholarInstruction config in
               (inr (length (chats w')), withChat mode newChat w')
           end
       end.

Record BotReply := mkBotReply { botText : str; botSources : list str }.

(** [err.message || "AI error"] *)
Definition messageOr (err : Error) (fallback : str) : str :=
  match errMessage err with
  | [] => fallback
  | m => m
  end.

(** [sendMessageToBot]: every error is caught and its message becomes the
    reply. *)
Definition sendMessageToBot (reply : Reply) (message : str)
    (history : list Message) (mode : ChatMode) : M BotReply :=
  tryCatch
    (if strEq mode (lit "gemini-2.5-flash") then
       text ← safeGenerate reply (lit "gemini-2.5-flash") message;
       ret (mkBotReply text [])
     else
       chat ← getChat mode;
       text ← call (SendMessage chat message) reply;
       ret (mkBotReply text []))
    (λ err, ret (mkBotReply (messageOr err (lit "AI error")) [])).

Definition cacheKey (verseRef : VerseReference) (analysisType : AnalysisType) : str :=
  vrBook verseRef ++ lit "-" ++ show (vrChapter verseRef) ++ lit "-"
    ++ show (vrVerse verseRef) ++ lit "-" ++ analysisName analysisType.

Definition refText (verseRef : VerseReference) : str :=
  vrBook verseRef ++ lit " " ++ show (vrChapter verseRef) ++ lit ":"
    ++ show (vrVerse verseRef).

Definition analysisPrompt (verseRef : VerseReference) (analysisType : AnalysisType) : str :=
  match analysisType with
  | CrossReferences =>
      lit "Provide key cross-references for " ++ refText verseRef
        ++ lit ". Group by theme."
  | HistoricalContext =>
      lit "Explain the historical and cultural context of " ++ refText verseRef
        ++ lit "."
  | Interlinear =>
      lit "Provide a detailed interlinear breakdown for " ++ refText verseRef
        ++ lit "." ++ [LF] ++ lit "      " ++ [LF]
        ++ lit "Original Text (Greek/Hebrew):" ++ [LF]
        ++ lit "Include full verse text in original language." ++ [LF; LF]
        ++ lit "English Transliteration:" ++ [LF]
        ++ lit "Clear transliteration." ++ [LF; LF]
        ++ lit "Word-by-Word Analysis:" ++ [LF]
        ++ lit "List each key word with transliteration and a simple definition."
  end.

(** [getVerseAnalysis]: the cache is read first; a text that was
    generated is stored before it is returned. *)
Definition getVerseAnalysis (reply : Reply) (verseRef : VerseReference)
    (analysisType : AnalysisType) : M str :=
  λ w, match verseCache w !! cacheKey verseRef analysisType with
       | Some text => (inr text, w)
       | None =>
           (text ← safeGenerate reply (lit "gemini-2.5-flash-lite")
                     (analysisPrompt verseRef analysisType);
            cacheSet (cacheKey verseRef analysisType) text ;;
            ret text) w
       end.

Definition keywordPrompt (keyword : str) : str :=
  lit "Search the Bible for verses related to " ++ [ascii_of_N 34] ++ keyword
    ++ [ascii_of_N 34] ++ lit ". " ++ [LF]
    ++ lit "Return ONLY a list like: John 3:16, Romans 8:28.".

(** [searchBibleByKeyword]: an error is logged and the empty string
    returned. *)
Definition searchBibleByKeyword (reply : Reply) (keyword : str) : M str :=
  tryCatch (safeGenerate reply (lit "gemini-2.5-flash-lite") (keywordPrompt keyword))
           (λ err, ret []).

(** One thing that happens to the world: time passes, or one of the
    operations runs to its end. *)
Inductive step : World → World → Prop :=
| step_advance d w :
    step w (advance d w)
| step_safeGenerate reply model prompt w :
    step w (safeGenerate reply model prompt w).2
| step_sendMessageToBot reply message history mode w :
    step w (sendMessageToBot reply message history mode w).2
| step_getVerseAnalysis reply verseRef analysisType w :
    step w (getVerseAnalysis reply verseRef analysisType w).2
| step_searchBibleByKeyword reply keyword w :
    step w (searchBibleByKeyword reply keyword w).2.

(** The world is cooling down. *)
Definition cooling (w : World) : Prop := (now w < globalCooldownUntil w)%Z.

End GeminiService.

(** ** App: the state of the component and its handlers *)

Module AppHandlers.

Import BibleService App GeminiService.

(** [a < b] on numbers: false when one of them is [NaN]. *)
Definition numLt (a b : number) : bool :=
  match a, b with
  | Num x, Num y => (x <? y)%Z
  | _, _ => false
  end.

Definition numPlus (a b : number) : number :=
  match a, b with
  | Num x, Num y => Num (x + y)
  | _, _ => NaN
  end.

Definition isNaN (a : number) : bool :=
  match a with
  | NaN => true
  | Num _ => false
  end.

(** [l.findIndex(p)] *)
Fixpoint findIndexFrom {A} (p : A → bool) (l : list A) (i : Z) : Z :=
  match l with
  | [] => (-1)%Z
  | x :: l' => if p x then i else findIndexFrom p l' (i + 1)%Z
  end.

Definition findIndex {A} (p : A → bool) (l : list A) : Z := findIndexFrom p l 0%Z.

(** Reading a property of [undefined]. *)
Definition undefinedProperty (property : string) : Error :=
  mkError (lit "TypeError")
          (lit "Cannot read properties of undefined (reading '" ++ lit property
             ++ lit "')").

Definition QUOTE : ascii := ascii_of_N 34.

(** The state variables of [App] that its handlers read and write. *)
Record State := mkState {
  verses : list Verse;
  isLoadingVerses : bool;
  verseError : option str;
  selectedBook : str;
  selectedChapter : number;
  selectedVerseRef : option VerseReference;
  isToolsModalOpen : bool;
  isSearchView : bool;
  searchResults : list FullVerse;
  isSearching : bool;
  searchError : option str;
  searchQuery : str
}.

Definition setVerses (v : list Verse) (s : State) : State :=
  mkState v (isLoadingVerses s) (verseError s) (selectedBook s) (selectedChapter s)
          (selectedVerseRef s) (isToolsModalOpen s) (isSearchView s) (searchResults s)
          (isSearching s) (searchError s) (searchQuery s).

Definition setIsLoadingVerses (v : bool) (s : State) : State :=
  mkState (verses s) v (verseError s) (selectedBook s) (selectedChapter s)
          (selectedVerseRef s) (isToolsModalOpen s) (isSearchView s) (searchResults s)
          (isSearching s) (searchError s) (searchQuery s).

Definition setVerseError (v : option str) (s : State) : State :=
  mkState (verses s) (isLoadingVerses s) v (selectedBook s) (selectedChapter s)
          (selectedVerseRef s) (isToolsModalOpen s) (isSearchView s) (searchResults s)
          (isSearching s) (searchError s) (searchQuery s).

Definition setSelectedBook (v : str) (s : State) : State :=
  mkState (verses s) (isLoadingVerses s) (verseError s) v (selectedChapter s)
          (selectedVerseRef s) (isToolsModalOpen s) (isSearchView s) (searchResults s)
          (isSearching s) (searchError s) (searchQuery s).

Definition setSelectedChapter (v : number) (s : State) : State :=
  mkState (verses s) (isLoadingVerses s) (verseError s) (selectedBook s) v
          (selectedVerseRef s) (isToolsModalOpen s) (isSearchView s) (searchResults s)
          (isSearching s) (searchError s) (searchQuery s).

Definition setSelectedVerseRef (v : option VerseReference) (s : State) : State :=
  mkState (verses s) (isLoadingVerses s) (verseError s) (selectedBook s)
          (selectedChapter s) v (isToolsModalOpen s) (isSearchView s) (searchResults s)
          (isSearching s) (searchError s) (searchQuery s).

Definition setIsToolsModalOpen (v : bool) (s : State) : State :=
  mkState (verses s) (isLoadingVerses s) (verseError s) (selectedBook s)
          (selectedChapter s) (selectedVerseRef s) v (isSearchView s) (searchResults s)
          (isSearching s) (searchError s) (searchQuery s).

Definition setIsSearchView (v : bool) (s : State) : State :=
  mkState (verses s) (isLoadingVerses s) (verseError s) (selectedBook s)
          (selectedChapter s) (selectedVerseRef s) (isToolsModalOpen s) v
          (searchResults s) (isSearching s) (searchError s) (searchQuery s).

Definition setSearchResults (v : list FullVerse) (s : State) : State :=
  mkState (verses s) (isLoadingVerses s) (verseError s) (selectedBook s)
          (selectedChapter s) (selectedVerseRef s) (isToolsModalOpen s) (isSearchView s)
          v (isSearching s) (searchError s) (searchQuery s).

Definition setIsSearching (v : bool) (s : State) : State :=
  mkState (verses s) (isLoadingVerses s) (verseError s) (selectedBook s)
          (selectedChapter s) (selectedVerseRef s) (isToolsModalOpen s) (isSearchView s)
          (searchResults s) v (searchError s) (searchQuery s).

Definition setSearchError (v : option str) (s : State) : State :=
  mkState (verses s) (isLoadingVerses s) (verseError s) (selectedBook s)
          (selectedChapter s) (selectedVerseRef s) (isToolsModalOpen s) (isSearchView s)
          (searchResults s) (isSearching s) v (searchQuery s).

Definition setSearchQuery (v : str) (s : State) : State :=
  mkState (verses s) (isLoadingVerses s) (verseError s) (selectedBook s)
          (selectedChapter s) (selectedVerseRef s) (isToolsModalOpen s) (isSearchView s)
          (searchResults s) (isSearching s) (searchError s) v.

(** [hash.replace(/^#\/?/, '')] *)
Definition stripHash (hash : str) : str :=
  match hash with
  | c :: t =>
      if bool_decide (c = "#"%char) then
        match t with
        | d :: t' => if bool_decide (d = "/"%char) then t' else t
        | [] => t
        end
      else hash
  | [] => hash
  end.

(** [s.replace(/\+/g, ' ')] *)
Definition replacePlus (s : str) : str :=
  (λ c, if bool_decide (c = "+"%char) then SP else c) <$> s.

Section Handlers.

Variable chapterVerseCounts : str → list nat.
Variable teluguBibleData : TeluguBible.
Variable http : str → HttpReply.

(** [decodeURIComponent] and [encodeURIComponent] of the platform; the
    first throws a [URIError] on a malformed escape sequence. *)
Variable decodeURIComponent : str → Error + str.
Variable encodeURIComponent : str → str.

Local Abbreviation BIBLE_META := (BibleService.BIBLE_META chapterVerseCounts).

(** The hash the component writes for its state when it is not in the
    search view. *)
Definition desiredHash (s : State) : str :=
  lit "#/" ++ encodeURIComponent (selectedBook s) ++ lit "/" ++ show (selectedChapter s)
    ++ match selectedVerseRef s with
       | Some r =>
           if strEq (vrBook r) (selectedBook s)
              && numEq (vrChapter r) (selectedChapter s)
           then lit "/" ++ show (vrVerse r)
           else []
       | None => []
       end.

(** [parseHashAndSetState]; [innerWidth] is [window.innerWidth].  The
    result holds the error thrown, if any. *)
Definition parseHashAndSetState (innerWidth : Z) (hash : str) (s : State)
    : option Error * State :=
  let s := setIsSearchView false s in
  match split (isChar "/") (stripHash hash) with
  | p0 :: p1 :: rest =>
      if bool_decide (p0 = []) then (None, s)
      else
        match decodeURIComponent (replacePlus p0) with
        | inl e => (Some e, s)
        | inr bookName =>
            let chapterNum := parseInt (Some p1) in
            let verseNum :=
              match rest with
              | (_ :: _) as p2 :: _ => Some (parseInt (Some p2))
              | _ => None
              end in
            match findBookMetadata chapterVerseCounts bookName with
            | None => (None, s)
            | Some bookMeta =>
                if isNaN chapterNum || numLt chapterNum (Num 1)
                   || numLt (Num (Z.of_nat (chapters bookMeta))) chapterNum
                then (None, s)
                else
                  let s := setSelectedChapter chapterNum
                             (setSelectedBook (name bookMeta) s) in
                  match verseNum with
                  | Some v =>
                      if numTruthy v then
                        let s := setSelectedVerseRef
                                   (Some (mkVerseReference (name bookMeta) chapterNum v))
                                   s in
                        (None, if (innerWidth <? 768)%Z
                               then setIsToolsModalOpen true s else s)
                      else
                        (None, setIsToolsModalOpen false (setSelectedVerseRef None s))
                  | None =>
                      (None, setIsToolsModalOpen false (setSelectedVerseRef None s))
                  end
            end
        end
  | _ => (None, s)
  end.

(** The effect that loads the chapter on display. *)
Definition loadVerses (s : State) : State :=
  let s1 := setVerseError None (setIsLoadingVerses true s) in
  let s2 :=
    match fetchChapter chapterVerseCounts teluguBibleData http
            (selectedBook s) (selectedChapter s) with
    | inr fetchedVerses => setVerses fetchedVerses s1
    | inl _ =>
        setVerses []
          (setVerseError
             (Some (lit "Failed to load chapter. Please check your connection and try again."))
             s1)
    end in
  setIsLoadingVerses false s2.

Definition loadVersesEffect (s : State) : State :=
  if isSearchView s then s else loadVerses s.

Definition handleBookChange (book : str) (s : State) : State :=
  setIsToolsModalOpen false
    (setSelectedVerseRef None (setSelectedChapter (Num 1) (setSelectedBook book s))).

Definition handleChapterChange (chapter : number) (s : State) : State :=
  setIsToolsModalOpen false (setSelectedVerseRef None (setSelectedChapter chapter s)).

Definition handleVerseSelect (innerWidth : Z) (verseNum : number) (s : State) : State :=
  let s' :=
    setSelectedVerseRef
      (Some (mkVerseReference (selectedBook s) (selectedChapter s) verseNum)) s in
  if (innerWidth <? 768)%Z then setIsToolsModalOpen true s' else s'.

Definition handleNextChapter (s : State) : Error + State :=
  match List.find (λ b, strEq (name b) (selectedBook s)) BIBLE_META with
  | None => inr s
  | Some bookMeta =>
      if numLt (selectedChapter s) (Num (Z.of_nat (chapters bookMeta))) then
        inr (handleChapterChange (numPlus (selectedChapter s) (Num 1)) s)
      else
        let currentBookIndex :=
          findIndex (λ b, strEq (name b) (selectedBook s)) BIBLE_META in
        if (currentBookIndex <? Z.of_nat (length BIBLE_META) - 1)%Z then
          match at_ BIBLE_META (Num (currentBookIndex + 1)) with
          | Some nextBook => inr (handleBookChange (name nextBook) s)
          | None => inl (undefinedProperty "name")
          end
        else inr s
  end.

Definition handlePreviousChapter (s : State) : Error + State :=
  if numLt (Num 1) (selectedChapter s) then
    inr (handleChapterChange (minus (selectedChapter s) (Num 1)) s)
  else
    let currentBookIndex :=
      findIndex (λ b, strEq (name b) (selectedBook s)) BIBLE_META in
    if (0 <? currentBookIndex)%Z then
      match at_ BIBLE_META (Num (currentBookIndex - 1)) with
      | Some prevBook =>
          inr (setIsToolsModalOpen false
                 (setSelectedVerseRef None
                    (setSelectedChapter (Num (Z.of_nat (chapters prevBook)))
                       (setSelectedBook (name prevBook) s))))
      | None => inl (undefinedProperty "name")
      end
    else inr s.

(** The rest of [handleSearch] for two or more references. *)
Definition searchReferences (parsedReferences : list ParsedReference) (s : State)
    : State :=
  let s := setIsSearching true s in
  let s :=
    match fetchVersesByReferences chapterVerseCounts teluguBibleData http
            parsedReferences with
    | inr results => setIsSearchView true (setSearchResults results s)
    | inl _ => setSearchError (Some (lit "Failed to fetch results.")) s
    end in
  setSearchQuery [] (setIsSearching false s).

(** The rest of [handleSearch] for one reference. *)
Definition searchReference (ref : ParsedReference) (s : State) : State :=
  let invalid :=
    setSearchError (Some (lit "Invalid chapter for " ++ refBook ref ++ lit ".")) s in
  match List.find (λ b, strEq (name b) (refBook ref)) BIBLE_META with
  | None => invalid
  | Some bookMeta =>
      if numLt (refChapter ref) (Num 1)
         || numLt (Num (Z.of_nat (chapters bookMeta))) (refChapter ref)
      then invalid
      else
        let s := setSelectedChapter (refChapter ref)
                   (setSelectedBook (refBook ref) (setIsSearchView false s)) in
        let s :=
          if numTruthy (startVerse ref) then
            setSelectedVerseRef
              (Some (mkVerseReference (refBook ref) (refChapter ref) (startVerse ref))) s
          else setSelectedVerseRef None s in
        setSearchQuery [] s
  end.

(** The rest of [handleSearch] for a query without a reference. *)
Definition searchKeyword (reply : Reply) (query : str) (s : State) (w : World)
    : State * World :=
  let failed :=
    setSearchError (Some (lit "An error occurred during keyword search.")) in
  let s := setIsSearching true s in
  let '(answer, w) := searchBibleByKeyword reply query w in
  let s :=
    match answer with
    | inl _ => failed s
    | inr referenceString =>
        if bool_decide (referenceString = []) || bool_decide (trim referenceString = [])
        then
          setIsSearchView true
            (setSearchResults []
               (setSearchError
                  (Some (lit "No verses found for " ++ [QUOTE] ++ query ++ [QUOTE]
                           ++ lit ".")) s))
        else
          match parseReferencesFromString chapterVerseCounts referenceString with
          | inl _ => failed s
          | inr [] =>
              setIsSearchView true
                (setSearchResults []
                   (setSearchError
                      (Some (lit "Could not parse results for " ++ [QUOTE] ++ query
                               ++ [QUOTE] ++ lit ".")) s))
          | inr keywordRefs =>
              match fetchVersesByReferences chapterVerseCounts teluguBibleData http
                      keywordRefs with
              | inr results => setIsSearchView true (setSearchResults results s)
              | inl _ => failed s
              end
          end
    end in
  (setSearchQuery [] (setIsSearching false s), w).

(** [handleSearch]: the error thrown, if any, the state and the world
    when the handler has run to its end. *)
Definition handleSearch (reply : Reply) (s : State) (w : World)
    : option Error * State * World :=
  let query := trim (searchQuery s) in
  if bool_decide (query = []) then (None, s, w)
  else
    let s := setSearchError None s in
    match parseReferencesFromString chapterVerseCounts query with
    | inl e => (Some e, s, w)
    | inr (r1 :: r2 :: rs) => (None, searchReferences (r1 :: r2 :: rs) s, w)
    | inr [ref] => (None, searchReference ref s, w)
    | inr [] =>
        let '(s, w) := searchKeyword reply query s w in
        (None, s, w)
    end.

Definition handleClearSearch (s : State) : State :=
  setSearchError None (setSearchResults [] (setIsSearchView false s)).

(** [chapterCount], [isFirstChapterOfBible] and [isLastChapterOfBible],
    computed at each render. *)
Definition chapterCount (s : State) : nat :=
  match List.find (λ b, strEq (name b) (selectedBook s)) BIBLE_META with
  | Some selectedBookMeta => chapters selectedBookMeta
  | None => 0
  end.

Definition isFirstChapterOfBible (s : State) : bool :=
  strEq (selectedBook s) (lit "Genesis") && numEq (selectedChapter s) (Num 1).

Definition isLastChapterOfBible (s : State) : bool :=
  strEq (selectedBook s) (lit "Revelation") && numEq (selectedChapter s) (Num 22).

End Handlers.

End AppHandlers.

(** ** components/Chatbot *)

Module Chatbot.

Import BibleService GeminiService.

Record Props := mkProps {
  selectedBook : str;
  selectedChapter : number;
  selectedVerseRef : option VerseReference;
  verses : list Verse;
  englishVersion : str
}.

(** A message of the conversation with its [sources], which only the
    messages of the bot define. *)
Record Entry := mkEntry { entryMessage : Message; sources : option (list str) }.

Record State := mkState {
  isOpen : bool;
  messages : list Entry;
  input : str;
  isLoading : bool;
  chatMode : ChatMode
}.

Definition setMessages (v : list Entry) (st : State) : State :=
  mkState (isOpen st) v (input st) (isLoading st) (chatMode st).

Definition setInput (v : str) (st : State) : State :=
  mkState (isOpen st) (messages st) v (isLoading st) (chatMode st).

Definition setIsLoading (v : bool) (st : State) : State :=
  mkState (isOpen st) (messages st) (input st) v (chatMode st).

(** [text[version]] for the keys of a verse text; any other key is taken
    as undefined. *)
Definition textOf (t : VerseText) (version : str) : option str :=
  if strEq version (lit "KJV") then Some (KJV t)
  else if strEq version (lit "ESV") then Some (ESV t)
  else if strEq version (lit "NIV") then Some (NIV t)
  else if strEq version (lit "BSI_TELUGU") then BSI_TELUGU t
  else None.

(** [a || b] on texts that may be undefined: the empty text is falsy. *)
Definition orText (a b : option str) : option str :=
  match a with
  | Some (c :: t) => Some (c :: t)
  | _ => b
  end.

Definition QUOTE : ascii := ascii_of_N 34.

Definition contextualizedInput (props : Props) (input : str) : str :=
  match selectedVerseRef props with
  | Some ref =>
      let verseData :=
        List.find (λ v, numEq (verseNumber v) (vrVerse ref)) (verses props) in
      let verseText :=
        match verseData with
        | Some d => orText (textOf (verseText d) (englishVersion props))
                           (Some (KJV (verseText d)))
        | None => None
        end in
      match verseText with
      | Some (c :: t) =>
          lit "Given the context of " ++ vrBook ref ++ lit " " ++ show (vrChapter ref)
            ++ lit ":" ++ show (vrVerse ref) ++ lit ", which reads " ++ [QUOTE]
            ++ (c :: t) ++ [QUOTE]
            ++ lit ", please answer the following question: " ++ input
      | _ =>
          lit "Regarding " ++ vrBook ref ++ lit " " ++ show (vrChapter ref)
            ++ lit ":" ++ show (vrVerse ref)
            ++ lit ", please answer the following question: " ++ input
      end
  | None =>
      match selectedBook props with
      | _ :: _ =>
          if numTruthy (selectedChapter props) then
            lit "Regarding the chapter " ++ selectedBook props ++ lit " "
              ++ show (selectedChapter props)
              ++ lit ", please answer the following question: " ++ input
          else input
      | [] => input
      end
  end.

(** [handleSend]: the error thrown, if any, the state and the world when
    the handler has run to its end.  [Date.now()] is the clock of the
    world. *)
Definition handleSend (props : Props) (reply : Reply) (st : State) (w : World)
    : option Error * State * World :=
  if bool_decide (trim (input st) = []) || isLoading st then (None, st, w)
  else
    let userMessage :=
      mkEntry (mkMessage (showZ (now w)) (input st) (lit "user")) None in
    let st1 :=
      setIsLoading true (setInput [] (setMessages (messages st ++ [userMessage]) st)) in
    match sendMessageToBot reply (contextualizedInput props (input st))
            (entryMessage <$> messages st) (chatMode st) w with
    | (inr botReply, w') =>
        let botMessage :=
          mkEntry (mkMessage (showZ (now w' + 1)) (botText botReply) (lit "bot"))
                  (Some (botSources botReply)) in
        (None, setIsLoading false (setMessages (messages st1 ++ [botMessage]) st1), w')
    | (inl e, w') => (Some e, st1, w')
    end.

End Chatbot.

(** ** Notions used in the statements *)

Module Notions.

Import BibleService.

(** The text the web slots of a merged verse get: the text of the first
    web verse with the number of the KJV verse, else the KJV text. *)
Definition webTextFor (webData : BibleApiResponse) (kjvVerse : BibleApiResponseVerse) : str :=
  match List.find (λ v, numEq (verse v) (verse kjvVerse)) (verses webData) with
  | Some w => trim (replaceLineFeeds (text w))
  | None => trim (replaceLineFeeds (text kjvVerse))
  end.

(** A stored text is normalized when it holds no line feed and [trim]
    leaves it as it is. *)
Definition normalized (t : str) : Prop := (LF ∉ t) ∧ trim t = t.

(** The entry of [BIBLE_META] for a canonical name. *)
Definition bookEntry (chapterVerseCounts : str → list nat) (n : str) : BookMeta :=
  mkBookMeta n (length (chapterVerseCounts n)).

(** The canonical names, in table order. *)
Definition bookNames : list str := bookNameToAbbreviation.*1.

(** The four ways in which a cleaned query can designate a book. *)
Inductive rule := ByName | ByAbbreviation | ByAlias | ByPrefix.

Definition justifies (r : rule) (cleanedQuery n : str) : Prop :=
  match r with
  | ByName => toLowerCase n = cleanedQuery
  | ByAbbreviation =>
      abbreviationToBookName !! removeSpaces cleanedQuery = Some n
      ∨ abbreviationToBookName !! cleanedQuery = Some n
  | ByAlias => cleanedQuery = lit "song of songs" ∧ n = lit "Song of Solomon"
  | ByPrefix => startsWith (toLowerCase n) cleanedQuery = true
  end.

(** The shape of a book token: a digit, a letter or white space, followed
    by letters and white space only. *)
Definition bookShape (b : str) : bool :=
  match b with
  | [] => true
  | c :: t => (isDigit c || App.isAlphaOrSpace c) && forallb App.isAlphaOrSpace t
  end.

(** The two forms of a book token with a letter: letters and white space
    after a first letter, or a digit, white space, a letter, then letters
    and white space. *)
Inductive bookTokenForm : str → Prop :=
| PlainToken a rest :
    isAlpha a = true →
    Forall (λ c, App.isAlphaOrSpace c = true) rest →
    bookTokenForm (a :: rest)
| NumberedToken d sp a rest :
    isDigit d = true →
    Forall (λ c, isSpace c = true) sp →
    isAlpha a = true →
    Forall (λ c, App.isAlphaOrSpace c = true) rest →
    bookTokenForm (d :: sp ++ a :: rest).

(** The groups a match of a pattern certainly defines: those that are
    not inside an option. *)
Fixpoint definite (r : App.regex) : list nat :=
  match r with
  | App.Chr _ | App.Star _ | App.Plus _ | App.Opt _ => []
  | App.Seq r1 r2 => definite r1 ++ definite r2
  | App.Group i r' => i :: definite r'
  end.

(** A repetition of the class [p] cannot go on into [rest]. *)
Definition stops (p : ascii → bool) (rest : str) : Prop :=
  match rest with
  | [] => True
  | c :: _ => p c = false
  end.

(** The final continuation of [exec]: the match is complete. *)
Definition matched : str → App.captures → option App.captures := λ _ c, Some c.

(** What one segment of the input contributes: the reference it holds,
    if its pattern matches and its book token resolves. *)
Definition segmentReference (chapterVerseCounts : str → list nat) (part : str)
    : option ParsedReference :=
  m ← App.exec App.referenceRegex (trim part);
  g1 ← m !! 1;
  bookMeta ← findBookMetadata chapterVerseCounts (trim g1);
  Some (mkParsedReference
          (name bookMeta)
          (parseInt (m !! 3))
          (parseInt (m !! 4))
          (match m !! 5 with
           | Some (c :: g5) => Some (parseInt (Some (c :: g5)))
           | _ => None
           end)).

Import GeminiService.

(** The client handle exists or can be created: the credential is
    present and not empty. *)
Definition configured (w : World) : Prop :=
  ai w = true ∨ ∃ c k, apiKey w = Some (c :: k).

(** The module state of [w'] extends that of [w]: the session of a mode
    and the text of a cache key stay what they are, and sessions are only
    added. *)
Definition extends (w w' : World) : Prop :=
  (∀ mode chat, chatInstances w !! mode = Some chat →
                chatInstances w' !! mode = Some chat)
  ∧ chats w `prefix_of` chats w'
  ∧ (∀ key text, verseCache w !! key = Some text →
                 verseCache w' !! key = Some text).

End Notions.

Export Notions.

(** ** Concrete environments *)

Module Scenario.

Import BibleService.

Definition noCounts : str → list nat := λ _, [].

Definition emptyCorpus : TeluguBible := mkTeluguBible [].

Definition apiVerse (n : Z) (t : string) : BibleApiResponseVerse :=
  mkApiVerse (lit "JHN") (lit "John") (Num 3) (Num n) (lit t).

Definition response (id : string) (vs : list BibleApiResponseVerse) : BibleApiResponse :=
  mkApiResponse (lit "John 3") vs [] (lit id) (lit id) [].

Definition isKjvRequest (url : str) : bool := includes url (lit "translation=kjv").

Definition kjvFive : BibleApiResponse :=
  response "kjv"
    [apiVerse 1 "k1"; apiVerse 2 "k2"; apiVerse 3 "k3"; apiVerse 4 "k4";
     apiVerse 5 "k5"].

Definition webFour : BibleApiResponse :=
  response "web" [apiVerse 1 "w1"; apiVerse 2 "w2"; apiVerse 4 "w4"; apiVerse 5 "w5"].

(** A primary source of five verses, a secondary source without
    verse 3. *)
Definition httpFive : str → HttpReply :=
  λ url, if isKjvRequest url then Ok kjvFive else Ok webFour.

(** A primary source that answers with no verse. *)
Definition httpNoKjv : str → HttpReply :=
  λ url, if isKjvRequest url then Ok (response "kjv" []) else Ok webFour.

Definition john316 : ParsedReference :=
  mkParsedReference (lit "John") (Num 3) (Num 16) None.

(** A corpus whose first verse of its first book holds a line feed and
    ends with a space. *)
Definition corpusWithBreak : TeluguBible :=
  mkTeluguBible
    [mkTeluguBook
       [mkTeluguChapter [mkTeluguVerse (lit "1") (lit "a" ++ [LF] ++ lit "b ")]]].

Import GeminiService.

(** A configured world in the middle of a cooldown: 60 seconds are
    left. *)
Definition coolingWorld : World :=
  mkWorld 1000 (Some (lit "key")) true ∅ [] ∅ 61000 [].

(** A configured world in which nothing has happened yet. *)
Definition openWorld : World := initial 1000 (Some (lit "key")).

Definition replyHello : Reply := mkReply 7 (inr (lit "hello")).

Definition replyQuota : Reply :=
  mkReply 5 (inl (error (lit "got status 429 Too Many Requests"))).

Definition john316Ref : VerseReference :=
  mkVerseReference (lit "John") (Num 3) (Num 16).

End Scenario.

(** ** Further notions: the gateway *)

Module GatewayNotions.

Import GeminiService.

(** The cooldown never reaches further than 60 seconds ahead. *)
Definition cooldownBounded (w : World) : Prop :=
  (globalCooldownUntil w ≤ now w + 60000)%Z.

(** The calls an operation adds to the log: none, or one. *)
Definition atMostOneCall (w w' : World) : Prop :=
  network w' = network w ∨ ∃ req, network w' = network w ++ [req].

End GatewayNotions.

Export GatewayNotions.

(** ** Further concrete environments: the gateway *)

Module GatewayScenario.

Import GeminiService.

(** A world without credential. *)
Definition keylessWorld : World := initial 1000 None.

(** An upstream failure that is no rate limit. *)
Definition replyDown : Reply :=
  mkReply 3 (inl (error (lit "503 Service Unavailable"))).

End GatewayScenario.

(** ** Further notions: the analysis cache *)

Module CacheNotions.
Import GeminiService.

(** A number that prints without a sign. *)
Definition unsigned (n : number) : Prop :=
  match n with
  | Num z => (0 ≤ z)%Z
  | NaN => True
  end.

(** A verse reference whose book name holds no hyphen and whose numbers
    print without a sign: every reference the reader can select. *)
Definition plainReference (r : VerseReference) : Prop :=
  ("-"%char ∉ vrBook r) ∧ unsigned (vrChapter r) ∧ unsigned (vrVerse r).

End CacheNotions.

Export CacheNotions.

(** ** Further concrete environments: a failing text service *)

Module FetchScenario.

Import BibleService Scenario.

(** The secondary translation is unavailable, the primary one answers. *)
Definition httpWebDown : str → HttpReply :=
  λ url, if isKjvRequest url then Ok kjvFive else Status 503.

End FetchScenario.

(** ** Further notions: the edit distance *)

Module DistanceNotions.

(** The edit distance of two strings given last character first: the
    textbook recurrence on the last characters of the two strings, with a
    cost of one for an insertion, a deletion and a substitution. *)
Fixpoint distanceFromEnd (r1 : str) : str → nat :=
  match r1 with
  | [] => λ r2, length r2
  | c1 :: r1' =>
      fix inner (r2 : str) : nat :=
        match r2 with
        | [] => S (length r1')
        | c2 :: r2' =>
            (distanceFromEnd r1' r2 + 1)
              `min` ((inner r2' + 1)
                       `min` (distanceFromEnd r1' r2'
                              + (if bool_decide (c1 ≠ c2) then 1 else 0)))
        end
  end.

Definition editDistance (s1 s2 : str) : nat :=
  distanceFromEnd (reverse s1) (reverse s2).

(** The row of the distances from [a] to the first [k] prefixes of
    [s2]. *)
Definition distanceRow (a s2 : str) (k : nat) : list nat :=
  (λ j, editDistance a (take j s2)) <$> seq 0 k.

End DistanceNotions.

Export DistanceNotions.

(** ** Further notions: the reference pattern *)

Module PatternNotions.

Import BibleService App.

(** The texts a pattern matches: [matches r t c c'] says that [r]
    matches exactly the text [t] and turns the groups [c] into [c']. *)
Inductive matches : regex → str → captures → captures → Prop :=
| matches_chr p a c :
    p a = true → matches (Chr p) [a] c c
| matches_star p t c :
    Forall (λ a, p a = true) t → matches (Star p) t c c
| matches_plus p t c :
    t ≠ [] → Forall (λ a, p a = true) t → matches (Plus p) t c c
| matches_seq r1 r2 t1 t2 c c1 c2 :
    matches r1 t1 c c1 → matches r2 t2 c1 c2 → matches (Seq r1 r2) (t1 ++ t2) c c2
| matches_opt r t c c' :
    matches r t c c' → matches (Opt r) t c c'
| matches_skip r c :
    matches (Opt r) [] c c
| matches_group i r t c c' :
    matches r t c c' → matches (Group i r) t c (<[i := t]> c').

(** A run of one or more decimal digits. *)
Definition digitRun (ds : str) : Prop :=
  ds ≠ [] ∧ Forall (λ c, isDigit c = true) ds.

(** The texts of the book token: if present, a digit and white space,
    then one or more letters or white space characters. *)
Definition bookTokenText (book : str) : Prop :=
  ∃ lead letters,
    book = lead ++ letters
    ∧ letters ≠ [] ∧ Forall (λ c, isAlphaOrSpace c = true) letters
    ∧ (lead = []
       ∨ ∃ d sp, lead = d :: sp ∧ isDigit d = true
                 ∧ Forall (λ c, isSpace c = true) sp).

(** A text of the form book token, white space, chapter, colon, verse
    and, if present, a dash and an end verse. *)
Definition referenceShaped (t : str) : Prop :=
  ∃ book ws chapter verse tail,
    t = book ++ ws ++ chapter ++ ":"%char :: verse ++ tail
    ∧ bookTokenText book
    ∧ ws ≠ [] ∧ Forall (λ c, isSpace c = true) ws
    ∧ digitRun chapter ∧ digitRun verse
    ∧ (tail = [] ∨ ∃ e, tail = "-"%char :: e ∧ digitRun e).

(** A reference as the parser builds them: a canonical book name, a
    chapter and a verse that are natural numbers, and an end verse that is
    absent or a natural number. *)
Definition wellFormed (r : ParsedReference) : Prop :=
  refBook r ∈ bookNames
  ∧ (∃ c, refChapter r = Num c ∧ (0 ≤ c)%Z)
  ∧ (∃ v, startVerse r = Num v ∧ (0 ≤ v)%Z)
  ∧ (endVerse r = None ∨ ∃ e, endVerse r = Some (Num e) ∧ (0 ≤ e)%Z).

End PatternNotions.

Export PatternNotions.

(** ** Further notions: navigation *)

Module NavigationNotions.

Import BibleService GeminiService AppHandlers.

(** The chapter on display. *)
Definition position (s : State) : str * number := (selectedBook s, selectedChapter s).

(** The chapter on display exists: the book is a canonical name and the
    chapter is one of its chapters. *)
Definition validPosition (chapterVerseCounts : str → list nat) (s : State) : Prop :=
  selectedBook s ∈ bookNames
  ∧ ∃ c, selectedChapter s = Num c
         ∧ (1 ≤ c ≤ Z.of_nat (length (chapterVerseCounts (selectedBook s))))%Z.

(** Every book of the table has a chapter. *)
Definition booksHaveChapters (chapterVerseCounts : str → list nat) : Prop :=
  ∀ n, n ∈ bookNames → chapterVerseCounts n ≠ [].

Section Events.

Variable chapterVerseCounts : str → list nat.
Variable teluguBibleData : TeluguBible.
Variable http : str → HttpReply.
Variable decodeURIComponent : str → Error + str.

(** What the reader and the browser can do to the component: choose a
    book or a chapter among those the selectors offer, select a verse, go
    to the next or the previous chapter, change the hash, type and submit
    a query, leave the search view; and the loading of the chapter. *)
Inductive event : State → State → Prop :=
| event_book book s :
    book ∈ name <$> BIBLE_META chapterVerseCounts →
    event s (handleBookChange book s)
| event_chapter (chapter : nat) s :
    1 ≤ chapter ≤ chapterCount chapterVerseCounts s →
    event s (handleChapterChange (Num (Z.of_nat chapter)) s)
| event_verse innerWidth verseNum s :
    event s (handleVerseSelect innerWidth verseNum s)
| event_next s s' :
    handleNextChapter chapterVerseCounts s = inr s' → event s s'
| event_previous s s' :
    handlePreviousChapter chapterVerseCounts s = inr s' → event s s'
| event_hash innerWidth hash s :
    event s (parseHashAndSetState chapterVerseCounts decodeURIComponent
               innerWidth hash s).2
| event_type query s :
    event s (setSearchQuery query s)
| event_search reply s w :
    event s (handleSearch chapterVerseCounts teluguBibleData http reply s w).1.2
| event_clear s :
    event s (handleClearSearch s)
| event_load s :
    event s (loadVersesEffect chapterVerseCounts teluguBibleData http s).

End Events.

End NavigationNotions.

Export NavigationNotions.

(** ** Further concrete environments: navigation *)

Module NavigationScenario.

Import BibleService GeminiService AppHandlers Scenario.

(** Every book with three chapters. *)
Definition threeChapters : str → list nat := λ _, [31; 25; 24].

(** The platform functions, as far as they matter for a text without
    escape sequence. *)
Definition decodePlain : str → Error + str := inr.

Definition startState : State :=
  mkState [] true None (lit "Genesis") (Num 1) None false false [] false None [].

End NavigationScenario.

(** ** Further notions: the hash *)

Module HashNotions.

Import BibleService GeminiService AppHandlers.

(** What the hash needs of the platform: a book name that is encoded
    decodes to itself, and its encoding is not empty and holds no slash. *)
Definition codecAgrees (encodeURIComponent : str → str)
    (decodeURIComponent : str → Error + str) : Prop :=
  ∀ n, n ∈ bookNames →
    decodeURIComponent (replacePlus (encodeURIComponent n)) = inr n
    ∧ encodeURIComponent n ≠ []
    ∧ ("/"%char ∉ encodeURIComponent n).

(** The selected verse, if any, is a verse of the chapter on display and
    has a positive number. *)
Definition verseOnDisplay (s : State) : Prop :=
  match selectedVerseRef s with
  | None => True
  | Some r =>
      vrBook r = selectedBook s ∧ vrChapter r = selectedChapter s
      ∧ ∃ v, vrVerse r = Num v ∧ (0 < v)%Z
  end.

End HashNotions.

Export HashNotions.


(** * Properties *)

(** The tables are kept folded in proofs. *)
Arguments BibleService.bookNameToAbbreviation : simpl never.
Arguments BibleService.abbreviationToBookName : simpl never.
Arguments BibleService.BIBLE_META_WITH_VERSE_COUNTS : simpl never.
Arguments BibleService.BIBLE_META : simpl never.
Arguments Notions.bookNames : simpl never.
Arguments BibleService.findBookMetadata : simpl never.

(** ** Text primitives *)

Section TextFacts.

Lemma trimStart_spaces (ws s : str) :
  Forall (λ c, isSpace c = true) ws → trimStart (ws ++ s) = trimStart s.
Proof.
  induction 1 as [|c ws Hc _ IH]; [done|]. simpl. by rw Hc.
Qed.

Lemma trimStart_fixed (c : ascii) (s : str) :
  isSpace c = false → trimStart (c :: s) = c :: s.
Proof. intros Hc. simpl. by rw Hc. Qed.

(** [trimStart] removes a run of white space and stops at the first
    other character. *)
Lemma trimStart_split (s : str) :
  ∃ ws, s = ws ++ trimStart s ∧ Forall (λ c, isSpace c = true) ws
        ∧ (trimStart s = [] ∨ ∃ c t, trimStart s = c :: t ∧ isSpace c = false).
Proof.
  induction s as [|c s (ws & Hs & Hws & Hhd)].
  - exists []. by eauto.
  - simpl. destruct (isSpace c) eqn:Hc.
    + exists (c :: ws). split_and!; [by rw /= -Hs | by constructor | done].
    + exists []. split_and!; [done | done | right; by eauto].
Qed.

Lemma trimEnd_spaces (s ws : str) :
  Forall (λ c, isSpace c = true) ws → trimEnd (s ++ ws) = trimEnd s.
Proof.
  intros Hws. unfold trimEnd.
  by rw reverse_app trimStart_spaces; [apply Forall_reverse|].
Qed.

Lemma trimEnd_fixed (s : str) (c : ascii) :
  isSpace c = false → trimEnd (s ++ [c]) = s ++ [c].
Proof.
  intros Hc. unfold trimEnd.
  rw reverse_app reverse_singleton /= Hc.
  by rw reverse_cons reverse_involutive.
Qed.

Lemma trimEnd_split (s : str) :
  ∃ ws, s = trimEnd s ++ ws ∧ Forall (λ c, isSpace c = true) ws
        ∧ (trimEnd s = [] ∨ ∃ t c, trimEnd s = t ++ [c] ∧ isSpace c = false).
Proof.
  destruct (trimStart_split (reverse s)) as (ws & Hs & Hws & Hhd).
  exists (reverse ws). unfold trimEnd. split_and!.
  - by rw -reverse_app -Hs reverse_involutive.
  - by apply Forall_reverse.
  - destruct Hhd as [-> | (c & t & -> & Hc)]; [by left|].
    right. exists (reverse t), c. by rw reverse_cons.
Qed.

(** What [trimEnd] leaves of a string that starts with a character other
    than white space starts with that character. *)
Lemma trimEnd_head (c : ascii) (s : str) :
  isSpace c = false → ∃ t, trimEnd (c :: s) = c :: t.
Proof.
  intros Hc. destruct (trimEnd_split (c :: s)) as (ws & Hs & Hws & Hlast).
  destruct (trimEnd (c :: s)) as [|c' t] eqn:E.
  - simpl in Hs. subst ws. apply Forall_cons in Hws as [Hc' _]. congruence.
  - injection Hs as -> _. by eauto.
Qed.

Lemma trim_idemp (s : str) : trim (trim s) = trim s.
Proof.
  unfold trim.
  destruct (trimStart_split s) as (_ & _ & _ & [-> | (c & t & -> & Hc)]); [done|].
  destruct (trimEnd_head c t Hc) as [u Hu]. rw Hu (trimStart_fixed _ _ Hc) -Hu.
  destruct (trimEnd_split (c :: t)) as (_ & _ & _ & [E | (v & d & -> & Hd)]).
  - by rw E.
  - by apply trimEnd_fixed.
Qed.

(** [trim] removes white space at both ends and nothing else. *)
Lemma trim_split (s : str) :
  ∃ w1 w2, s = w1 ++ trim s ++ w2
           ∧ Forall (λ c, isSpace c = true) w1
           ∧ Forall (λ c, isSpace c = true) w2.
Proof.
  destruct (trimStart_split s) as (w1 & Hs & Hw1 & _).
  destruct (trimEnd_split (trimStart s)) as (w2 & Ht & Hw2 & _).
  exists w1, w2. unfold trim. by rw -Ht.
Qed.

Lemma elem_of_trim (c : ascii) (s : str) : c ∈ trim s → c ∈ s.
Proof.
  intros Hc. destruct (trim_split s) as (w1 & w2 & Hs & _).
  rw Hs. set_solver.
Qed.

Lemma replaceLineFeeds_no_LF (s : str) : LF ∉ replaceLineFeeds s.
Proof.
  unfold replaceLineFeeds. intros (c & Hc & _)%list_elem_of_fmap.
  case_bool_decide; [discriminate | congruence].
Qed.

Lemma replaceLineFeeds_length (s : str) :
  length (replaceLineFeeds s) = length s.
Proof. apply length_fmap. Qed.

End TextFacts.

(** ** The verse merger *)

Section MergeFacts.

Import BibleService.

Variable chapterVerseCounts : str → list nat.
Variable teluguBibleData : TeluguBible.
Variable http : str → HttpReply.

Local Abbreviation fetchTranslation := (BibleService.fetchTranslation http).
Local Abbreviation fetchEnglish := (BibleService.fetchEnglish http).
Local Abbreviation getTeluguVerse :=
  (BibleService.getTeluguVerse chapterVerseCounts teluguBibleData).
Local Abbreviation fetchChapter :=
  (BibleService.fetchChapter chapterVerseCounts teluguBibleData http).
Local Abbreviation fetchReference :=
  (BibleService.fetchReference chapterVerseCounts teluguBibleData http).
Local Abbreviation fetchVersesByReferences :=
  (BibleService.fetchVersesByReferences chapterVerseCounts teluguBibleData http).
Local Abbreviation mergeChapterVerse :=
  (BibleService.mergeChapterVerse chapterVerseCounts teluguBibleData).
Local Abbreviation mergeReferenceVerse :=
  (BibleService.mergeReferenceVerse chapterVerseCounts teluguBibleData).

Lemma both_inr {A B} (a : Error + A) (b : Error + B) (x : A) (y : B) :
  a = inr x → b = inr y → both a b = inr (x, y).
Proof. by intros -> ->. Qed.

Lemma both_inr_inv {A B} (a : Error + A) (b : Error + B) (p : A * B) :
  both a b = inr p → a = inr p.1 ∧ b = inr p.2.
Proof. destruct a, b; simpl; intros [= <-]; done. Qed.

Lemma both_inl_r {A B} (a : Error + A) (e : Error) :
  ∃ e', both a (inl e : Error + B) = inl e'.
Proof. destruct a; simpl; eauto. Qed.

Lemma find_absent {A} (p : A → bool) (l : list A) :
  (∀ x, x ∈ l → p x = false) → List.find p l = None.
Proof.
  induction l as [|x l IH]; [done|]. intros H. simpl.
  rw (H x); [by left|]. apply IH. intros y Hy. apply H. by right.
Qed.

Lemma fetchChapter_merged (book : str) (chapter : number)
    (webData kjvData : BibleApiResponse) :
  fetchTranslation book chapter (lit "web") = inr webData →
  fetchTranslation book chapter (lit "kjv") = inr kjvData →
  verses kjvData ≠ [] →
  fetchChapter book chapter
  = inr (mergeChapterVerse book chapter webData <$> verses kjvData).
Proof.
  intros Hweb Hkjv Hne. unfold BibleService.fetchChapter.
  rw (both_inr _ _ _ _ Hweb Hkjv). case_bool_decide as Hlen; [|done].
  by apply nil_length_inv in Hlen.
Qed.

Lemma fetchChapter_inv (book : str) (chapter : number) (merged : list Verse) :
  fetchChapter book chapter = inr merged →
  ∃ webData kjvData,
    fetchTranslation book chapter (lit "web") = inr webData
    ∧ fetchTranslation book chapter (lit "kjv") = inr kjvData
    ∧ verses kjvData ≠ []
    ∧ merged = mergeChapterVerse book chapter webData <$> verses kjvData.
Proof.
  unfold BibleService.fetchChapter.
  destruct (both _ _) as [e | [webData kjvData]] eqn:Hboth; [done|].
  apply both_inr_inv in Hboth as [Hweb Hkjv].
  case_bool_decide as Hlen; [done|]. intros [= <-].
  exists webData, kjvData. split_and!; [done | done | | done].
  intros E. by rw E in Hlen.
Qed.

Lemma fetchReference_merged (ref : ParsedReference)
    (webData kjvData : BibleApiResponse) :
  fetchEnglish ref (lit "web") = inr webData →
  fetchEnglish ref (lit "kjv") = inr kjvData →
  fetchReference ref
  = inr (mergeReferenceVerse ref webData <$> verses kjvData).
Proof.
  intros Hweb Hkjv. unfold BibleService.fetchReference.
  rw (both_inr _ _ _ _ Hweb Hkjv). case_bool_decide as Hlen; [|done].
  apply nil_length_inv in Hlen. by rw Hlen.
Qed.

Lemma fetchReference_inv (ref : ParsedReference) (merged : list FullVerse) :
  fetchReference ref = inr merged →
  ∃ webData kjvData,
    fetchEnglish ref (lit "web") = inr webData
    ∧ fetchEnglish ref (lit "kjv") = inr kjvData
    ∧ merged = mergeReferenceVerse ref webData <$> verses kjvData.
Proof.
  intros H. pose proof H as H'. unfold BibleService.fetchReference in H'.
  destruct (both _ _) as [e | [webData kjvData]] eqn:Hboth; [done|].
  apply both_inr_inv in Hboth as [Hweb Hkjv]. simpl in Hweb, Hkjv.
  exists webData, kjvData. split_and!; [done | done |].
  rw (fetchReference_merged _ _ _ Hweb Hkjv) in H. by injection H.
Qed.

Lemma allFlat_inr {A} (ps : list (Error + list A)) (xs : list A) (x : A) :
  allFlat ps = inr xs → x ∈ xs → ∃ l, inr l ∈ ps ∧ x ∈ l.
Proof.
  revert xs. induction ps as [|[e|l] ps IH]; intros xs; simpl.
  - intros [= <-]. by intros ?%elem_of_nil.
  - done.
  - destruct (allFlat ps) as [e|ys]; [done|]. intros [= <-].
    intros [Hx|Hx]%elem_of_app.
    + exists l. split; [by left | done].
    + destruct (IH ys eq_refl Hx) as (l' & Hl' & Hx'). exists l'.
      split; [by right | done].
Qed.

Lemma allFlat_skip {A} (pre post : list (Error + list A)) :
  allFlat (pre ++ inr [] :: post) = allFlat (pre ++ post).
Proof.
  induction pre as [|[e|l] pre IH]; simpl; [by destruct (allFlat post) | done |].
  by rw IH.
Qed.

Lemma fetchVersesByReferences_inv (references : list ParsedReference)
    (merged : list FullVerse) (v : FullVerse) :
  fetchVersesByReferences references = inr merged → v ∈ merged →
  ∃ ref vs, ref ∈ references ∧ fetchReference ref = inr vs ∧ v ∈ vs.
Proof.
  intros H Hv. destruct (allFlat_inr _ _ _ H Hv) as (l & Hl & Hvl).
  apply list_elem_of_fmap in Hl as (ref & Href & Hin). by eauto.
Qed.

Lemma normalized_text (raw : str) : normalized (trim (replaceLineFeeds raw)).
Proof.
  split; [|apply trim_idemp].
  intros H%elem_of_trim. by apply replaceLineFeeds_no_LF in H.
Qed.

Lemma webTextFor_normalized (webData : BibleApiResponse)
    (kjvVerse : BibleApiResponseVerse) :
  normalized (webTextFor webData kjvVerse).
Proof. unfold webTextFor. destruct (List.find _ _); apply normalized_text. Qed.

(** C6.  When both sources answer and the primary (KJV) source has at
    least one verse, a merge returns exactly one merged verse for each
    verse of the primary source, in the order of the primary source, with
    the verse number and the normalized text of the primary verse in the
    KJV slot; when no verse of the secondary (web) source has that
    number, the ESV and NIV slots hold the primary text.  This holds for
    the merge of [fetchChapter] and for the merge of one reference of
    [fetchVersesByReferences]. *)
Theorem merge_follows_primary :
  (∀ (book : str) (chapter : number) (webData kjvData : BibleApiResponse),
     fetchTranslation book chapter (lit "web") = inr webData →
     fetchTranslation book chapter (lit "kjv") = inr kjvData →
     verses kjvData ≠ [] →
     ∃ merged,
       fetchChapter book chapter = inr merged
       ∧ length merged = length (verses kjvData)
       ∧ verseNumber <$> merged = verse <$> verses kjvData
       ∧ ∀ i kjvVerse, verses kjvData !! i = Some kjvVerse →
           ∃ v, merged !! i = Some v
                ∧ verseNumber v = verse kjvVerse
                ∧ KJV (verseText v) = trim (replaceLineFeeds (text kjvVerse))
                ∧ ((∀ w, w ∈ verses webData →
                         numEq (verse w) (verse kjvVerse) = false) →
                   ESV (verseText v) = KJV (verseText v)
                   ∧ NIV (verseText v) = KJV (verseText v)))
  ∧ (∀ (ref : ParsedReference) (webData kjvData : BibleApiResponse),
       fetchEnglish ref (lit "web") = inr webData →
       fetchEnglish ref (lit "kjv") = inr kjvData →
       ∃ merged,
         fetchReference ref = inr merged
         ∧ length merged = length (verses kjvData)
         ∧ fvVerse <$> merged = verse <$> verses kjvData
         ∧ ∀ i kjvVerse, verses kjvData !! i = Some kjvVerse →
             ∃ v, merged !! i = Some v
                  ∧ fvVerse v = verse kjvVerse
                  ∧ KJV (fvText v) = trim (replaceLineFeeds (text kjvVerse))
                  ∧ ((∀ w, w ∈ verses webData →
                           numEq (verse w) (verse kjvVerse) = false) →
                     ESV (fvText v) = KJV (fvText v)
                     ∧ NIV (fvText v) = KJV (fvText v))).
Proof.
  split.
  - intros book chapter webData kjvData Hweb Hkjv Hne.
    eexists. split; [by apply fetchChapter_merged|].
    split_and!.
    + by rw length_fmap.
    + rw -list_fmap_compose. by apply list_fmap_ext.
    + intros i kjvVerse Hi. exists (mergeChapterVerse book chapter webData kjvVerse).
      rw list_lookup_fmap Hi. split_and!; [done..|]. intros Habsent.
      unfold BibleService.mergeChapterVerse. cbn [verseText KJV ESV NIV].
      by rw (find_absent _ _ Habsent).
  - intros ref webData kjvData Hweb Hkjv.
    eexists. split; [by apply fetchReference_merged|].
    split_and!.
    + by rw length_fmap.
    + rw -list_fmap_compose. by apply list_fmap_ext.
    + intros i kjvVerse Hi. exists (mergeReferenceVerse ref webData kjvVerse).
      rw list_lookup_fmap Hi. split_and!; [done..|]. intros Habsent.
      unfold BibleService.mergeReferenceVerse. cbn [fvText KJV ESV NIV].
      by rw (find_absent _ _ Habsent).
Qed.

(** C10.  In every merged verse that [fetchChapter] or
    [fetchVersesByReferences] returns, the ESV and NIV fields are the same
    string: the normalized text of the web verse with the number of the
    verse, or the KJV text when the web source has no such verse. *)
Theorem esv_niv_identical :
  (∀ (book : str) (chapter : number) (merged : list Verse) (v : Verse),
     fetchChapter book chapter = inr merged → v ∈ merged →
     ESV (verseText v) = NIV (verseText v)
     ∧ ∃ webData kjvData kjvVerse,
         fetchTranslation book chapter (lit "web") = inr webData
         ∧ fetchTranslation book chapter (lit "kjv") = inr kjvData
         ∧ kjvVerse ∈ verses kjvData
         ∧ verseNumber v = verse kjvVerse
         ∧ KJV (verseText v) = trim (replaceLineFeeds (text kjvVerse))
         ∧ ESV (verseText v) = webTextFor webData kjvVerse)
  ∧ (∀ (references : list ParsedReference) (merged : list FullVerse) (v : FullVerse),
       fetchVersesByReferences references = inr merged → v ∈ merged →
       ESV (fvText v) = NIV (fvText v)
       ∧ ∃ ref webData kjvData kjvVerse,
           ref ∈ references
           ∧ fetchEnglish ref (lit "web") = inr webData
           ∧ fetchEnglish ref (lit "kjv") = inr kjvData
           ∧ kjvVerse ∈ verses kjvData
           ∧ fvVerse v = verse kjvVerse
           ∧ KJV (fvText v) = trim (replaceLineFeeds (text kjvVerse))
           ∧ ESV (fvText v) = webTextFor webData kjvVerse).
Proof.
  split.
  - intros book chapter merged v H Hv.
    apply fetchChapter_inv in H as (webData & kjvData & Hweb & Hkjv & _ & ->).
    apply list_elem_of_fmap in Hv as (kjvVerse & -> & Hin).
    split; [done|]. by exists webData, kjvData, kjvVerse.
  - intros references merged v H Hv.
    destruct (fetchVersesByReferences_inv _ _ _ H Hv) as (ref & vs & Href & Hvs & Hin).
    apply fetchReference_inv in Hvs as (webData & kjvData & Hweb & Hkjv & ->).
    apply list_elem_of_fmap in Hin as (kjvVerse & -> & Hin).
    split; [done|]. by exists ref, webData, kjvData, kjvVerse.
Qed.

(** C4, amended.  When the primary (KJV) source answers with no verse,
    [fetchChapter] fails.  In [fetchVersesByReferences], when both
    sources answer for a reference and the primary one has no verse, that
    reference yields no verse and no failure: the result is the result
    for the other references. *)
Theorem no_primary_verses :
  (∀ (book : str) (chapter : number) (kjvData : BibleApiResponse),
     fetchTranslation book chapter (lit "kjv") = inr kjvData →
     verses kjvData = [] →
     ∃ e, fetchChapter book chapter = inl e)
  ∧ (∀ (ref : ParsedReference) (webData kjvData : BibleApiResponse)
       (before after : list ParsedReference),
       fetchEnglish ref (lit "web") = inr webData →
       fetchEnglish ref (lit "kjv") = inr kjvData →
       verses kjvData = [] →
       fetchReference ref = inr []
       ∧ fetchVersesByReferences (before ++ ref :: after)
         = fetchVersesByReferences (before ++ after)).
Proof.
  split.
  - intros book chapter kjvData Hkjv Hnil. unfold BibleService.fetchChapter.
    rw Hkjv. destruct (fetchTranslation book chapter (lit "web")) as [e|webData];
      simpl; [by eauto|].
    rw Hnil /=. by eauto.
  - intros ref webData kjvData before after Hweb Hkjv Hnil.
    assert (fetchReference ref = inr []) as Href.
    { by rw (fetchReference_merged _ _ _ Hweb Hkjv) Hnil. }
    split; [done|]. unfold BibleService.fetchVersesByReferences.
    by rw !fmap_app fmap_cons Href allFlat_skip.
Qed.

(** C9, amended.  In every merged verse, each English slot (KJV, ESV,
    NIV) holds a source text in which every line feed was replaced by one
    space and which was then trimmed: the slot holds no line feed and no
    white space at either end.  The secondary-language line is stored as
    the corpus has it. *)
Theorem english_slots_normalized :
  (∀ (book : str) (chapter : number) (merged : list Verse) (v : Verse),
     fetchChapter book chapter = inr merged → v ∈ merged →
     (∃ webData kjvData kjvVerse source,
        fetchTranslation book chapter (lit "web") = inr webData
        ∧ fetchTranslation book chapter (lit "kjv") = inr kjvData
        ∧ kjvVerse ∈ verses kjvData
        ∧ (source ∈ verses webData ∨ source = kjvVerse)
        ∧ KJV (verseText v) = trim (replaceLineFeeds (text kjvVerse))
        ∧ ESV (verseText v) = trim (replaceLineFeeds (text source))
        ∧ NIV (verseText v) = trim (replaceLineFeeds (text source)))
     ∧ normalized (KJV (verseText v))
     ∧ normalized (ESV (verseText v))
     ∧ normalized (NIV (verseText v))
     ∧ ∀ t, BSI_TELUGU (verseText v) = Some t →
            getTeluguVerse book chapter (verseNumber v) = Some t)
  ∧ (∀ (references : list ParsedReference) (merged : list FullVerse) (v : FullVerse),
       fetchVersesByReferences references = inr merged → v ∈ merged →
       (∃ ref webData kjvData kjvVerse source,
          ref ∈ references
          ∧ fetchEnglish ref (lit "web") = inr webData
          ∧ fetchEnglish ref (lit "kjv") = inr kjvData
          ∧ kjvVerse ∈ verses kjvData
          ∧ (source ∈ verses webData ∨ source = kjvVerse)
          ∧ KJV (fvText v) = trim (replaceLineFeeds (text kjvVerse))
          ∧ ESV (fvText v) = trim (replaceLineFeeds (text source))
          ∧ NIV (fvText v) = trim (replaceLineFeeds (text source)))
       ∧ normalized (KJV (fvText v))
       ∧ normalized (ESV (fvText v))
       ∧ normalized (NIV (fvText v))
       ∧ ∀ t, BSI_TELUGU (fvText v) = Some t →
              getTeluguVerse (fvBook v) (fvChapter v) (fvVerse v) = Some t).
Proof.
  assert (∀ o t, spreadTelugu o = Some t → o = Some t) as Hspread.
  { intros [[|c u]|] t; simpl; congruence. }
  assert (∀ (webData : BibleApiResponse) (kjvVerse : BibleApiResponseVerse),
            ∃ source, (source ∈ verses webData ∨ source = kjvVerse)
                      ∧ match List.find (λ w, numEq (verse w) (verse kjvVerse))
                                        (verses webData) with
                        | Some w => trim (replaceLineFeeds (text w))
                        | None => trim (replaceLineFeeds (text kjvVerse))
                        end = trim (replaceLineFeeds (text source))) as Hsource.
  { intros webData kjvVerse. destruct (List.find _ _) as [w|] eqn:Hfind.
    - exists w. split; [left | done].
      apply find_some in Hfind as [Hin _]. by apply list_elem_of_In.
    - exists kjvVerse. by split; [right|]. }
  split.
  - intros book chapter merged v H Hv.
    apply fetchChapter_inv in H as (webData & kjvData & Hweb & Hkjv & _ & ->).
    apply list_elem_of_fmap in Hv as (kjvVerse & -> & Hin).
    destruct (Hsource webData kjvVerse) as (source & Hsrc & Heq).
    unfold BibleService.mergeChapterVerse.
    cbn [verseText verseNumber KJV ESV NIV BSI_TELUGU]. rw Heq.
    split_and!; [|apply normalized_text..|by apply Hspread].
    by exists webData, kjvData, kjvVerse, source.
  - intros references merged v H Hv.
    destruct (fetchVersesByReferences_inv _ _ _ H Hv) as (ref & vs & Href & Hvs & Hin).
    apply fetchReference_inv in Hvs as (webData & kjvData & Hweb & Hkjv & ->).
    apply list_elem_of_fmap in Hin as (kjvVerse & -> & Hin).
    destruct (Hsource webData kjvVerse) as (source & Hsrc & Heq).
    unfold BibleService.mergeReferenceVerse.
    cbn [fvText fvBook fvChapter fvVerse KJV ESV NIV BSI_TELUGU]. rw Heq.
    split_and!; [|apply normalized_text..|by apply Hspread].
    by exists ref, webData, kjvData, kjvVerse, source.
Qed.

End MergeFacts.

Section MergeScenarios.

Import BibleService Scenario.

Lemma merge_follows_primary_witness :
  (∃ merged,
     fetchChapter noCounts emptyCorpus httpFive (lit "John") (Num 3) = inr merged
     ∧ length merged = 5
     ∧ ∃ v, merged !! 2 = Some v ∧ verseNumber v = Num 3
            ∧ ESV (verseText v) = lit "k3")
  ∧ (∃ merged,
       fetchReference noCounts emptyCorpus httpFive john316 = inr merged
       ∧ length merged = 5
       ∧ ∃ v, merged !! 2 = Some v ∧ fvVerse v = Num 3
              ∧ ESV (fvText v) = lit "k3").
Proof.
  destruct (merge_follows_primary noCounts emptyCorpus httpFive) as [Hc Hr].
  split.
  - destruct (Hc (lit "John") (Num 3) webFour kjvFive eq_refl eq_refl)
      as (merged & Hm & Hlen & _ & Hall); [done|].
    exists merged. split_and!; [done | done |].
    destruct (Hall 2 (apiVerse 3 "k3") eq_refl) as (v & Hv & Hn & Hk & Hw).
    exists v. split_and!; [done | done |].
    destruct Hw as [-> _]; [|by rw Hk].
    intros w Hw. unfold webFour, response in Hw. cbn [verses] in Hw.
    decompose_list_elem_of; subst w; reflexivity.
  - destruct (Hr john316 webFour kjvFive eq_refl eq_refl)
      as (merged & Hm & Hlen & _ & Hall).
    exists merged. split_and!; [done | done |].
    destruct (Hall 2 (apiVerse 3 "k3") eq_refl) as (v & Hv & Hn & Hk & Hw).
    exists v. split_and!; [done | done |].
    destruct Hw as [-> _]; [|by rw Hk].
    intros w Hw. unfold webFour, response in Hw. cbn [verses] in Hw.
    decompose_list_elem_of; subst w; reflexivity.
Defined.

Lemma esv_niv_identical_witness :
  (∃ merged v,
     fetchChapter noCounts emptyCorpus httpFive (lit "John") (Num 3) = inr merged
     ∧ v ∈ merged ∧ verseNumber v = Num 4
     ∧ ESV (verseText v) = NIV (verseText v))
  ∧ (∃ merged v,
       fetchVersesByReferences noCounts emptyCorpus httpFive [john316; john316]
       = inr merged
       ∧ v ∈ merged ∧ fvVerse v = Num 4
       ∧ ESV (fvText v) = NIV (fvText v)).
Proof.
  destruct (esv_niv_identical noCounts emptyCorpus httpFive) as [Hc Hr].
  split.
  - pose (merged := mergeChapterVerse noCounts emptyCorpus (lit "John") (Num 3) webFour
                      <$> verses kjvFive).
    pose (v := mergeChapterVerse noCounts emptyCorpus (lit "John") (Num 3) webFour
                 (apiVerse 4 "k4")).
    assert (fetchChapter noCounts emptyCorpus httpFive (lit "John") (Num 3)
            = inr merged) as Hm by reflexivity.
    assert (v ∈ merged) as Hv.
    { apply list_elem_of_fmap. exists (apiVerse 4 "k4"). split; [done|].
      by apply (list_elem_of_lookup_2 _ 3). }
    exists merged, v. split_and!; [done | done | done |].
    exact (proj1 (Hc _ _ _ _ Hm Hv)).
  - pose (once := mergeReferenceVerse noCounts emptyCorpus john316 webFour
                    <$> verses kjvFive).
    pose (v := mergeReferenceVerse noCounts emptyCorpus john316 webFour
                 (apiVerse 4 "k4")).
    assert (fetchVersesByReferences noCounts emptyCorpus httpFive [john316; john316]
            = inr (once ++ once)) as Hm by reflexivity.
    assert (v ∈ once ++ once) as Hv.
    { apply elem_of_app. left. apply list_elem_of_fmap.
      exists (apiVerse 4 "k4"). split; [done|].
      by apply (list_elem_of_lookup_2 _ 3). }
    exists (once ++ once), v. split_and!; [done | done | done |].
    exact (proj1 (Hr _ _ _ Hm Hv)).
Defined.

(** C4, as stated, fails for [fetchVersesByReferences]: the primary
    source answers for the reference with no verse, and the result is the
    empty list, not a failure. *)
Lemma no_primary_verses_counterexample :
  fetchEnglish httpNoKjv john316 (lit "kjv") = inr (response "kjv" [])
  ∧ verses (response "kjv" []) = []
  ∧ fetchVersesByReferences noCounts emptyCorpus httpNoKjv [john316] = inr [].
Proof. split_and!; reflexivity. Qed.

Lemma no_primary_verses_witness :
  (∃ e, fetchChapter noCounts emptyCorpus httpNoKjv (lit "John") (Num 3) = inl e)
  ∧ fetchReference noCounts emptyCorpus httpNoKjv john316 = inr []
  ∧ fetchVersesByReferences noCounts emptyCorpus httpNoKjv [john316; john316]
    = fetchVersesByReferences noCounts emptyCorpus httpNoKjv [john316].
Proof.
  destruct (no_primary_verses noCounts emptyCorpus httpNoKjv) as [Hc Hr].
  split.
  - exact (Hc (lit "John") (Num 3) (response "kjv" []) eq_refl eq_refl).
  - exact (Hr john316 webFour (response "kjv" []) [john316] []
              eq_refl eq_refl eq_refl).
Defined.

(** C9, as stated, fails for the secondary-language line: a line of the
    corpus with a line feed and a trailing space is stored unchanged. *)
Lemma stored_text_normalized_counterexample :
  ∃ merged v t,
    fetchChapter noCounts corpusWithBreak httpFive (lit "Genesis") (Num 1)
    = inr merged
    ∧ merged !! 0 = Some v
    ∧ BSI_TELUGU (verseText v) = Some t
    ∧ LF ∈ t
    ∧ trim t ≠ t.
Proof.
  eexists _, _, _. split_and!; [reflexivity | reflexivity | reflexivity | |].
  - by apply (list_elem_of_lookup_2 _ 1).
  - by vm_compute.
Qed.

Lemma english_slots_normalized_witness :
  (∃ merged v,
     fetchChapter noCounts corpusWithBreak httpFive (lit "Genesis") (Num 1)
     = inr merged
     ∧ merged !! 0 = Some v
     ∧ normalized (KJV (verseText v))
     ∧ normalized (ESV (verseText v))
     ∧ normalized (NIV (verseText v))
     ∧ BSI_TELUGU (verseText v)
       = getTeluguVerse noCounts corpusWithBreak (lit "Genesis") (Num 1) (Num 1))
  ∧ (∃ merged v,
       fetchVersesByReferences noCounts corpusWithBreak httpFive [john316]
       = inr merged
       ∧ merged !! 0 = Some v
       ∧ normalized (KJV (fvText v))
       ∧ normalized (ESV (fvText v))
       ∧ normalized (NIV (fvText v))).
Proof.
  destruct (english_slots_normalized noCounts corpusWithBreak httpFive) as [Hc Hr].
  split.
  - pose (merged := mergeChapterVerse noCounts corpusWithBreak (lit "Genesis") (Num 1)
                      webFour <$> verses kjvFive).
    pose (v := mergeChapterVerse noCounts corpusWithBreak (lit "Genesis") (Num 1)
                 webFour (apiVerse 1 "k1")).
    assert (fetchChapter noCounts corpusWithBreak httpFive (lit "Genesis") (Num 1)
            = inr merged) as Hm by reflexivity.
    assert (merged !! 0 = Some v) as Hv by reflexivity.
    destruct (Hc _ _ _ _ Hm (list_elem_of_lookup_2 _ _ _ Hv))
      as (_ & Hk & He & Hn & _).
    exists merged, v. by split_and!.
  - pose (merged := mergeReferenceVerse noCounts corpusWithBreak john316 webFour
                      <$> verses kjvFive).
    pose (v := mergeReferenceVerse noCounts corpusWithBreak john316 webFour
                 (apiVerse 1 "k1")).
    assert (fetchVersesByReferences noCounts corpusWithBreak httpFive [john316]
            = inr merged) as Hm by reflexivity.
    assert (merged !! 0 = Some v) as Hv by reflexivity.
    destruct (Hr _ _ _ Hm (list_elem_of_lookup_2 _ _ _ Hv))
      as (_ & Hk & He & Hn & _).
    exists merged, v. by split_and!.
Defined.

End MergeScenarios.

(** ** The AI gateway *)

Section GatewayFacts.

Import GeminiService.

Ltac unfold_monad :=
  rw /tryCatch /call /cacheSet /setCooldown /dateNow /throw /mbind /M_bind
     /mret /M_ret /bind /ret /=.

Lemma ceilSeconds_bounds (ms : Z) :
  (0 < ms → 1 ≤ ceilSeconds ms
            ∧ 1000 * (ceilSeconds ms - 1) < ms ≤ 1000 * ceilSeconds ms)%Z.
Proof.
  intros Hms. unfold ceilSeconds.
  pose proof (Z.div_mod (- ms) 1000 ltac:(lia)).
  pose proof (Z.mod_pos_bound (- ms) 1000 ltac:(lia)). lia.
Qed.

Lemma getAiInstance_cases (w : World) :
  (getAiInstance w = (inr (), w) ∧ ai w = true)
  ∨ (getAiInstance w = (inr (), withAi w) ∧ ai w = false
     ∧ ∃ c k, apiKey w = Some (c :: k))
  ∨ (getAiInstance w = (inl (ApiKeyError (lit "API key missing.")), w)
     ∧ ¬ configured w).
Proof.
  unfold getAiInstance, configured. destruct (ai w) eqn:Hai; [by left|].
  destruct (apiKey w) as [[|c k]|] eqn:Hkey.
  - right; right. split; [done|]. intros [? | (? & ? & ?)]; congruence.
  - right; left. by eauto.
  - right; right. split; [done|]. intros [? | (? & ? & ?)]; congruence.
Qed.

(** [safeGenerate], spelled out. *)
Lemma safeGenerate_eq (reply : Reply) (model prompt : str) (w : World) :
  safeGenerate reply model prompt w
  = if (now w <? globalCooldownUntil w)%Z then
      (inl (error (cooldownMessage (ceilSeconds (globalCooldownUntil w - now w)))), w)
    else
      match getAiInstance w with
      | (inl e, w') => (inl e, w')
      | (inr _, w') =>
          let w'' := called (GenerateContent model prompt conciseInstruction) reply w' in
          match outcome reply with
          | inr text => (inr text, w'')
          | inl err =>
              if isQuotaError err then
                (inl (error busyMessage), withCooldownUntil (now w'' + 60000) w'')
              else (inl err, w'')
          end
      end.
Proof.
  unfold safeGenerate. unfold_monad. destruct (now w <? globalCooldownUntil w)%Z; [done|].
  destruct (getAiInstance_cases w) as [[-> _] | [[-> _] | [-> _]]]; simpl;
    [| |done]; destruct (outcome reply) as [err|text]; simpl; try done;
    by destruct (isQuotaError err).
Qed.

(** While the world is cooling down, [safeGenerate] throws the cooldown
    error and leaves the world as it is. *)
Lemma safeGenerate_cooling (reply : Reply) (model prompt : str) (w : World) :
  cooling w →
  safeGenerate reply model prompt w
  = (inl (error (cooldownMessage (ceilSeconds (globalCooldownUntil w - now w)))), w).
Proof.
  intros Hc. by rw safeGenerate_eq (proj2 (Z.ltb_lt _ _) Hc).
Qed.

(** When it is not, and the client handle is there or can be created,
    [safeGenerate] makes one call. *)
Lemma safeGenerate_open (reply : Reply) (model prompt : str) (w : World) :
  ¬ cooling w → configured w →
  ∃ w0, (w0 = w ∨ w0 = withAi w) ∧
    let w' := called (GenerateContent model prompt conciseInstruction) reply w0 in
    safeGenerate reply model prompt w
    = match outcome reply with
      | inr text => (inr text, w')
      | inl err =>
          if isQuotaError err then
            (inl (error busyMessage), withCooldownUntil (now w' + 60000) w')
          else (inl err, w')
      end.
Proof.
  intros Hc Hconf. rw safeGenerate_eq.
  rw (proj2 (Z.ltb_ge _ _)); [unfold cooling in Hc; lia|].
  destruct (getAiInstance_cases w) as [[-> _] | [[-> _] | [_ Hn]]]; [| |done].
  - exists w. by split; [left|].
  - exists (withAi w). by split; [right|].
Qed.

(** [safeGenerate] touches neither the sessions nor the cache. *)
Lemma safeGenerate_frame (reply : Reply) (model prompt : str) (w : World) :
  let w' := (safeGenerate reply model prompt w).2 in
  chatInstances w' = chatInstances w ∧ chats w' = chats w
  ∧ verseCache w' = verseCache w.
Proof.
  rw safeGenerate_eq. destruct (now w <? globalCooldownUntil w)%Z; [done|].
  destruct (getAiInstance_cases w) as [[-> _] | [[-> _] | [-> _]]]; simpl;
    [| |done]; destruct (outcome reply) as [err|text]; simpl; try done;
    by destruct (isQuotaError err).
Qed.

Lemma getVerseAnalysis_hit (reply : Reply) (verseRef : VerseReference)
    (analysisType : AnalysisType) (text : str) (w : World) :
  verseCache w !! cacheKey verseRef analysisType = Some text →
  getVerseAnalysis reply verseRef analysisType w = (inr text, w).
Proof. intros H. unfold getVerseAnalysis. by rw H. Qed.

Lemma getVerseAnalysis_miss (reply : Reply) (verseRef : VerseReference)
    (analysisType : AnalysisType) (w : World) :
  verseCache w !! cacheKey verseRef analysisType = None →
  getVerseAnalysis reply verseRef analysisType w
  = match safeGenerate reply (lit "gemini-2.5-flash-lite")
                       (analysisPrompt verseRef analysisType) w with
    | (inr text, w') =>
        (inr text, withCached (cacheKey verseRef analysisType) text w')
    | (inl e, w') => (inl e, w')
    end.
Proof.
  intros H. unfold getVerseAnalysis. rw H. unfold_monad.
  by destruct (safeGenerate _ _ _ w) as [[e|text] w'].
Qed.

Lemma searchBibleByKeyword_eq (reply : Reply) (keyword : str) (w : World) :
  searchBibleByKeyword reply keyword w
  = match safeGenerate reply (lit "gemini-2.5-flash-lite") (keywordPrompt keyword) w with
    | (inr text, w') => (inr text, w')
    | (inl e, w') => (inr [], w')
    end.
Proof.
  unfold searchBibleByKeyword. unfold_monad.
  by destruct (safeGenerate _ _ _ w) as [[e|text] w'].
Qed.

Lemma sendMessageToBot_flash (reply : Reply) (message : str)
    (history : list Message) (w : World) :
  sendMessageToBot reply message history (lit "gemini-2.5-flash") w
  = match safeGenerate reply (lit "gemini-2.5-flash") message w with
    | (inr text, w') => (inr (mkBotReply text []), w')
    | (inl e, w') => (inr (mkBotReply (messageOr e (lit "AI error")) []), w')
    end.
Proof.
  unfold sendMessageToBot. unfold_monad.
  by destruct (safeGenerate _ _ _ w) as [[e|text] w'].
Qed.

Lemma sendMessageToBot_chat (reply : Reply) (message : str)
    (history : list Message) (mode : ChatMode) (w : World) :
  mode ≠ lit "gemini-2.5-flash" →
  sendMessageToBot reply message history mode w
  = match getChat mode w with
    | (inr chat, w') =>
        (inr (mkBotReply (match outcome reply with
                          | inr text => text
                          | inl e => messageOr e (lit "AI error")
                          end) []),
         called (SendMessage chat message) reply w')
    | (inl e, w') => (inr (mkBotReply (messageOr e (lit "AI error")) []), w')
    end.
Proof.
  intros Hmode. unfold sendMessageToBot, strEq. rw bool_decide_eq_false_2; [done|].
  unfold_monad. destruct (getChat mode w) as [[e|chat] w']; [done|].
  by destruct (outcome reply).
Qed.

Lemma getChat_cases (mode : ChatMode) (w : World) :
  (∃ chat, chatInstances w !! mode = Some chat ∧ getChat mode w = (inr chat, w))
  ∨ (chatInstances w !! mode = None ∧ configured w
     ∧ ∃ w0, (w0 = w ∨ w0 = withAi w)
             ∧ getChat mode w
               = (inr (length (chats w)),
                  withChat mode (mkChat mode scholarInstruction []) w0))
  ∨ (chatInstances w !! mode = None ∧ ¬ configured w
     ∧ getChat mode w = (inl (ApiKeyError (lit "API key missing.")), w)).
Proof.
  unfold getChat. destruct (chatInstances w !! mode) as [chat|] eqn:Hm.
  - left. by eauto.
  - right.
    destruct (getAiInstance_cases w) as [[-> Hai] | [[-> [Hai Hkey]] | [-> Hn]]].
    + left. split_and!; [done | by left |]. exists w. by split; [left|].
    + left. split_and!; [done | by right |]. exists (withAi w). by split; [right|].
    + right. by split_and!.
Qed.

Lemma extends_refl (w : World) : extends w w.
Proof. by split_and!. Qed.

Lemma extends_trans (w1 w2 w3 : World) :
  extends w1 w2 → extends w2 w3 → extends w1 w3.
Proof.
  intros (Hi & Hc & Hv) (Hi' & Hc' & Hv').
  split_and!; [by eauto | by etrans | by eauto].
Qed.

(** A world that differs in clock, client handle, cooldown or call log
    only extends the one it comes from. *)
Lemma extends_same (w w' : World) :
  chatInstances w' = chatInstances w → chats w' = chats w →
  verseCache w' = verseCache w → extends w w'.
Proof. intros Hi Hc Hv. unfold extends. by rw Hi Hc Hv. Qed.

Lemma safeGenerate_extends (reply : Reply) (model prompt : str) (w : World) :
  extends w (safeGenerate reply model prompt w).2.
Proof.
  destruct (safeGenerate_frame reply model prompt w) as (Hi & Hc & Hv).
  by apply extends_same.
Qed.

Lemma getChat_extends (mode : ChatMode) (w : World) :
  extends w (getChat mode w).2.
Proof.
  destruct (getChat_cases mode w)
    as [(chat & _ & ->) | [(Hnone & _ & w0 & Hw0 & ->) | (_ & _ & ->)]];
    [apply extends_refl | | apply extends_refl].
  assert (chatInstances w0 = chatInstances w ∧ chats w0 = chats w
          ∧ verseCache w0 = verseCache w) as (Hi & Hc & Hv).
  { by destruct Hw0 as [-> | ->]. }
  unfold extends. cbn [snd withChat chatInstances chats verseCache]. rw Hi Hc Hv.
  split_and!; [|by apply prefix_app_r|done].
  intros mode' chat Hm. rw lookup_insert_ne; [congruence | done].
Qed.

(** Every step leaves the sessions and the cached texts in place. *)
Lemma step_extends (w w' : World) : step w w' → extends w w'.
Proof.
  destruct 1 as [d w | reply model prompt w | reply message history mode w
                | reply verseRef analysisType w | reply keyword w].
  - by apply extends_same.
  - apply safeGenerate_extends.
  - destruct (decide (mode = lit "gemini-2.5-flash")) as [-> | Hmode].
    + rw sendMessageToBot_flash.
      pose proof (safeGenerate_extends reply (lit "gemini-2.5-flash") message w) as H.
      by destruct (safeGenerate _ _ _ w) as [[e|text] w'].
    + rw (sendMessageToBot_chat _ _ _ _ _ Hmode).
      pose proof (getChat_extends mode w) as H.
      destruct (getChat mode w) as [[e|chat] w']; [done|].
      eapply extends_trans; [exact H|]. by apply extends_same.
  - destruct (verseCache w !! cacheKey verseRef analysisType) as [text|] eqn:Hkey.
    + rw (getVerseAnalysis_hit _ _ _ _ _ Hkey). apply extends_refl.
    + rw (getVerseAnalysis_miss _ _ _ _ Hkey).
      destruct (safeGenerate_frame reply (lit "gemini-2.5-flash-lite")
                  (analysisPrompt verseRef analysisType) w) as (Hi & Hc & Hv).
      destruct (safeGenerate _ _ _ w) as [[e|text] w']; simpl in *.
      * by apply extends_same.
      * unfold extends. cbn [withCached chatInstances chats verseCache].
        rw Hi Hc Hv. split_and!; [done | done |].
        intros key t Ht. rw lookup_insert_ne; [congruence | done].
  - rw searchBibleByKeyword_eq.
    pose proof (safeGenerate_extends reply (lit "gemini-2.5-flash-lite")
                  (keywordPrompt keyword) w) as H.
    by destruct (safeGenerate _ _ _ w) as [[e|text] w'].
Qed.

Lemma steps_extends (w w' : World) : rtc step w w' → extends w w'.
Proof.
  induction 1 as [w | w1 w2 w3 H12 _ IH]; [apply extends_refl|].
  eapply extends_trans; [by apply step_extends | done].
Qed.

(** C1, amended.  While the cooldown is active, [safeGenerate] and
    [getVerseAnalysis] on a cache miss throw at once the cooldown error,
    which names the remaining seconds, rounded up; [searchBibleByKeyword]
    returns the empty string; [sendMessageToBot] in the mode
    "gemini-2.5-flash" returns the cooldown message as its reply; none of
    them calls the remote service or changes the world.  When the cooldown
    is not active and the client is configured, [safeGenerate] calls the
    service once; if the reply is an error whose message contains "429"
    or "RESOURCE_EXHAUSTED", the cooldown runs until 60 seconds after the
    failure: it is active during these 60 seconds and over after them, when
    a request calls the service again. *)
Theorem cooldown_gate (reply : Reply) (w : World) :
  let remaining := ceilSeconds (globalCooldownUntil w - now w) in
  let refusal := error (cooldownMessage remaining) in
  (cooling w →
     (1 ≤ remaining
      ∧ 1000 * (remaining - 1) < globalCooldownUntil w - now w ≤ 1000 * remaining)%Z
     ∧ (∀ model prompt, safeGenerate reply model prompt w = (inl refusal, w))
     ∧ (∀ verseRef analysisType,
          verseCache w !! cacheKey verseRef analysisType = None →
          getVerseAnalysis reply verseRef analysisType w = (inl refusal, w))
     ∧ (∀ keyword, searchBibleByKeyword reply keyword w = (inr [], w))
     ∧ (∀ message history,
          sendMessageToBot reply message history (lit "gemini-2.5-flash") w
          = (inr (mkBotReply (cooldownMessage remaining) []), w)))
  ∧ (¬ cooling w → configured w →
     ∀ model prompt,
       let w' := (safeGenerate reply model prompt w).2 in
       network w' = network w ++ [GenerateContent model prompt conciseInstruction]
       ∧ now w' = (now w + Z.of_N (latency reply))%Z
       ∧ (∀ text, outcome reply = inr text →
            (safeGenerate reply model prompt w).1 = inr text
            ∧ globalCooldownUntil w' = globalCooldownUntil w)
       ∧ (∀ err, outcome reply = inl err → isQuotaError err = true →
            (safeGenerate reply model prompt w).1 = inl (error busyMessage)
            ∧ globalCooldownUntil w' = (now w' + 60000)%Z
            ∧ ∀ d : N,
                ((d < 60000)%N → cooling (advance d w'))
                ∧ ((60000 ≤ d)%N →
                   ¬ cooling (advance d w')
                   ∧ ∀ reply2 model2 prompt2,
                       network (safeGenerate reply2 model2 prompt2 (advance d w')).2
                       = network w'
                         ++ [GenerateContent model2 prompt2 conciseInstruction]))).
Proof.
  intros remaining refusal. split.
  - intros Hc. split; [apply ceilSeconds_bounds; unfold cooling in Hc; lia|].
    split_and!.
    + intros model prompt. by apply safeGenerate_cooling.
    + intros verseRef analysisType Hmiss.
      by rw (getVerseAnalysis_miss _ _ _ _ Hmiss) safeGenerate_cooling.
    + intros keyword. by rw searchBibleByKeyword_eq safeGenerate_cooling.
    + intros message history. by rw sendMessageToBot_flash safeGenerate_cooling.
  - intros Hc Hconf model prompt.
    destruct (safeGenerate_open reply model prompt w Hc Hconf) as (w0 & Hw0 & ->).
    assert (network w0 = network w ∧ now w0 = now w
            ∧ globalCooldownUntil w0 = globalCooldownUntil w) as (Hn & Ht & Hu).
    { by destruct Hw0 as [-> | ->]. }
    split_and!.
    + destruct (outcome reply) as [err|text]; [destruct (isQuotaError err)|];
        by rw /= Hn.
    + destruct (outcome reply) as [err|text]; [destruct (isQuotaError err)|];
        by rw /= Ht.
    + intros text ->. by rw /= Hu.
    + intros err -> ->. split_and!; [done | done |]. intros d.
      unfold cooling. cbn [snd advance withCooldownUntil called now globalCooldownUntil].
      split; [lia|]. intros Hd. split; [lia|]. intros reply2 model2 prompt2.
      match goal with
      | |- network (safeGenerate _ _ _ ?v).2 = _ =>
          destruct (safeGenerate_open reply2 model2 prompt2 v) as (v0 & Hv0 & ->)
      end.
      * unfold cooling. cbn [advance withCooldownUntil called now globalCooldownUntil].
        lia.
      * destruct Hw0 as [-> | ->]; [|by left].
        by destruct Hconf as [Hai | Hkey]; [left | right].
      * assert (network v0
                = network w0 ++ [GenerateContent model prompt conciseInstruction])
          as Hnet by (by destruct Hv0 as [-> | ->]).
        destruct (outcome reply2) as [err2|text2]; [destruct (isQuotaError err2)|];
          by rw /= Hnet.
Qed.

(** C2, amended.  In the mode "gemini-2.5-flash", [sendMessageToBot] is a
    one-shot completion: it creates and uses no session.  In every other
    mode it is a turn in the session of that mode: an existing session is
    reused; without one, and with the client configured, a session is
    created with the mode as its model, one fixed system instruction (the
    same for every mode) and no further configuration, and recorded for the
    mode; whatever happens afterwards, every later call in that mode is a
    turn in the same session. *)
Theorem session_per_mode (reply : Reply) (message : str)
    (history : list Message) (mode : ChatMode) (w : World) :
  let w' := (sendMessageToBot reply message history mode w).2 in
  (mode = lit "gemini-2.5-flash" →
     chatInstances w' = chatInstances w ∧ chats w' = chats w
     ∧ (network w' = network w
        ∨ network w' = network w ++ [GenerateContent mode message conciseInstruction]))
  ∧ (mode ≠ lit "gemini-2.5-flash" →
     (∀ chat, chatInstances w !! mode = Some chat →
        chatInstances w' = chatInstances w ∧ chats w' = chats w
        ∧ network w' = network w ++ [SendMessage chat message])
     ∧ (chatInstances w !! mode = None → configured w →
          chatInstances w' = <[mode := length (chats w)]> (chatInstances w)
          ∧ chats w' = chats w ++ [mkChat mode scholarInstruction []]
          ∧ network w' = network w ++ [SendMessage (length (chats w)) message])
     ∧ (∀ chat session w'',
          chatInstances w' !! mode = Some chat → chats w' !! chat = Some session →
          rtc step w' w'' →
          ∀ reply2 message2 history2,
            let w3 := (sendMessageToBot reply2 message2 history2 mode w'').2 in
            chatInstances w3 !! mode = Some chat
            ∧ chats w3 !! chat = Some session
            ∧ chats w3 = chats w''
            ∧ network w3 = network w'' ++ [SendMessage chat message2])).
Proof.
  intros w'. split.
  - intros ->. subst w'. rw sendMessageToBot_flash.
    destruct (safeGenerate_frame reply (lit "gemini-2.5-flash") message w)
      as (Hi & Hc & _).
    assert (network (safeGenerate reply (lit "gemini-2.5-flash") message w).2
            = network w
            ∨ network (safeGenerate reply (lit "gemini-2.5-flash") message w).2
              = network w ++ [GenerateContent (lit "gemini-2.5-flash") message
                                conciseInstruction]) as Hn.
    { rw safeGenerate_eq. destruct (now w <? globalCooldownUntil w)%Z; [by left|].
      destruct (getAiInstance_cases w) as [[-> _] | [[-> _] | [-> _]]];
        [right | right | by left];
        (destruct (outcome reply) as [err|text]; [destruct (isQuotaError err)|]);
        done. }
    by destruct (safeGenerate _ _ _ w) as [[e|text] w1].
  - intros Hmode.
    assert (∀ reply0 message0 history0 chat v,
              chatInstances v !! mode = Some chat →
              let v' := (sendMessageToBot reply0 message0 history0 mode v).2 in
              chatInstances v' = chatInstances v ∧ chats v' = chats v
              ∧ network v' = network v ++ [SendMessage chat message0]) as Hreuse.
    { intros reply0 message0 history0 chat v Hchat.
      rw (sendMessageToBot_chat _ _ _ _ _ Hmode).
      destruct (getChat_cases mode v)
        as [(chat' & Hchat' & ->) | [(Hnone & _) | (Hnone & _)]]; [|congruence..].
      rw Hchat in Hchat'. by injection Hchat' as <-. }
    split_and!.
    + intros chat Hchat. by apply Hreuse.
    + intros Hnone Hconf. subst w'. rw (sendMessageToBot_chat _ _ _ _ _ Hmode).
      destruct (getChat_cases mode w)
        as [(chat' & Hchat' & _) | [(_ & _ & w0 & Hw0 & ->) | (_ & Hn & _)]];
        [congruence | | done].
      by destruct Hw0 as [-> | ->].
    + intros chat session w'' Hchat Hsession Hsteps reply2 message2 history2.
      destruct (steps_extends _ _ Hsteps) as (Hi & Hc & _).
      specialize (Hi _ _ Hchat).
      destruct (Hreuse reply2 message2 history2 chat w'' Hi) as (Hi3 & Hc3 & Hn3).
      cbv zeta. rw Hi3 Hc3. split_and!; [done | | done | done].
      by eapply prefix_lookup_Some.
Qed.

(** C3.  Once [getVerseAnalysis] has returned a text for a reference and
    an analysis kind, every later call with the same reference and kind,
    whatever happened in between and whether or not the cooldown is
    active, returns that same text and leaves the world as it is: no call
    to the remote service is made. *)
Theorem analysis_cache_hit (reply reply' : Reply) (verseRef : VerseReference)
    (analysisType : AnalysisType) (text : str) (w w1 w2 : World) :
  getVerseAnalysis reply verseRef analysisType w = (inr text, w1) →
  rtc step w1 w2 →
  getVerseAnalysis reply' verseRef analysisType w2 = (inr text, w2).
Proof.
  intros Hfirst Hsteps.
  assert (verseCache w1 !! cacheKey verseRef analysisType = Some text) as Hcached.
  { destruct (verseCache w !! cacheKey verseRef analysisType) as [t|] eqn:Hkey.
    - rw (getVerseAnalysis_hit _ _ _ _ _ Hkey) in Hfirst. by simplify_eq.
    - rw (getVerseAnalysis_miss _ _ _ _ Hkey) in Hfirst.
      destruct (safeGenerate _ _ _ w) as [[e|t] w0]; [done|]. simplify_eq.
      apply lookup_insert_eq. }
  destruct (steps_extends _ _ Hsteps) as (_ & _ & Hv).
  by apply getVerseAnalysis_hit, Hv.
Qed.

End GatewayFacts.

Section GatewayScenarios.

Import GeminiService Scenario.

(** C1, as stated, fails during a cooldown: the keyword search returns
    the empty string instead of failing with the cooldown error, and a
    conversation in a mode other than "gemini-2.5-flash" calls the remote
    service. *)
Lemma cooldown_gate_counterexample :
  cooling coolingWorld
  ∧ searchBibleByKeyword replyHello (lit "faith") coolingWorld
    = (inr [], coolingWorld)
  ∧ (sendMessageToBot replyHello (lit "hi") [] (lit "gemini-2.5-flash-lite")
       coolingWorld).1
    = inr (mkBotReply (lit "hello") [])
  ∧ network (sendMessageToBot replyHello (lit "hi") [] (lit "gemini-2.5-flash-lite")
               coolingWorld).2
    = [SendMessage 0 (lit "hi")].
Proof. split_and!; reflexivity. Qed.

Lemma cooldown_gate_witness :
  (safeGenerate replyHello (lit "gemini-2.5-flash-lite") (lit "p") coolingWorld
   = (inl (error (cooldownMessage 60)), coolingWorld)
   ∧ searchBibleByKeyword replyHello (lit "faith") coolingWorld
     = (inr [], coolingWorld))
  ∧ (network (safeGenerate replyQuota (lit "gemini-2.5-flash-lite") (lit "p")
                openWorld).2
     = [GenerateContent (lit "gemini-2.5-flash-lite") (lit "p") conciseInstruction]
     ∧ globalCooldownUntil
         (safeGenerate replyQuota (lit "gemini-2.5-flash-lite") (lit "p") openWorld).2
       = 61005%Z).
Proof.
  split.
  - destruct (cooldown_gate replyHello coolingWorld) as [Hcooling _].
    destruct Hcooling as (_ & Hgen & _ & Hsearch & _); [reflexivity|].
    split; [apply Hgen | apply Hsearch].
  - destruct (cooldown_gate replyQuota openWorld) as [_ Hopen].
    destruct (Hopen ltac:(unfold cooling; simpl; lia)
                    ltac:(right; by eexists _, _)
                    (lit "gemini-2.5-flash-lite") (lit "p"))
      as (Hnet & Hnow & _ & Hquota).
    split; [exact Hnet|].
    destruct (Hquota _ eq_refl eq_refl) as (_ & Huntil & _).
    by rw Huntil Hnow.
Defined.

(** C2, as stated, fails: a conversation in the mode "gemini-2.5-flash"
    is served without any session, and the sessions of two different
    modes get the same system instruction. *)
Lemma session_per_mode_counterexample :
  (let w := (sendMessageToBot replyHello (lit "hi") [] (lit "gemini-2.5-flash")
               openWorld).2 in
   chatInstances w = ∅ ∧ chats w = []
   ∧ network w = [GenerateContent (lit "gemini-2.5-flash") (lit "hi")
                    conciseInstruction])
  ∧ (let w1 := (sendMessageToBot replyHello (lit "hi") [] (lit "gemini-2.5-pro")
                  openWorld).2 in
     let w2 := (sendMessageToBot replyHello (lit "hi") []
                  (lit "gemini-2.5-flash-lite") w1).2 in
     chats w2 = [mkChat (lit "gemini-2.5-pro") scholarInstruction [];
                 mkChat (lit "gemini-2.5-flash-lite") scholarInstruction []]).
Proof. cbv zeta. split_and!; reflexivity. Qed.

Lemma session_per_mode_witness :
  let w1 := (sendMessageToBot replyHello (lit "one") [] (lit "gemini-2.5-pro")
               openWorld).2 in
  let w2 := (safeGenerate replyQuota (lit "gemini-2.5-flash-lite") (lit "p") w1).2 in
  let w3 := (sendMessageToBot replyHello (lit "two") [] (lit "gemini-2.5-pro") w2).2 in
  chats w1 = [mkChat (lit "gemini-2.5-pro") scholarInstruction []]
  ∧ network w1 = [SendMessage 0 (lit "one")]
  ∧ chatInstances w3 !! lit "gemini-2.5-pro" = Some 0
  ∧ chats w3 = chats w1
  ∧ network w3 = network w2 ++ [SendMessage 0 (lit "two")].
Proof.
  intros w1 w2 w3.
  destruct (session_per_mode replyHello (lit "one") [] (lit "gemini-2.5-pro")
              openWorld) as [_ Hchat].
  destruct Hchat as (_ & Hcreate & Hlater); [done|].
  destruct Hcreate as (_ & Hchats & Hnet);
    [reflexivity | right; by eexists _, _ |].
  destruct (Hlater 0 (mkChat (lit "gemini-2.5-pro") scholarInstruction []) w2
              eq_refl eq_refl
              (rtc_once _ _ (step_safeGenerate replyQuota
                               (lit "gemini-2.5-flash-lite") (lit "p") w1))
              replyHello (lit "two") [])
    as (Hmode & _ & Hsame & Hnet3).
  split_and!; [exact Hchats | exact Hnet | exact Hmode | exact Hsame | exact Hnet3].
Defined.

Lemma analysis_cache_hit_witness :
  let w1 := (getVerseAnalysis replyHello john316Ref HistoricalContext openWorld).2 in
  let w2 := (safeGenerate replyQuota (lit "gemini-2.5-flash-lite") (lit "p") w1).2 in
  cooling w2
  ∧ getVerseAnalysis replyQuota john316Ref HistoricalContext w2
    = (inr (lit "hello"), w2).
Proof.
  intros w1 w2. split; [reflexivity|].
  apply (analysis_cache_hit replyHello replyQuota john316Ref HistoricalContext
           (lit "hello") openWorld w1 w2).
  - reflexivity.
  - apply rtc_once.
    exact (step_safeGenerate replyQuota (lit "gemini-2.5-flash-lite") (lit "p") w1).
Defined.

End GatewayScenarios.

(** ** The book matcher *)

Section BookFacts.

Import BibleService.

Variable chapterVerseCounts : str → list nat.

Local Abbreviation BIBLE_META := (BibleService.BIBLE_META chapterVerseCounts).
Local Abbreviation findBookMetadata := (BibleService.findBookMetadata chapterVerseCounts).
Local Abbreviation bookEntry := (Notions.bookEntry chapterVerseCounts).

Lemma BIBLE_META_entries : BIBLE_META = bookEntry <$> bookNames.
Proof.
  unfold BibleService.BIBLE_META, BIBLE_META_WITH_VERSE_COUNTS, bookNames.
  rw -!list_fmap_compose. apply list_fmap_ext. by intros _ [n a] _.
Qed.

Lemma bookNames_NoDup : NoDup bookNames.
Proof. apply (bool_decide_unpack _). by vm_compute. Qed.

Lemma elem_of_BIBLE_META (m : BookMeta) :
  m ∈ BIBLE_META ↔ ∃ n, n ∈ bookNames ∧ m = bookEntry n.
Proof.
  rw BIBLE_META_entries list_elem_of_fmap. split; intros (n & H1 & H2); by eauto.
Qed.

(** Searching a list of distinct keys for a key finds its entry. *)
Lemma find_entry {A} (f : str → A) (key : A → str) (names : list str) (n : str) :
  (∀ x, key (f x) = x) → n ∈ names →
  List.find (λ b, strEq (key b) n) (f <$> names) = Some (f n).
Proof.
  intros Hkey. induction names as [|x names IH]; [by intros ?%elem_of_nil|].
  intros Hn. simpl. unfold strEq at 1. rw Hkey. case_bool_decide as Hx; [by subst|].
  apply IH. by apply elem_of_cons in Hn as [-> | Hn].
Qed.

Lemma find_by_name (n : str) :
  n ∈ bookNames →
  List.find (λ b, strEq (name b) n) BIBLE_META = Some (bookEntry n).
Proof. intros Hn. rw BIBLE_META_entries. by apply find_entry. Qed.

Lemma find_Some_elem {A} (p : A → bool) (l : list A) (x : A) :
  List.find p l = Some x → x ∈ l ∧ p x = true.
Proof. intros [Hin Hp]%find_some. by rw list_elem_of_In. Qed.

Lemma find_None_elem {A} (p : A → bool) (l : list A) (x : A) :
  List.find p l = None → x ∈ l → p x = false.
Proof. intros H Hin. apply (find_none _ _ H). by rw -list_elem_of_In. Qed.

(** Every abbreviation, with or without its white space, is a key of
    [abbreviationToBookName] for its own book. *)
Lemma abbreviation_keys :
  Forall (λ '(n, a),
            abbreviationToBookName !! removeSpaces (toLowerCase a) = Some n
            ∧ abbreviationToBookName !! toLowerCase a = Some n)
         bookNameToAbbreviation.
Proof. apply (bool_decide_unpack _). by vm_compute. Qed.

(** The values of [abbreviationToBookName] are canonical names. *)
Lemma abbreviation_values (k n : str) :
  abbreviationToBookName !! k = Some n → n ∈ bookNames.
Proof.
  assert (map_Forall (λ _ n, n ∈ bookNames) abbreviationToBookName) as H.
  { apply (bool_decide_unpack _). by vm_compute. }
  apply H.
Qed.

(** No canonical name, lower-cased and without its white space, is the
    abbreviation of another book. *)
Lemma name_abbreviation_agree :
  Forall (λ '(n, a),
            Forall (λ n', removeSpaces (toLowerCase n') = removeSpaces (toLowerCase a)
                          → n' = n) bookNames)
         bookNameToAbbreviation.
Proof. apply (bool_decide_unpack _). by vm_compute. Qed.

Lemma strEq_true (a b : str) : strEq a b = true ↔ a = b.
Proof. unfold strEq. by rw bool_decide_eq_true. Qed.

Lemma findBookMetadata_abbreviation (n a q : str) :
  (n, a) ∈ bookNameToAbbreviation →
  removeSpaces (toLowerCase (trim q)) = removeSpaces (toLowerCase a) →
  findBookMetadata q = Some (bookEntry n).
Proof.
  intros Hin Hq. unfold BibleService.findBookMetadata.
  assert (n ∈ bookNames) as Hn.
  { apply list_elem_of_fmap. by exists (n, a). }
  destruct (List.find _ BIBLE_META) as [m|] eqn:Hfind.
  - apply find_Some_elem in Hfind as [Hm Heq]. apply strEq_true in Heq.
    apply elem_of_BIBLE_META in Hm as (n' & Hn' & ->). f_equal. f_equal.
    pose proof name_abbreviation_agree as Hagree.
    rw Forall_forall in Hagree. specialize (Hagree _ Hin). simpl in Hagree.
    rw Forall_forall in Hagree. apply (Hagree n' Hn').
    simpl in Heq. by rw Heq.
  - pose proof abbreviation_keys as Hkeys.
    rw Forall_forall in Hkeys. destruct (Hkeys _ Hin) as [Hkey _].
    rw Hq Hkey. cbn [mbind option_bind]. by rw find_by_name.
Qed.

(** What [findBookMetadata] returns is an entry of the table that one of
    the four rules designates. *)
Lemma findBookMetadata_justified (q : str) (m : BookMeta) :
  findBookMetadata q = Some m →
  m ∈ BIBLE_META ∧ ∃ r, justifies r (toLowerCase (trim q)) (name m).
Proof.
  unfold BibleService.findBookMetadata.
  destruct (List.find _ BIBLE_META) as [m1|] eqn:Hname.
  { intros [= <-]. apply find_Some_elem in Hname as [Hm Heq].
    split; [done|]. exists ByName. by apply strEq_true in Heq. }
  destruct (_ ≫= _) as [m2|] eqn:Habbr.
  { intros [= <-].
    assert (∃ n, (abbreviationToBookName !! removeSpaces (toLowerCase (trim q)) = Some n
                  ∨ abbreviationToBookName !! toLowerCase (trim q) = Some n)
                 ∧ List.find (λ b, strEq (name b) n) BIBLE_META = Some m2)
      as (n & Hkey & Hfind).
    { destruct (abbreviationToBookName !! removeSpaces _) as [n|] eqn:H1.
      - exists n. by split; [left|].
      - destruct (abbreviationToBookName !! toLowerCase _) as [n|] eqn:H2; [|done].
        exists n. by split; [right|]. }
    apply find_Some_elem in Hfind as [Hm Heq]. apply strEq_true in Heq.
    split; [done|]. exists ByAbbreviation. by rw /= Heq. }
  destruct (strEq (toLowerCase (trim q)) _) eqn:Halias.
  { intros Hfind. apply find_Some_elem in Hfind as [Hm Heq].
    apply strEq_true in Halias, Heq. split; [exact Hm|].
    exists ByAlias. split; [exact Halias | exact Heq]. }
  intros Hfind. apply find_Some_elem in Hfind as [Hm Heq].
  split; [done|]. by exists ByPrefix.
Qed.

(** When [findBookMetadata] returns nothing, no rule designates any
    book. *)
Lemma findBookMetadata_exhaustive (q n : str) (r : rule) :
  findBookMetadata q = None → n ∈ bookNames →
  ¬ justifies r (toLowerCase (trim q)) n.
Proof.
  unfold BibleService.findBookMetadata. intros Hnone Hn.
  assert (bookEntry n ∈ BIBLE_META) as Hentry.
  { apply elem_of_BIBLE_META. by eauto. }
  destruct (List.find _ BIBLE_META) as [m1|] eqn:Hname; [done|].
  destruct (_ ≫= _) as [m2|] eqn:Habbr; [done|].
  assert (∀ k n', abbreviationToBookName !! k = Some n' →
                  List.find (λ b, strEq (name b) n') BIBLE_META ≠ None) as Hvalue.
  { intros k n' Hk. by rw (find_by_name n' (abbreviation_values _ _ Hk)). }
  destruct r; simpl.
  - intros Heq. apply (find_None_elem _ _ _ Hname) in Hentry.
    simpl in Hentry. rw Heq in Hentry. unfold strEq in Hentry.
    by rw bool_decide_eq_true_2 in Hentry.
  - intros Hkey.
    destruct (abbreviationToBookName !! removeSpaces _) as [n1|] eqn:H1.
    + by apply (Hvalue _ _ H1).
    + destruct Hkey as [? | H2]; [done|]. rw H2 in Habbr. by apply (Hvalue _ _ H2).
  - intros [Hq _].
    rw (proj2 (strEq_true _ _) Hq) (find_by_name (lit "Song of Solomon")) in Hnone;
      [|done].
    apply (bool_decide_unpack _). by vm_compute.
  - intros Hprefix. destruct (strEq (toLowerCase (trim q)) _) eqn:Halias.
    + rw (find_by_name (lit "Song of Solomon")) in Hnone; [|done].
      apply (bool_decide_unpack _). by vm_compute.
    + apply (find_None_elem _ _ _ Hnone) in Hentry. simpl in Hentry. congruence.
Qed.

(** C7.  [findBookMetadata] resolves an abbreviation whatever its case and
    whatever white space it holds: every query that, trimmed, lower-cased
    and without its white space, is an abbreviation of the table treated
    likewise, resolves to the book of that abbreviation; so "1Sam", "1 sam"
    and "1 Samuel" all resolve to 1 Samuel.  A result always is the entry
    of a book that the exact-name, abbreviation, alias or prefix rule
    designates, and there is no result only when no rule designates any
    book: the edit distance plays no part, and a query at distance 1 from a
    name stays unresolved. *)
Theorem resolve_abbreviations :
  (∀ n a q,
     (n, a) ∈ bookNameToAbbreviation →
     removeSpaces (toLowerCase (trim q)) = removeSpaces (toLowerCase a) →
     findBookMetadata q = Some (bookEntry n))
  ∧ findBookMetadata (lit "1Sam") = Some (bookEntry (lit "1 Samuel"))
  ∧ findBookMetadata (lit "1 sam") = Some (bookEntry (lit "1 Samuel"))
  ∧ findBookMetadata (lit "1 Samuel") = Some (bookEntry (lit "1 Samuel"))
  ∧ (∀ q m,
       findBookMetadata q = Some m →
       m ∈ BIBLE_META ∧ ∃ r, justifies r (toLowerCase (trim q)) (name m))
  ∧ (∀ q n r,
       findBookMetadata q = None → n ∈ bookNames →
       ¬ justifies r (toLowerCase (trim q)) n)
  ∧ (findBookMetadata (lit "Jhn") = None
     ∧ levenshtein (toLowerCase (lit "Jhn")) (toLowerCase (lit "John")) = 1).
Proof.
  split_and!.
  - apply findBookMetadata_abbreviation.
  - reflexivity.
  - reflexivity.
  - reflexivity.
  - apply findBookMetadata_justified.
  - apply findBookMetadata_exhaustive.
  - reflexivity.
  - reflexivity.
Qed.

End BookFacts.

Section BookScenarios.

Import BibleService Scenario.

Lemma resolve_abbreviations_witness :
  findBookMetadata noCounts (lit "  1 S A m ") = Some (bookEntry noCounts (lit "1 Samuel"))
  ∧ (∃ r, justifies r (lit "son") (lit "Song of Solomon"))
  ∧ ¬ justifies ByPrefix (lit "jhn") (lit "John").
Proof.
  destruct (resolve_abbreviations noCounts) as (Habbr & _ & _ & _ & Hsound & Hnone & _).
  split_and!.
  - apply (Habbr (lit "1 Samuel") (lit "1 Sam") (lit "  1 S A m ")); [|reflexivity].
    by apply (list_elem_of_lookup_2 _ 8).
  - destruct (Hsound (lit "Son") (bookEntry noCounts (lit "Song of Solomon")) eq_refl)
      as [_ Hrule].
    exact Hrule.
  - apply (Hnone (lit "Jhn") (lit "John") ByPrefix eq_refl).
    by apply (list_elem_of_lookup_2 _ 42).
Defined.

End BookScenarios.

(** ** The reference parser *)

Section RegexFacts.

Import App.

Lemma star_sound {A} (p : ascii → bool) (s : str) (k : str → option A) (a : A) :
  star p s k = Some a → ∃ s', k s' = Some a.
Proof.
  induction s as [|c s IH]; simpl; [by eauto|].
  destruct (p c); [|by eauto].
  destruct (star p s k) as [a'|] eqn:E; [|by eauto].
  intros [= ->]. by apply IH.
Qed.

Lemma plus_sound {A} (p : ascii → bool) (s : str) (k : str → option A) (a : A) :
  plus p s k = Some a → ∃ s', k s' = Some a.
Proof.
  destruct s as [|c s]; simpl; [done|]. destruct (p c); [|done].
  apply star_sound.
Qed.

(** A match defines every group outside an option and keeps the groups
    defined before. *)
Lemma run_sound (r : regex) :
  ∀ {A} (s : str) (c : captures) (k : str → captures → option A) (a : A),
    run r s c k = Some a →
    ∃ s' c', k s' c' = Some a
             ∧ (∀ i, i ∈ definite r → is_Some (c' !! i))
             ∧ (∀ i, is_Some (c !! i) → is_Some (c' !! i)).
Proof.
  induction r as [p | p | p | r1 IH1 r2 IH2 | r IH | i r IH]; intros A s c k a; simpl.
  - destruct s as [|x s]; [done|]. destruct (p x); [|done].
    intros H. exists s, c. split_and!; [done | by intros ? ?%elem_of_nil | done].
  - intros [s' H]%star_sound. exists s', c.
    split_and!; [done | by intros ? ?%elem_of_nil | done].
  - intros [s' H]%plus_sound. exists s', c.
    split_and!; [done | by intros ? ?%elem_of_nil | done].
  - intros (s1 & c1 & H1 & Hd1 & Hk1)%IH1.
    apply IH2 in H1 as (s2 & c2 & H2 & Hd2 & Hk2).
    exists s2, c2. split_and!; [done | | by eauto].
    intros i [Hi | Hi]%elem_of_app; by eauto.
  - destruct (run r s c k) as [a'|] eqn:E.
    + intros [= ->]. apply IH in E as (s' & c' & H & _ & Hk).
      exists s', c'. split_and!; [done | by intros ? ?%elem_of_nil | done].
    + intros H. exists s, c. split_and!; [done | by intros ? ?%elem_of_nil | done].
  - intros (s' & c' & H & Hd & Hk)%IH.
    eexists s', _. split_and!; [exact H | |].
    + intros j [-> | Hj]%elem_of_cons; [by rw lookup_insert_eq|].
      destruct (decide (i = j)) as [-> | Hij]; [by rw lookup_insert_eq|].
      rw lookup_insert_ne; [done|]. by apply Hd.
    + intros j Hj. destruct (decide (i = j)) as [-> | Hij]; [by rw lookup_insert_eq|].
      rw lookup_insert_ne; [done|]. by apply Hk.
Qed.

Lemma exec_sound (r : regex) (s : str) (m : captures) (i : nat) :
  exec r s = Some m → i ∈ definite r → is_Some (m !! i).
Proof.
  intros H Hi. induction s as [|x s IH]; simpl in H.
  - destruct (run r [] ∅ _) as [c|] eqn:E; [|done]. injection H as ->.
    apply run_sound in E as (s' & c' & [= ->] & Hd & _). by apply Hd.
  - destruct (run r (x :: s) ∅ _) as [c|] eqn:E; [|by apply IH].
    injection H as ->.
    apply run_sound in E as (s' & c' & [= ->] & Hd & _). by apply Hd.
Qed.

(** A match of [referenceRegex] defines the book token. *)
Lemma referenceRegex_book (s : str) (m : captures) :
  exec referenceRegex s = Some m → is_Some (m !! 1).
Proof. intros H. apply (exec_sound _ _ _ _ H). by left. Qed.

Lemma exec_here (r : regex) (s : str) (c : captures) :
  run r s ∅ matched = Some c → exec r s = Some c.
Proof. intros H. destruct s; simpl; fold matched; by rw H. Qed.

Lemma star_stops {A} (p : ascii → bool) (rest : str) (k : str → option A) :
  stops p rest → star p rest k = k rest.
Proof. destruct rest as [|c rest]; [done|]. simpl. by intros ->. Qed.

(** The longest run is tried first. *)
Lemma star_greedy {A} (p : ascii → bool) (run rest : str) (k : str → option A) (a : A) :
  Forall (λ c, p c = true) run → stops p rest → k rest = Some a →
  star p (run ++ rest) k = Some a.
Proof.
  intros Hrun Hrest Hk. induction Hrun as [|c run Hc _ IH]; simpl.
  - by rw star_stops.
  - by rw Hc IH.
Qed.

(** When nothing can follow the longest run, its last character is given
    back. *)
Lemma star_back {A} (p : ascii → bool) (run : str) (x : ascii) (rest : str)
    (k : str → option A) (a : A) :
  Forall (λ c, p c = true) run → p x = true → stops p rest →
  k rest = None → k (x :: rest) = Some a →
  star p (run ++ x :: rest) k = Some a.
Proof.
  intros Hrun Hx Hrest Hnone Hk. induction Hrun as [|c run Hc _ IH]; simpl.
  - by rw Hx (star_stops _ _ _ Hrest) Hnone.
  - by rw Hc IH.
Qed.

Lemma plus_greedy {A} (p : ascii → bool) (c : ascii) (run rest : str)
    (k : str → option A) (a : A) :
  p c = true → Forall (λ c, p c = true) run → stops p rest → k rest = Some a →
  plus p (c :: run ++ rest) k = Some a.
Proof. intros Hc Hrun Hrest Hk. simpl. rw Hc. by apply star_greedy. Qed.

Lemma plus_back {A} (p : ascii → bool) (c : ascii) (run : str) (x : ascii)
    (rest : str) (k : str → option A) (a : A) :
  p c = true → Forall (λ c, p c = true) run → p x = true → stops p rest →
  k rest = None → k (x :: rest) = Some a →
  plus p (c :: run ++ x :: rest) k = Some a.
Proof. intros Hc Hrun Hx Hrest Hnone Hk. simpl. rw Hc. by apply star_back. Qed.

Lemma take_prefix_length {A} (l r : list A) :
  take (length (l ++ r) - length r) (l ++ r) = l.
Proof.
  replace (length (l ++ r) - length r) with (length l) by (rw length_app; lia).
  apply take_app_length.
Qed.

End RegexFacts.

Section ParserFacts.

Import BibleService App.

Variable chapterVerseCounts : str → list nat.

Local Abbreviation findBookMetadata := (BibleService.findBookMetadata chapterVerseCounts).
Local Abbreviation parsePart := (App.parsePart chapterVerseCounts).
Local Abbreviation parseReferencesFromString :=
  (App.parseReferencesFromString chapterVerseCounts).
Local Abbreviation segmentReference := (Notions.segmentReference chapterVerseCounts).

(** One turn of the loop appends what the segment contributes; it never
    throws, because a match always defines the first group. *)
Lemma parsePart_eq (parsedReferences : list ParsedReference) (part : str) :
  parsePart parsedReferences part
  = inr (parsedReferences ++ option_list (segmentReference part)).
Proof.
  unfold App.parsePart, Notions.segmentReference. case_bool_decide as Hempty.
  - rw Hempty. change (exec referenceRegex []) with (@None captures).
    by rw /= app_nil_r.
  - destruct (exec referenceRegex (trim part)) as [m|] eqn:Hexec;
      cbn [mbind option_bind]; [|by rw /= app_nil_r].
    destruct (referenceRegex_book _ _ Hexec) as [g1 Hg1]. rw Hg1.
    cbn [mbind option_bind].
    destruct (findBookMetadata (trim g1)) as [bookMeta|];
      cbn [mbind option_bind option_list]; [done|by rw app_nil_r].
Qed.

Lemma parse_loop (parsedReferences : list ParsedReference) (parts : list str) :
  foldl (λ acc part,
           match acc with
           | inl e => inl e
           | inr parsedReferences => parsePart parsedReferences part
           end)
        (inr parsedReferences) parts
  = inr (parsedReferences ++ omap segmentReference parts).
Proof.
  revert parsedReferences. induction parts as [|part parts IH]; intros acc.
  - by rw /= app_nil_r.
  - cbn [foldl]. rw parsePart_eq IH -app_assoc. f_equal. f_equal.
    cbn [omap list_omap]. by destruct (segmentReference part).
Qed.

Lemma parseReferencesFromString_eq (refString : str) :
  parseReferencesFromString refString
  = inr (omap segmentReference (split isCommaOrSemicolon refString)).
Proof. unfold App.parseReferencesFromString. by rw parse_loop. Qed.

Lemma split_nonempty (p : ascii → bool) (s : str) : split p s ≠ [].
Proof.
  induction s as [|c s IH]; simpl; [done|].
  destruct (p c); [done|]. by destruct (split p s).
Qed.

(** The segments of a list are the segments of its two parts. *)
Lemma split_app (p : ascii → bool) (s1 : str) (sep : ascii) (s2 : str) :
  p sep = true → split p (s1 ++ sep :: s2) = split p s1 ++ split p s2.
Proof.
  intros Hsep. induction s1 as [|c s1 IH]; simpl.
  - by rw Hsep.
  - destruct (p c); [by rw IH|]. rw IH.
    pose proof (split_nonempty p s1). by destruct (split p s1).
Qed.

(** A string without separator is one segment. *)
Lemma split_single (p : ascii → bool) (s : str) :
  Forall (λ c, p c = false) s → split p s = [s].
Proof. induction 1 as [|c s Hc _ IH]; simpl; [done|]. by rw Hc IH. Qed.

Lemma parse_app (s1 : str) (sep : ascii) (s2 : str)
    (refs1 refs2 : list ParsedReference) :
  isCommaOrSemicolon sep = true →
  parseReferencesFromString s1 = inr refs1 →
  parseReferencesFromString s2 = inr refs2 →
  parseReferencesFromString (s1 ++ sep :: s2) = inr (refs1 ++ refs2).
Proof.
  rw !parseReferencesFromString_eq. intros Hsep [= <-] [= <-].
  by rw (split_app _ _ _ _ Hsep) omap_app.
Qed.

(** C8.  [parseReferencesFromString] never throws: on every input it
    returns the references of the segments between commas and semicolons,
    each segment contributing its reference or, when the pattern does not
    match it or its book token does not resolve, nothing.  The result
    follows the order of the segments and keeps duplicates: the references
    of two strings joined by a separator are those of the first followed by
    those of the second. *)
Theorem parse_total_in_order :
  (∀ refString,
     parseReferencesFromString refString
     = inr (omap segmentReference (split isCommaOrSemicolon refString)))
  ∧ (∀ part,
       segmentReference part = None
       ↔ exec referenceRegex (trim part) = None
         ∨ ∃ m g1, exec referenceRegex (trim part) = Some m ∧ m !! 1 = Some g1
                   ∧ findBookMetadata (trim g1) = None)
  ∧ (∀ s1 sep s2 refs1 refs2,
       isCommaOrSemicolon sep = true →
       parseReferencesFromString s1 = inr refs1 →
       parseReferencesFromString s2 = inr refs2 →
       parseReferencesFromString (s1 ++ sep :: s2) = inr (refs1 ++ refs2))
  ∧ parseReferencesFromString (lit "John 3:16, Romans 8:28")
    = inr [mkParsedReference (lit "John") (Num 3) (Num 16) None;
           mkParsedReference (lit "Romans") (Num 8) (Num 28) None]
  ∧ parseReferencesFromString (lit "not a ref") = inr []
  ∧ parseReferencesFromString (lit "John 3:16; John 3:16")
    = inr [mkParsedReference (lit "John") (Num 3) (Num 16) None;
           mkParsedReference (lit "John") (Num 3) (Num 16) None].
Proof.
  split_and!.
  - apply parseReferencesFromString_eq.
  - intros part. unfold Notions.segmentReference.
    destruct (exec referenceRegex (trim part)) as [m|] eqn:Hexec;
      cbn [mbind option_bind]; [|by split; [left|]].
    destruct (referenceRegex_book _ _ Hexec) as [g1 Hg1]. rw Hg1.
    cbn [mbind option_bind].
    destruct (findBookMetadata (trim g1)) as [bookMeta|] eqn:Hbook;
      cbn [mbind option_bind].
    + split; [done|]. intros [? | (m' & g1' & ? & ? & ?)]; [done|].
      simplify_eq.
    + split; [|done]. intros _. right. by exists m, g1.
  - apply parse_app.
  - reflexivity.
  - reflexivity.
  - reflexivity.
Qed.

Ltac by_character c :=
  destruct c as [[] [] [] [] [] [] [] []]; vm_compute; try done.

Lemma alpha_class (c : ascii) :
  isAlpha c = true →
  isAlphaOrSpace c = true ∧ isDigit c = false ∧ isSpace c = false
  ∧ isCommaOrSemicolon c = false.
Proof. by_character c. Qed.

Lemma digit_class (c : ascii) :
  isDigit c = true →
  isSpace c = false ∧ isAlpha c = false ∧ isAlphaOrSpace c = false
  ∧ isCommaOrSemicolon c = false
  ∧ c ≠ "-"%char ∧ c ≠ "+"%char ∧ c ≠ ":"%char.
Proof. by_character c. Qed.

Lemma space_class (c : ascii) :
  isSpace c = true →
  isAlphaOrSpace c = true ∧ isDigit c = false ∧ isAlpha c = false
  ∧ isCommaOrSemicolon c = false.
Proof. by_character c. Qed.

(** Lower-casing moves no character into or out of a class. *)
Lemma lowerChar_class (c : ascii) :
  isDigit (lowerChar c) = isDigit c ∧ isAlpha (lowerChar c) = isAlpha c
  ∧ isSpace (lowerChar c) = isSpace c.
Proof. by_character c. Qed.

Lemma alphaOrSpace_cases (c : ascii) :
  isAlphaOrSpace c = true → isAlpha c = true ∨ isSpace c = true.
Proof. unfold isAlphaOrSpace. by intros [?|?]%orb_true_iff; [left | right]. Qed.

Lemma findBookMetadata_trim (q : str) :
  findBookMetadata (trim q) = findBookMetadata q.
Proof. unfold BibleService.findBookMetadata. by rw trim_idemp. Qed.

Lemma trim_stops (q : str) : stops isSpace (trim q).
Proof.
  unfold trim.
  destruct (trimStart_split q) as (_ & _ & _ & [-> | (c & t & -> & Hc)]); [done|].
  by destruct (trimEnd_head c t Hc) as [u ->].
Qed.

Lemma bookShape_spec (b : str) :
  bookShape b = true
  ↔ match b with
    | [] => True
    | c :: t => (isDigit c = true ∨ isAlphaOrSpace c = true)
                ∧ Forall (λ x, isAlphaOrSpace x = true) t
    end.
Proof.
  destruct b as [|c t]; [done|]. unfold bookShape.
  rw andb_true_iff orb_true_iff forallb_forall Forall_forall.
  by setoid_rewrite list_elem_of_In.
Qed.

Lemma bookShape_prefix (l1 l2 : str) :
  bookShape (l1 ++ l2) = true → bookShape l1 = true.
Proof.
  destruct l1 as [|c t]; [done|]. intros [Hc Ht]%bookShape_spec.
  apply (bookShape_spec (c :: t)). split; [done|].
  by apply Forall_app in Ht as [Ht _].
Qed.

Lemma bookShape_lower (b : str) : bookShape (toLowerCase b) = bookShape b.
Proof.
  assert (∀ c, isAlphaOrSpace (lowerChar c) = isAlphaOrSpace c) as Hclass.
  { intros c. unfold isAlphaOrSpace.
    destruct (lowerChar_class c) as (_ & -> & ->). done. }
  destruct b as [|c t]; [done|]. unfold bookShape, toLowerCase. cbn [fmap list_fmap].
  rw Hclass. destruct (lowerChar_class c) as (-> & _). f_equal.
  induction t as [|x t IH]; [done|]. by rw /= Hclass IH.
Qed.

Lemma startsWith_app (s p : str) : startsWith s p = true → ∃ r, s = p ++ r.
Proof.
  revert s. induction p as [|a p IH]; intros s; simpl; [by eauto|].
  destruct s as [|b s]; [done|].
  intros [Hab Hp]%andb_true_iff. apply bool_decide_eq_true in Hab as ->.
  destruct (IH _ Hp) as [r ->]. by exists r.
Qed.

(** White space put back between the characters of a book token, but not
    in front of it, keeps its shape. *)
Lemma bookShape_removeSpaces (s : str) :
  stops isSpace s → bookShape (removeSpaces s) = true → bookShape s = true.
Proof.
  assert (∀ t, Forall (λ x, isAlphaOrSpace x = true) (removeSpaces t) →
               Forall (λ x, isAlphaOrSpace x = true) t) as Hrest.
  { induction t as [|x t IH]; [done|]. unfold removeSpaces. rw filter_cons.
    destruct (decide (isSpace x = false)) as [Hx|Hx].
    - intros [Hx' Ht]%Forall_cons. by constructor; [|apply IH].
    - intros Ht. constructor; [|by apply IH].
      unfold isAlphaOrSpace. destruct (isSpace x); [by rw orb_true_r | done]. }
  destruct s as [|c t]; [done|]. simpl. intros Hc. unfold removeSpaces.
  rw filter_cons decide_True; [done|].
  intros [Hc' Ht]%bookShape_spec. apply (bookShape_spec (c :: t)).
  split; [done|]. by apply Hrest.
Qed.

Lemma names_shape : Forall (λ n, bookShape (toLowerCase n) = true) bookNames.
Proof. apply (bool_decide_unpack _). by vm_compute. Qed.

Lemma keys_shape : map_Forall (λ k _, bookShape k = true) abbreviationToBookName.
Proof. apply (bool_decide_unpack _). by vm_compute. Qed.

(** A query that resolves has, once trimmed, the shape of a book token. *)
Lemma resolved_shape (q : str) (m : BookMeta) :
  findBookMetadata q = Some m → bookShape (trim q) = true.
Proof.
  intros (Hm & r & Hr)%findBookMetadata_justified.
  apply elem_of_BIBLE_META in Hm as (n & Hn & ->). simpl in Hr.
  rw -bookShape_lower.
  pose proof names_shape as Hnames. rw Forall_forall in Hnames.
  specialize (Hnames n Hn). simpl in Hnames.
  assert (stops isSpace (toLowerCase (trim q))) as Hstops.
  { pose proof (trim_stops q) as H. destruct (trim q) as [|c t]; [done|].
    simpl in *. by destruct (lowerChar_class c) as (_ & _ & ->). }
  destruct r; simpl in Hr.
  - by rw -Hr.
  - destruct Hr as [Hkey | Hkey].
    + apply bookShape_removeSpaces; [done|]. exact (keys_shape _ _ Hkey).
    + exact (keys_shape _ _ Hkey).
  - destruct Hr as [-> _]. reflexivity.
  - apply startsWith_app in Hr as [rest Hrest]. rw Hrest in Hnames.
    by apply bookShape_prefix in Hnames.
Qed.

Lemma plus_first {A} (p : ascii → bool) (run rest : str) (k : str → option A) (a : A) :
  run ≠ [] → Forall (λ c, p c = true) run → stops p rest → k rest = Some a →
  plus p (run ++ rest) k = Some a.
Proof.
  destruct run as [|c run]; [done|]. intros _ [Hc Hrun]%Forall_cons.
  by apply plus_greedy.
Qed.

Lemma plus_second {A} (p : ascii → bool) (run : str) (x : ascii) (rest : str)
    (k : str → option A) (a : A) :
  run ≠ [] → Forall (λ c, p c = true) run → p x = true → stops p rest →
  k rest = None → k (x :: rest) = Some a →
  plus p (run ++ x :: rest) k = Some a.
Proof.
  destruct run as [|c run]; [done|]. intros _ [Hc Hrun]%Forall_cons.
  by apply plus_back.
Qed.

Lemma take_prefix {A} (l r t : list A) :
  t = l ++ r → take (length t - length r) t = l.
Proof. intros ->. apply take_prefix_length. Qed.

Lemma digits_head (ds : str) :
  ds ≠ [] → Forall (λ c, isDigit c = true) ds →
  ∃ d ds', ds = d :: ds' ∧ isDigit d = true.
Proof. destruct ds as [|d ds']; [done|]. intros _ [Hd _]%Forall_cons. by eauto. Qed.

(** The chapter part needs white space first. *)
Lemma chapterAndVerse_fails (d : ascii) (rest : str) (c : captures) :
  isDigit d = true → run chapterAndVerse (d :: rest) c matched = None.
Proof.
  intros Hd. unfold chapterAndVerse. cbn [run plus].
  by destruct (digit_class d Hd) as (-> & _).
Qed.

Lemma endVersePart_absent (c : captures) : run endVersePart [] c matched = Some c.
Proof. reflexivity. Qed.

Lemma endVersePart_present (W : str) (c : captures) :
  W ≠ [] → Forall (λ c, isDigit c = true) W →
  run endVersePart ("-"%char :: W) c matched = Some (<[5 := W]> c).
Proof.
  intros Hne HW. unfold endVersePart. cbn [run].
  change (isChar "-" "-") with true. cbv iota.
  rw -{1}(app_nil_r W) (plus_first isDigit W [] _ (<[5 := W]> c)); [done..| |done].
  unfold matched. do 2 f_equal. apply take_ge. simpl. lia.
Qed.

(** After one white space character: the chapter, the colon and the verse,
    each digit run taken whole. *)
Lemma chapterAndVerse_match (x : ascii) (C V tail : str) (c res : captures) :
  isSpace x = true →
  C ≠ [] → Forall (λ c, isDigit c = true) C →
  V ≠ [] → Forall (λ c, isDigit c = true) V →
  stops isDigit tail →
  run endVersePart tail (<[4 := V]> (<[3 := C]> c)) matched = Some res →
  run chapterAndVerse (x :: C ++ ":"%char :: V ++ tail) c matched = Some res.
Proof.
  intros Hx HC HCd HV HVd Htail Hend. unfold chapterAndVerse. cbn [run].
  apply (plus_first isSpace [x] (C ++ ":"%char :: V ++ tail)); [done | by constructor | |].
  { destruct (digits_head C HC HCd) as (d & C' & -> & Hd). simpl.
    by destruct (digit_class d Hd) as (-> & _). }
  apply plus_first; [done | done | done |].
  change (isChar ":" ":") with true. cbv iota.
  apply plus_first; [done | done | done |].
  by rw (take_prefix C (":"%char :: V ++ tail)) // (take_prefix V tail).
Qed.

(** White space, then a letter, inside a run of letters and white space
    that holds a letter. *)
Lemma first_letter (t : str) :
  Forall (λ c, isAlphaOrSpace c = true) t →
  (∃ a, a ∈ t ∧ isAlpha a = true) →
  ∃ sp a rest, t = sp ++ a :: rest
               ∧ Forall (λ c, isSpace c = true) sp
               ∧ isAlpha a = true
               ∧ Forall (λ c, isAlphaOrSpace c = true) rest.
Proof.
  induction 1 as [|c t Hc Ht IH]; intros (a & Ha & Halpha); [by apply elem_of_nil in Ha|].
  destruct (alphaOrSpace_cases c Hc) as [Hc' | Hc'].
  - by exists [], c, t.
  - destruct IH as (sp & b & rest & -> & Hsp & Hb & Hrest).
    { apply elem_of_cons in Ha as [-> | Ha]; [|by eauto].
      destruct (space_class c Hc') as (_ & _ & ? & _). congruence. }
    exists (c :: sp), b, rest. split_and!; [done | by constructor | done | done].
Qed.

Lemma token_form (B : str) :
  bookShape B = true → stops isSpace B → (∃ a, a ∈ B ∧ isAlpha a = true) →
  bookTokenForm B.
Proof.
  intros Hshape%bookShape_spec Hstops (a & Ha & Halpha).
  destruct B as [|c t]; [by apply elem_of_nil in Ha|].
  destruct Hshape as [Hc Ht]. simpl in Hstops.
  assert (isAlpha c = true ∨ isDigit c = true) as [Hc' | Hc'].
  { destruct Hc as [Hc | Hc]; [by right|].
    destruct (alphaOrSpace_cases c Hc); [by left | congruence]. }
  - by constructor.
  - destruct (first_letter t Ht) as (sp & b & rest & -> & Hsp & Hb & Hrest).
    { apply elem_of_cons in Ha as [-> | Ha]; [|by eauto].
      destruct (digit_class c Hc') as (_ & ? & _). congruence. }
    by constructor.
Qed.

(** The letters of a book token, with the white space that follows them,
    up to the last white space character before the chapter. *)
Lemma letters_match (t : str) (c1 : captures) (a : ascii) (L : str) (x : ascii)
    (rest : str) (res : captures) :
  isAlpha a = true → Forall (λ c, isAlphaOrSpace c = true) L →
  isSpace x = true →
  (∃ d rest', rest = d :: rest' ∧ isDigit d = true) →
  run chapterAndVerse (x :: rest)
      (<[1 := take (length t - length (x :: rest)) t]> c1) matched = Some res →
  plus isAlphaOrSpace (a :: L ++ x :: rest)
       (λ s', run chapterAndVerse s' (<[1 := take (length t - length s') t]> c1) matched)
  = Some res.
Proof.
  intros Ha HL Hx (d & rest' & -> & Hd) Hres.
  apply (plus_second isAlphaOrSpace (a :: L) x (d :: rest')); [done | | | | | done].
  - constructor; [|done]. by destruct (alpha_class a Ha) as (-> & _).
  - by destruct (space_class x Hx) as (-> & _).
  - simpl. by destruct (digit_class d Hd) as (_ & _ & -> & _).
  - by apply chapterAndVerse_fails.
Qed.

(** A book token, white space and the start of a chapter: the pattern
    matches at the first position, and its first group is the token with
    the white space but for its last character. *)
Lemma referenceRegex_match (B ws : str) (x : ascii) (rest : str) :
  bookTokenForm B → Forall (λ c, isSpace c = true) ws → isSpace x = true →
  (∃ d rest', rest = d :: rest' ∧ isDigit d = true) →
  ∃ c1 : captures,
    (∀ i, 3 ≤ i → c1 !! i = None)
    ∧ ∀ res,
        run chapterAndVerse (x :: rest) (<[1 := B ++ ws]> c1) matched = Some res →
        run referenceRegex (B ++ ws ++ x :: rest) ∅ matched = Some res.
Proof.
  intros HB Hws Hx Hrest.
  assert (Forall (λ c, isAlphaOrSpace c = true) ws) as Hws'.
  { eapply Forall_impl; [exact Hws|]. intros c Hc.
    by destruct (space_class c Hc) as (-> & _). }
  destruct HB as [a L Ha HL | d sp a L Hd Hsp Ha HL].
  - exists ∅. split; [by intros; apply lookup_empty|]. intros res Hres.
    unfold referenceRegex, bookToken. cbn [run app].
    destruct (alpha_class a Ha) as (_ & -> & _). cbv iota.
    rw (app_assoc L ws (x :: rest)).
    apply letters_match; [done | by apply Forall_app | done | done |].
    rw (take_prefix (a :: L ++ ws) (x :: rest)) //.
  - exists (<[2 := d :: sp]> ∅).
    split; [by intros i Hi; rw lookup_insert_ne; [lia | apply lookup_empty]|].
    intros res Hres. unfold referenceRegex, bookToken. cbn [run app].
    rw Hd. cbv iota.
    rw -(app_assoc sp (a :: L) (ws ++ x :: rest)).
    rw (star_greedy isSpace sp ((a :: L) ++ ws ++ x :: rest) _ res); [done | | | done].
    { simpl. by destruct (alpha_class a Ha) as (_ & _ & -> & _). }
    cbn [app]. rw (app_assoc L ws (x :: rest)).
    apply letters_match; [done | by apply Forall_app | done | done |].
    rw (take_prefix (d :: sp) (a :: (L ++ ws) ++ x :: rest)) //.
    rw (take_prefix ((d :: sp ++ a :: L) ++ ws) (x :: rest)).
    { by rw /= -!app_assoc. }
    done.
Qed.

Lemma takeDigits_all (ds : str) :
  Forall (λ c, isDigit c = true) ds → takeDigits ds = ds.
Proof. induction 1 as [|d ds Hd _ IH]; [done|]. by rw /= Hd IH. Qed.

(** [parseInt] reads a run of digits as its decimal value. *)
Lemma parseInt_digits (ds : str) :
  ds ≠ [] → Forall (λ c, isDigit c = true) ds →
  parseInt (Some ds) = Num (digitsValue ds).
Proof.
  intros Hne Hds. destruct (digits_head ds Hne Hds) as (d & ds' & -> & Hd).
  destruct (digit_class d Hd) as (Hspace & _ & _ & _ & Hminus & Hplus & _).
  unfold parseInt. rw (trimStart_fixed d ds' Hspace).
  rw !bool_decide_eq_false_2; [done..|].
  rw (takeDigits_all _ Hds). by rw Z.mul_1_l.
Qed.

Lemma digits_last (ds : str) :
  ds ≠ [] → Forall (λ c, isDigit c = true) ds →
  ∃ body z, ds = body ++ [z] ∧ isSpace z = false.
Proof.
  destruct ds as [|z body _] using rev_ind; [done|].
  intros _ [_ [Hz _]%Forall_cons]%Forall_app. exists body, z.
  by destruct (digit_class z Hz) as (-> & _).
Qed.

Lemma shape_no_separator (B : str) :
  bookShape B = true → Forall (λ c, isCommaOrSemicolon c = false) B.
Proof.
  assert (∀ c, isAlphaOrSpace c = true → isCommaOrSemicolon c = false) as Hclass.
  { intros c [Hc | Hc]%alphaOrSpace_cases.
    - by destruct (alpha_class c Hc) as (_ & _ & _ & ->).
    - by destruct (space_class c Hc) as (_ & _ & _ & ->). }
  intros Hshape%bookShape_spec. destruct B as [|c t]; [done|].
  destruct Hshape as [Hc Ht]. constructor.
  - destruct Hc as [Hc | Hc]; [|by apply Hclass].
    by destruct (digit_class c Hc) as (_ & _ & _ & -> & _).
  - eapply Forall_impl; [exact Ht | exact Hclass].
Qed.

Lemma digits_no_separator (ds : str) :
  Forall (λ c, isDigit c = true) ds → Forall (λ c, isCommaOrSemicolon c = false) ds.
Proof.
  intros H. eapply Forall_impl; [exact H|]. intros c Hc.
  by destruct (digit_class c Hc) as (_ & _ & _ & -> & _).
Qed.

Lemma spaces_no_separator (ws : str) :
  Forall (λ c, isSpace c = true) ws → Forall (λ c, isCommaOrSemicolon c = false) ws.
Proof.
  intros H. eapply Forall_impl; [exact H|]. intros c Hc.
  by destruct (space_class c Hc) as (_ & _ & _ & ->).
Qed.

(** The segment "Book C:V" followed by [tail], for a book token that
    resolves and holds a letter: it is a single segment, the pattern
    matches it at its first position, and the first group, trimmed, is the
    token. *)
Lemma reference_segment (Book C V tail : str) (bookMeta : BookMeta) :
  findBookMetadata Book = Some bookMeta →
  (∃ a, a ∈ Book ∧ isAlpha a = true) →
  C ≠ [] → Forall (λ c, isDigit c = true) C →
  V ≠ [] → Forall (λ c, isDigit c = true) V →
  stops isDigit tail →
  Forall (λ c, isCommaOrSemicolon c = false) tail →
  (∃ body z, V ++ tail = body ++ [z] ∧ isSpace z = false) →
  let refString := Book ++ " "%char :: C ++ ":"%char :: V ++ tail in
  split isCommaOrSemicolon refString = [refString]
  ∧ ∃ (c1 : captures) (g1 : str),
      (∀ i, 3 ≤ i → c1 !! i = None)
      ∧ findBookMetadata (trim g1) = Some bookMeta
      ∧ ∀ res,
          run endVersePart tail (<[4 := V]> (<[3 := C]> (<[1 := g1]> c1))) matched
          = Some res →
          exec referenceRegex (trim refString) = Some res.
Proof.
  intros Hbook (a & Ha & Halpha) HC HCd HV HVd Htail Hsep (body & z & Hlast & Hz).
  intros refString.
  pose proof (resolved_shape _ _ Hbook) as Hshape.
  destruct (trim_split Book) as (w1 & w2 & HBook & Hw1 & Hw2).
  assert (bookTokenForm (trim Book)) as Hform.
  { apply token_form; [done | apply trim_stops |]. exists a. split; [|done].
    rw HBook in Ha. apply elem_of_app in Ha as [Ha | [Ha | Ha]%elem_of_app]; [|done|].
    - rw Forall_forall in Hw1. destruct (alpha_class a Halpha) as (_ & _ & ? & _).
      specialize (Hw1 a Ha). congruence.
    - rw Forall_forall in Hw2. destruct (alpha_class a Halpha) as (_ & _ & ? & _).
      specialize (Hw2 a Ha). congruence. }
  split.
  - apply split_single. subst refString. rw HBook.
    repeat (apply Forall_app; split); [by apply spaces_no_separator
      | by apply shape_no_separator | by apply spaces_no_separator |].
    constructor; [done|]. apply Forall_app. split; [by apply digits_no_separator|].
    constructor; [done|]. apply Forall_app. by split; [apply digits_no_separator|].
  - assert (∃ b0 B', trim Book = b0 :: B' ∧ isSpace b0 = false) as (b0 & B' & HB & Hb0).
    { destruct Hform as [b0 L Hb0 _ | d sp b0 L Hd _ _ _].
      - exists b0, L. by destruct (alpha_class b0 Hb0) as (_ & _ & -> & _).
      - eexists d, _. by destruct (digit_class d Hd) as (-> & _). }
    assert (trim refString
            = trim Book ++ w2 ++ " "%char :: C ++ ":"%char :: V ++ tail) as Htrim.
    { subst refString. rw {1}HBook. unfold trim at 1.
      rw -!app_assoc (trimStart_spaces w1 _ Hw1) HB.
      cbn [app]. rw (trimStart_fixed _ _ Hb0) Hlast.
      replace (b0 :: B' ++ w2 ++ " "%char :: C ++ ":"%char :: body ++ [z])
        with ((b0 :: B' ++ w2 ++ " "%char :: C ++ ":"%char :: body) ++ [z])
        by (by rw /= -?app_assoc /= -?app_assoc /= -?app_assoc /=).
      by apply trimEnd_fixed. }
    destruct (referenceRegex_match (trim Book) w2 " "%char
                (C ++ ":"%char :: V ++ tail) Hform Hw2 eq_refl)
      as (c1 & Hc1 & Hmatch).
    { destruct (digits_head C HC HCd) as (d & C' & -> & Hd).
      eexists _, _. split; [reflexivity | exact Hd]. }
    exists c1, (trim Book ++ w2). split_and!; [done | |].
    + rw -Hbook -(findBookMetadata_trim Book). f_equal.
      rw {2}HBook. unfold trim. by rw (trimStart_spaces w1 _ Hw1).
    + intros res Hres. rw Htrim. apply exec_here, Hmatch.
      by apply chapterAndVerse_match.
Qed.

Lemma captures_lookup (c1 : captures) (g1 C V : str) :
  (∀ i, 3 ≤ i → c1 !! i = None) →
  let m := <[4 := V]> (<[3 := C]> (<[1 := g1]> c1)) in
  m !! 1 = Some g1 ∧ m !! 3 = Some C ∧ m !! 4 = Some V ∧ m !! 5 = None.
Proof.
  intros Hc1 m. subst m. split_and!.
  - by rw lookup_insert_ne // lookup_insert_ne // lookup_insert_eq.
  - by rw lookup_insert_ne // lookup_insert_eq.
  - by rw lookup_insert_eq.
  - rw lookup_insert_ne // lookup_insert_ne // lookup_insert_ne //.
    apply Hc1. lia.
Qed.


End ParserFacts.

Section ParserScenarios.

Import BibleService App Scenario.



Lemma parse_total_in_order_witness :
  parseReferencesFromString noCounts (lit "Gen 1:1;John 3:16")
  = inr [mkParsedReference (lit "Genesis") (Num 1) (Num 1) None;
         mkParsedReference (lit "John") (Num 3) (Num 16) None].
Proof.
  destruct (parse_total_in_order noCounts) as (_ & _ & Happ & _).
  exact (Happ (lit "Gen 1:1") ";"%char (lit "John 3:16")
              [mkParsedReference (lit "Genesis") (Num 1) (Num 1) None]
              [mkParsedReference (lit "John") (Num 3) (Num 16) None]
              eq_refl eq_refl eq_refl).
Defined.

End ParserScenarios.

(** * Further properties *)

(** ** The AI gateway: errors, log and cooldown *)

Section GatewayMore.

Import GeminiService.

(** What [safeGenerate] does to the clock, the cooldown, the log and the
    client handle. *)
Lemma safeGenerate_effect (reply : Reply) (model prompt : str) (w : World) :
  let w' := (safeGenerate reply model prompt w).2 in
  apiKey w' = apiKey w
  ∧ (now w ≤ now w')%Z
  ∧ (globalCooldownUntil w' = globalCooldownUntil w
     ∨ globalCooldownUntil w' = (now w' + 60000)%Z)
  ∧ (network w' = network w
     ∨ network w' = network w ++ [GenerateContent model prompt conciseInstruction])
  ∧ (ai w = true → ai w' = true).
Proof.
  rw safeGenerate_eq. destruct (now w <? globalCooldownUntil w)%Z.
  { split_and!; [done | done | by left | by left | done]. }
  destruct (getAiInstance_cases w) as [[-> _] | [[-> _] | [-> _]]]; simpl.
  - destruct (outcome reply) as [err|text]; [destruct (isQuotaError err)|]; simpl;
      (split_and!; [done | lia | by (left + right) | by right | done]).
  - destruct (outcome reply) as [err|text]; [destruct (isQuotaError err)|]; simpl;
      (split_and!; [done | lia | by (left + right) | by right | done]).
  - split_and!; [done | done | by left | by left | done].
Qed.

Lemma getChat_effect (mode : ChatMode) (w : World) :
  let w' := (getChat mode w).2 in
  apiKey w' = apiKey w ∧ now w' = now w
  ∧ globalCooldownUntil w' = globalCooldownUntil w
  ∧ network w' = network w.
Proof.
  destruct (getChat_cases mode w)
    as [(chat & _ & ->) | [(_ & _ & w0 & Hw0 & ->) | (_ & _ & ->)]]; [done | | done].
  by destruct Hw0 as [-> | ->].
Qed.

(** What a step does to the clock, the cooldown and the log. *)
Lemma step_effect (w w' : World) :
  step w w' →
  (now w ≤ now w')%Z
  ∧ (globalCooldownUntil w' = globalCooldownUntil w
     ∨ globalCooldownUntil w' = (now w' + 60000)%Z)
  ∧ atMostOneCall w w'.
Proof.
  assert (∀ model prompt v v',
            network v' = network v
            ∨ network v' = network v ++ [GenerateContent model prompt conciseInstruction] →
            atMostOneCall v v') as Hcall.
  { intros model prompt v v' [H | H]; [by left | right; by eauto]. }
  destruct 1 as [d w | reply model prompt w | reply message history mode w
                | reply verseRef analysisType w | reply keyword w].
  - split_and!; [simpl; lia | by left | by left].
  - destruct (safeGenerate_effect reply model prompt w) as (_ & Ht & Hc & Hn & _).
    split_and!; [done | done | by eapply Hcall].
  - destruct (decide (mode = lit "gemini-2.5-flash")) as [-> | Hmode].
    + rw sendMessageToBot_flash.
      destruct (safeGenerate_effect reply (lit "gemini-2.5-flash") message w)
        as (_ & Ht & Hc & Hn & _).
      destruct (safeGenerate _ _ _ w) as [[e|text] v]; simpl in *;
        (split_and!; [done | done | by eapply Hcall]).
    + rw (sendMessageToBot_chat _ _ _ _ _ Hmode).
      destruct (getChat_effect mode w) as (_ & Ht & Hc & Hn).
      destruct (getChat mode w) as [[e|chat] v]; simpl in *.
      * split_and!; [lia | by left | by left].
      * split_and!; [lia | by left |]. right. exists (SendMessage chat message).
        by rw /= Hn.
  - destruct (verseCache w !! cacheKey verseRef analysisType) as [text|] eqn:Hkey.
    + rw (getVerseAnalysis_hit _ _ _ _ _ Hkey). split_and!; [done | by left | by left].
    + rw (getVerseAnalysis_miss _ _ _ _ Hkey).
      destruct (safeGenerate_effect reply (lit "gemini-2.5-flash-lite")
                  (analysisPrompt verseRef analysisType) w) as (_ & Ht & Hc & Hn & _).
      destruct (safeGenerate _ _ _ w) as [[e|text] v]; simpl in *;
        (split_and!; [done | done | by eapply Hcall]).
  - rw searchBibleByKeyword_eq.
    destruct (safeGenerate_effect reply (lit "gemini-2.5-flash-lite")
                (keywordPrompt keyword) w) as (_ & Ht & Hc & Hn & _).
    destruct (safeGenerate _ _ _ w) as [[e|text] v]; simpl in *;
      (split_and!; [done | done | by eapply Hcall]).
Qed.

End GatewayMore.

Section GatewayErrors.

Import GeminiService Scenario GatewayScenario.

Lemma messageOr_nonempty (err : Error) : messageOr err (lit "AI error") ≠ [].
Proof. unfold messageOr. by destruct (errMessage err). Qed.

(** X1.  A failed [getVerseAnalysis] stores nothing: the cache is what it
    was, the key stays absent, and a later call with the cooldown over and
    the client configured asks the remote service again. *)
Theorem failed_analysis_not_cached (reply : Reply) (verseRef : VerseReference)
    (analysisType : AnalysisType) (e : Error) (w w' : World) :
  getVerseAnalysis reply verseRef analysisType w = (inl e, w') →
  verseCache w' = verseCache w
  ∧ verseCache w' !! cacheKey verseRef analysisType = None
  ∧ ∀ reply2, ¬ cooling w' → configured w' →
      network (getVerseAnalysis reply2 verseRef analysisType w').2
      = network w' ++ [GenerateContent (lit "gemini-2.5-flash-lite")
                         (analysisPrompt verseRef analysisType) conciseInstruction].
Proof.
  intros Hfail.
  destruct (verseCache w !! cacheKey verseRef analysisType) as [t|] eqn:Hkey.
  { by rw (getVerseAnalysis_hit _ _ _ _ _ Hkey) in Hfail. }
  rw (getVerseAnalysis_miss _ _ _ _ Hkey) in Hfail.
  destruct (safeGenerate_frame reply (lit "gemini-2.5-flash-lite")
              (analysisPrompt verseRef analysisType) w) as (_ & _ & Hv).
  destruct (safeGenerate _ _ _ w) as [[e'|t] v]; [|done].
  injection Hfail as -> ->. simpl in Hv.
  assert (verseCache w' !! cacheKey verseRef analysisType = None) as Hkey'
    by by rw Hv.
  split_and!; [done | done |]. intros reply2 Hc Hconf.
  rw (getVerseAnalysis_miss _ _ _ _ Hkey').
  destruct (safeGenerate_open reply2 (lit "gemini-2.5-flash-lite")
              (analysisPrompt verseRef analysisType) w' Hc Hconf) as (w0 & Hw0 & ->).
  assert (network w0 = network w') as Hn by (by destruct Hw0 as [-> | ->]).
  destruct (outcome reply2) as [err|text]; [destruct (isQuotaError err)|];
    by rw /= Hn.
Qed.

(** X2.  Without a credential the gateway reports it and calls nothing:
    outside a cooldown, [safeGenerate] and [getVerseAnalysis] on a cache
    miss throw the configuration error, [sendMessageToBot] answers with its
    message in the flash mode and in every mode that has no session yet,
    [searchBibleByKeyword] returns the empty string, and the world is left
    as it is. *)
Theorem missing_credential_reported (reply : Reply) (w : World) :
  ¬ configured w → ¬ cooling w →
  (∀ model prompt,
     safeGenerate reply model prompt w
     = (inl (ApiKeyError (lit "API key missing.")), w))
  ∧ (∀ verseRef analysisType,
       verseCache w !! cacheKey verseRef analysisType = None →
       getVerseAnalysis reply verseRef analysisType w
       = (inl (ApiKeyError (lit "API key missing.")), w))
  ∧ (∀ keyword, searchBibleByKeyword reply keyword w = (inr [], w))
  ∧ (∀ message history mode,
       mode = lit "gemini-2.5-flash" ∨ chatInstances w !! mode = None →
       sendMessageToBot reply message history mode w
       = (inr (mkBotReply (lit "API key missing.") []), w)).
Proof.
  intros Hconf Hc.
  assert (∀ model prompt,
            safeGenerate reply model prompt w
            = (inl (ApiKeyError (lit "API key missing.")), w)) as Hgen.
  { intros model prompt. rw safeGenerate_eq.
    rw (proj2 (Z.ltb_ge _ _)); [unfold cooling in Hc; lia|].
    by destruct (getAiInstance_cases w) as [[_ Hai] | [(_ & _ & Hkey) | [-> _]]];
      [destruct Hconf; left | destruct Hconf; right |]. }
  split_and!.
  - exact Hgen.
  - intros verseRef analysisType Hmiss.
    by rw (getVerseAnalysis_miss _ _ _ _ Hmiss) Hgen.
  - intros keyword. by rw searchBibleByKeyword_eq Hgen.
  - intros message history mode Hmode.
    destruct (decide (mode = lit "gemini-2.5-flash")) as [-> | Hne].
    + by rw sendMessageToBot_flash Hgen.
    + destruct Hmode as [? | Hnone]; [done|].
      rw (sendMessageToBot_chat _ _ _ _ _ Hne).
      destruct (getChat_cases mode w)
        as [(chat & Hchat & _) | [(_ & ? & _) | (_ & _ & ->)]]; [congruence | done | done].
Qed.

(** X3.  In a mode other than "gemini-2.5-flash", [sendMessageToBot] does
    not look at the cooldown and does not start one: the cooldown stays
    what it was whatever the reply, and, with a session or a configured
    client, the message is sent even during a cooldown and the reply, or the
    message of its error, is returned. *)
Theorem chat_modes_ignore_cooldown (reply : Reply) (message : str)
    (history : list Message) (mode : ChatMode) (w : World) :
  mode ≠ lit "gemini-2.5-flash" →
  let r := sendMessageToBot reply message history mode w in
  globalCooldownUntil r.2 = globalCooldownUntil w
  ∧ (configured w ∨ is_Some (chatInstances w !! mode) →
     (∃ chat, network r.2 = network w ++ [SendMessage chat message])
     ∧ r.1 = inr (mkBotReply (match outcome reply with
                              | inr text => text
                              | inl e => messageOr e (lit "AI error")
                              end) [])).
Proof.
  intros Hmode r. subst r. rw (sendMessageToBot_chat _ _ _ _ _ Hmode).
  destruct (getChat_effect mode w) as (_ & _ & Hc & Hn).
  destruct (getChat_cases mode w)
    as [(chat & Hchat & E) | [(Hnone & _ & w0 & Hw0 & E) | (Hnone & Hconf & E)]];
    rw E in Hc Hn |- *; simpl in *.
  - split; [done|]. intros _. by split; [exists chat|].
  - split; [done|]. intros _. split; [|done]. eexists. by rw Hn.
  - split; [done|]. intros [? | [chat Hchat]]; [done | congruence].
Qed.

(** X4.  The cooldown never reaches further than 60 seconds ahead: a
    world in which it does not keeps this through every step, the clock
    never goes back, and the seconds a cooldown error names lie between 1
    and 60. *)
Theorem cooldown_stays_bounded (w w' : World) :
  cooldownBounded w → rtc step w w' →
  cooldownBounded w'
  ∧ (now w ≤ now w')%Z
  ∧ (cooling w' →
     (1 ≤ ceilSeconds (globalCooldownUntil w' - now w') ≤ 60)%Z).
Proof.
  intros Hb Hsteps.
  assert (cooldownBounded w' ∧ (now w ≤ now w')%Z) as [Hb' Ht].
  { induction Hsteps as [w | w1 w2 w3 H12 _ IH]; [by split; [|lia]|].
    destruct (step_effect _ _ H12) as (Ht & Hc & _).
    destruct IH as [Hb3 Ht3].
    - unfold cooldownBounded in *. destruct Hc as [-> | ->]; lia.
    - split; [done | lia]. }
  split_and!; [done | done |]. intros Hc.
  unfold cooling, cooldownBounded in *.
  pose proof (ceilSeconds_bounds (globalCooldownUntil w' - now w')). lia.
Qed.

(** X5.  Each operation calls the remote service at most once, and no
    call is ever removed from the log. *)
Theorem one_call_per_operation (w w' : World) :
  (step w w' → atMostOneCall w w')
  ∧ (rtc step w w' → network w `prefix_of` network w').
Proof.
  split.
  - by intros (_ & _ & H)%step_effect.
  - induction 1 as [w | w1 w2 w3 H12 _ IH]; [done|].
    etrans; [|exact IH].
    destruct (step_effect _ _ H12) as (_ & _ & [-> | [req ->]]);
      [done | by apply prefix_app_r].
Qed.

(** X6.  [sendMessageToBot] never throws and carries no sources, and its
    reply text is empty only when the remote service answered with the
    empty text: an error always shows as its message, or as "AI error".
    [searchBibleByKeyword] never throws either. *)
Theorem converse_never_throws (reply : Reply) (w : World) :
  (∀ message history mode,
     ∃ text,
       (sendMessageToBot reply message history mode w).1 = inr (mkBotReply text [])
       ∧ (text = [] → outcome reply = inr []))
  ∧ (∀ keyword, ∃ text, (searchBibleByKeyword reply keyword w).1 = inr text).
Proof.
  split.
  - intros message history mode.
    destruct (decide (mode = lit "gemini-2.5-flash")) as [-> | Hmode].
    + rw sendMessageToBot_flash safeGenerate_eq.
      destruct (now w <? globalCooldownUntil w)%Z; simpl.
      { eexists. split; [done|]. by intros ?%messageOr_nonempty. }
      destruct (getAiInstance_cases w) as [[-> _] | [[-> _] | [-> _]]]; simpl;
        [| |by eexists; split; [|intros ?%messageOr_nonempty]];
        (destruct (outcome reply) as [err|text]; [destruct (isQuotaError err)|]);
        simpl; eexists; (split; [done|]);
        first [by intros -> | by intros ?%messageOr_nonempty].
    + rw (sendMessageToBot_chat _ _ _ _ _ Hmode).
      destruct (getChat mode w) as [[e|chat] v]; simpl.
      * eexists. split; [done|]. by intros ?%messageOr_nonempty.
      * eexists. split; [done|].
        destruct (outcome reply) as [err|text];
          [by intros ?%messageOr_nonempty | by intros ->].
  - intros keyword. rw searchBibleByKeyword_eq.
    destruct (safeGenerate _ _ _ w) as [[e|text] v]; by eexists.
Qed.

(** X7.  Only a rate-limit failure starts a cooldown.  [safeGenerate]
    changes the cooldown only when it was not active and the reply is an
    error whose message contains "429" or "RESOURCE_EXHAUSTED"; any other
    error of the remote service is thrown as it is, and the next request is
    not refused. *)
Theorem only_quota_starts_cooldown (reply : Reply) (model prompt : str) (w : World) :
  let r := safeGenerate reply model prompt w in
  (globalCooldownUntil r.2 ≠ globalCooldownUntil w →
   ¬ cooling w ∧ ∃ err, outcome reply = inl err ∧ isQuotaError err = true)
  ∧ (∀ err, ¬ cooling w → configured w →
       outcome reply = inl err → isQuotaError err = false →
       r.1 = inl err ∧ ¬ cooling r.2).
Proof.
  intros r. subst r. split.
  - rw safeGenerate_eq. unfold cooling.
    destruct (now w <? globalCooldownUntil w)%Z eqn:Hlt; [done|].
    apply Z.ltb_ge in Hlt. intros Hchange. split; [lia|].
    destruct (getAiInstance_cases w) as [[E _] | [[E _] | [E _]]];
      rw E in Hchange |- *; [| |done];
      (destruct (outcome reply) as [err|text]; [|done]);
      (destruct (isQuotaError err) eqn:Hq; [by exists err | done]).
  - intros err Hc Hconf Hout Hq.
    destruct (safeGenerate_open reply model prompt w Hc Hconf) as (w0 & Hw0 & ->).
    rw Hout Hq /=. split; [done|]. unfold cooling in *. simpl.
    assert (now w0 = now w ∧ globalCooldownUntil w0 = globalCooldownUntil w)
      as [-> ->] by (by destruct Hw0 as [-> | ->]).
    lia.
Qed.

Lemma failed_analysis_not_cached_witness :
  let r := getVerseAnalysis replyDown john316Ref Interlinear openWorld in
  r.1 = inl (error (lit "503 Service Unavailable"))
  ∧ verseCache r.2 = ∅
  ∧ length (network (getVerseAnalysis replyHello john316Ref Interlinear r.2).2) = 2.
Proof.
  intros r.
  destruct (failed_analysis_not_cached replyDown john316Ref Interlinear
              (error (lit "503 Service Unavailable")) openWorld r.2 eq_refl)
    as (Hcache & _ & Hretry).
  split_and!; [reflexivity | exact Hcache |].
  rw (Hretry replyHello); [by vm_compute | by left |].
  reflexivity.
Defined.

Lemma missing_credential_reported_witness :
  searchBibleByKeyword replyHello (lit "faith") keylessWorld = (inr [], keylessWorld)
  ∧ sendMessageToBot replyHello (lit "hi") [] (lit "gemini-2.5-pro") keylessWorld
    = (inr (mkBotReply (lit "API key missing.") []), keylessWorld).
Proof.
  destruct (missing_credential_reported replyHello keylessWorld)
    as (_ & _ & Hsearch & Hchat).
  - intros [? | (c & k & ?)]; discriminate.
  - unfold cooling. simpl. lia.
  - split; [apply Hsearch | apply Hchat; by right].
Defined.

Lemma chat_modes_ignore_cooldown_witness :
  let r := sendMessageToBot replyQuota (lit "hi") [] (lit "gemini-2.5-flash-lite")
             coolingWorld in
  cooling coolingWorld
  ∧ globalCooldownUntil r.2 = 61000%Z
  ∧ (∃ chat, network r.2 = [SendMessage chat (lit "hi")])
  ∧ r.1 = inr (mkBotReply (lit "got status 429 Too Many Requests") []).
Proof.
  intros r.
  destruct (chat_modes_ignore_cooldown replyQuota (lit "hi") []
              (lit "gemini-2.5-flash-lite") coolingWorld) as [Hc Hsend]; [done|].
  destruct Hsend as [Hnet Htext]; [by left; left|].
  split_and!; [reflexivity | exact Hc | exact Hnet | exact Htext].
Defined.

Lemma cooldown_stays_bounded_witness :
  let w' := (safeGenerate replyQuota (lit "m") (lit "p") openWorld).2 in
  cooling w'
  ∧ (1 ≤ ceilSeconds (globalCooldownUntil w' - now w') ≤ 60)%Z.
Proof.
  intros w'.
  destruct (cooldown_stays_bounded openWorld w') as (_ & _ & Hsecs).
  - unfold cooldownBounded. simpl. lia.
  - apply rtc_once. exact (step_safeGenerate replyQuota (lit "m") (lit "p") openWorld).
  - assert (cooling w') as Hc by reflexivity. split; [exact Hc | exact (Hsecs Hc)].
Defined.

Lemma one_call_per_operation_witness :
  atMostOneCall openWorld (searchBibleByKeyword replyHello (lit "faith") openWorld).2.
Proof.
  destruct (one_call_per_operation openWorld
              (searchBibleByKeyword replyHello (lit "faith") openWorld).2) as [Hone _].
  apply Hone. exact (step_searchBibleByKeyword replyHello (lit "faith") openWorld).
Defined.

Lemma only_quota_starts_cooldown_witness :
  let r := safeGenerate replyDown (lit "m") (lit "p") openWorld in
  r.1 = inl (error (lit "503 Service Unavailable")) ∧ ¬ cooling r.2.
Proof.
  intros r.
  destruct (only_quota_starts_cooldown replyDown (lit "m") (lit "p") openWorld)
    as [_ Hpass].
  apply (Hpass (error (lit "503 Service Unavailable"))); [|by right; eexists _, _|done..].
  unfold cooling. simpl. lia.
Defined.

End GatewayErrors.

(** ** Numbers in text *)

Section NumberFacts.

Lemma lit_inj (a b : string) : lit a = lit b → a = b.
Proof.
  intros H. rw -(string_of_list_ascii_of_string a) -(string_of_list_ascii_of_string b).
  unfold lit in H. by rw H.
Qed.

Lemma to_int_proper (z : Z) : Z.to_int z ≠ Decimal.Pos Decimal.Nil
                              ∧ Z.to_int z ≠ Decimal.Neg Decimal.Nil.
Proof.
  destruct z as [|p|p]; simpl; split; try done; intros [= H];
    by apply DecimalPos.Unsigned.to_uint_nonnil in H.
Qed.

(** Two integers that print alike are equal. *)
Lemma showZ_inj (a b : Z) : showZ a = showZ b → a = b.
Proof.
  unfold showZ. intros H%lit_inj. apply DecimalZ.to_int_inj.
  destruct (to_int_proper a) as [Ha1 Ha2]. destruct (to_int_proper b) as [Hb1 Hb2].
  pose proof (NilZero.isi _ Ha1 Ha2) as Ea. pose proof (NilZero.isi _ Hb1 Hb2) as Eb.
  rw H in Ea. rw Ea in Eb. by injection Eb.
Qed.

Lemma uint_digits (u : Decimal.uint) :
  Forall (λ c, isDigit c = true) (lit (NilEmpty.string_of_uint u)).
Proof. induction u; simpl; [done | by constructor..]. Qed.

Lemma uint_value_from (u : Decimal.uint) (p : positive) :
  foldl (λ acc c, 10 * acc + digitValue c)%Z (Z.pos p) (lit (NilEmpty.string_of_uint u))
  = Z.pos (Pos.of_uint_acc u p).
Proof.
  revert p. induction u; intros p; [done|..];
    cbn [NilEmpty.string_of_uint lit list_ascii_of_string foldl Pos.of_uint_acc];
    rw -IHu; f_equal; vm_compute digitValue; lia.
Qed.

Lemma uint_value (u : Decimal.uint) :
  digitsValue (lit (NilEmpty.string_of_uint u)) = Z.of_N (Pos.of_uint u).
Proof.
  unfold digitsValue. induction u; [done|..];
    cbn [NilEmpty.string_of_uint lit list_ascii_of_string foldl Pos.of_uint];
    [exact IHu | exact (uint_value_from u _)..].
Qed.

(** A natural number prints as a run of decimal digits that reads back as
    the number. *)
Lemma showZ_digits (z : Z) :
  (0 ≤ z)%Z →
  showZ z ≠ [] ∧ Forall (λ c, isDigit c = true) (showZ z) ∧ digitsValue (showZ z) = z.
Proof.
  intros Hz. pose proof (DecimalZ.of_to z) as Hback. unfold showZ.
  assert (∃ u, Z.to_int z = Decimal.Pos u ∧ u ≠ Decimal.Nil) as (u & Hu & Hnil).
  { destruct z as [|p|p]; [by eexists | | lia]. eexists. split; [done|].
    apply DecimalPos.Unsigned.to_uint_nonnil. }
  rw Hu in Hback |- *. simpl in Hback. unfold Z.of_uint in Hback.
  assert (NilZero.string_of_int (Decimal.Pos u) = NilEmpty.string_of_uint u) as ->
    by by destruct u.
  split_and!.
  - by destruct u.
  - apply uint_digits.
  - by rw uint_value.
Qed.

Lemma digitsValue_nonneg (ds : str) :
  Forall (λ c, isDigit c = true) ds → (0 ≤ digitsValue ds)%Z.
Proof.
  intros H. unfold digitsValue.
  assert (∀ acc, (0 ≤ acc)%Z →
            (0 ≤ foldl (λ acc c, 10 * acc + digitValue c) acc ds)%Z) as Hacc.
  { induction H as [|d ds Hd _ IH]; intros acc Hacc; [done|]. simpl. apply IH.
    assert (0 ≤ digitValue d)%Z; [|lia]. clear -Hd. revert Hd.
    destruct d as [[] [] [] [] [] [] [] []]; vm_compute; done. }
  by apply Hacc.
Qed.

End NumberFacts.

(** ** The keys of the analysis cache *)

Section CacheKeys.
Import GeminiService.

Lemma show_inj (a b : number) : show a = show b → a = b.
Proof.
  assert (∀ z, showZ z ≠ lit "NaN") as Hnan.
  { intros z H%lit_inj. destruct (to_int_proper z) as [H1 H2].
    pose proof (NilZero.isi _ H1 H2) as E. by rw H in E. }
  destruct a as [|x], b as [|y]; simpl; intros H; try done.
  - by destruct (Hnan y).
  - by destruct (Hnan x).
  - by rw (showZ_inj _ _ H).
Qed.

Lemma show_unsigned (n : number) : unsigned n → "-"%char ∉ show n.
Proof.
  destruct n as [|z]; simpl.
  - intros _ H. by repeat (apply elem_of_cons in H as [H | H]; [done|]);
      apply elem_of_nil in H.
  - intros Hz H. destruct (showZ_digits z Hz) as (_ & Hd & _).
    rw Forall_forall in Hd. apply Hd in H. by vm_compute in H.
Qed.

Lemma analysisName_inj (t1 t2 : AnalysisType) :
  analysisName t1 = analysisName t2 → t1 = t2.
Proof. by destruct t1, t2. Qed.

Lemma bookNames_plain : Forall (λ n, "-"%char ∉ n) bookNames.
Proof. apply (bool_decide_unpack _). by vm_compute. Qed.

(** X8. The key of the analysis cache tells every selectable verse and
    every kind of analysis apart: two plain references with the same key
    are the same reference and ask for the same analysis, so no cached
    result is ever served for another verse or another kind.  The names
    of the sixty-six books hold no hyphen. *)
Theorem cache_keys_distinct (r1 r2 : VerseReference) (t1 t2 : AnalysisType) :
  plainReference r1 → plainReference r2 →
  cacheKey r1 t1 = cacheKey r2 t2 →
  (r1 = r2 ∧ t1 = t2) ∧ Forall (λ n, "-"%char ∉ n) bookNames.
Proof.
  intros (Hb1 & Hc1%show_unsigned & Hv1%show_unsigned)
         (Hb2 & Hc2%show_unsigned & Hv2%show_unsigned) Hkey.
  split; [|exact bookNames_plain].
  unfold cacheKey in Hkey. cbn [lit list_ascii_of_string app] in Hkey.
  apply not_elem_of_app_cons_inv_l in Hkey as (Hb & _ & Hkey); [|done..].
  apply not_elem_of_app_cons_inv_l in Hkey as (Hc%show_inj & _ & Hkey); [|done..].
  apply not_elem_of_app_cons_inv_l in Hkey as (Hv%show_inj & _ & Ht%analysisName_inj);
    [|done..].
  split; [|done]. destruct r1, r2; simpl in *. by subst.
Qed.

Lemma cache_keys_distinct_witness :
  let r := mkVerseReference (lit "John") (Num 3) (Num 16) in
  (r = r ∧ Interlinear = Interlinear) ∧ Forall (λ n, "-"%char ∉ n) bookNames.
Proof.
  intros r. apply (cache_keys_distinct r r Interlinear Interlinear).
  - split_and!; [apply (bool_decide_unpack _); by vm_compute | simpl; lia..].
  - split_and!; [apply (bool_decide_unpack _); by vm_compute | simpl; lia..].
  - reflexivity.
Defined.

End CacheKeys.

(** ** The secondary-language corpus and the failures of a fetch *)

Section FetchFacts.

Import BibleService.

Variable chapterVerseCounts : str → list nat.
Variable teluguBibleData : TeluguBible.
Variable http : str → HttpReply.

Local Abbreviation bookNameToIndexMap :=
  (BibleService.bookNameToIndexMap chapterVerseCounts).
Local Abbreviation fetchTranslation := (BibleService.fetchTranslation http).
Local Abbreviation fetchEnglish := (BibleService.fetchEnglish http).
Local Abbreviation getTeluguVerse :=
  (BibleService.getTeluguVerse chapterVerseCounts teluguBibleData).
Local Abbreviation fetchChapter :=
  (BibleService.fetchChapter chapterVerseCounts teluguBibleData http).
Local Abbreviation fetchReference :=
  (BibleService.fetchReference chapterVerseCounts teluguBibleData http).
Local Abbreviation fetchVersesByReferences :=
  (BibleService.fetchVersesByReferences chapterVerseCounts teluguBibleData http).

Lemma index_of_name :
  map_Forall (λ n i, bookNames !! i = Some n) bookNameToIndexMap.
Proof. apply (bool_decide_unpack _). by vm_compute. Qed.

Lemma name_of_index :
  Forall (λ p, bookNameToIndexMap !! p.2 = Some p.1) (imap pair bookNames).
Proof. apply (bool_decide_unpack _). by vm_compute. Qed.

(** The index map sends a canonical name to its position in the table
    and knows no other name. *)
Lemma bookNameToIndexMap_lookup (book : str) (i : nat) :
  bookNameToIndexMap !! book = Some i ↔ bookNames !! i = Some book.
Proof.
  split.
  - apply index_of_name.
  - intros H. pose proof name_of_index as Hall. rw Forall_forall in Hall.
    apply (Hall (i, book)). apply elem_of_lookup_imap. by exists i, book.
Qed.

Lemma at_Some {A} (l : list A) (n : number) (x : A) :
  at_ l (minus n (Num 1)) = Some x
  ↔ ∃ z, n = Num z ∧ (1 ≤ z)%Z ∧ l !! Z.to_nat (z - 1) = Some x.
Proof.
  destruct n as [|z]; simpl.
  - split; [done | by intros (z & ? & _)].
  - destruct (Z.ltb_spec (z - 1) 0) as [Hz | Hz].
    + split; [done|]. intros (z' & [= <-] & Hz' & _). lia.
    + split; [intros H; exists z; split_and!; [done | lia | done]|].
      by intros (z' & [= <-] & _ & H).
Qed.

(** X9. [getTeluguVerse] returns a line exactly when the book is a
    canonical name, the chapter and the verse are numbers from one upward,
    and the corpus has a verse at that position of that chapter of the book
    with the same position as the name in the table; the line is then the
    text of that verse.  In every other case (a name in another spelling, a
    chapter or verse that is zero, negative, not a number or beyond the
    corpus) it returns nothing and raises nothing. *)
Theorem telugu_line_lookup (book : str) (chapter verse : number) (line : str) :
  getTeluguVerse book chapter verse = Some line
  ↔ ∃ (i : nat) (c v : Z) (b : TeluguBook) (ch : TeluguChapter) (tv : TeluguVerse),
      bookNames !! i = Some book
      ∧ chapter = Num c ∧ verse = Num v ∧ (1 ≤ c)%Z ∧ (1 ≤ v)%Z
      ∧ tbBook teluguBibleData !! i = Some b
      ∧ tbChapter b !! Z.to_nat (c - 1) = Some ch
      ∧ tcVerse ch !! Z.to_nat (v - 1) = Some tv
      ∧ tvVerse tv = line.
Proof.
  unfold BibleService.getTeluguVerse. split.
  - destruct (bookNameToIndexMap !! book) as [i|] eqn:Hi; [|done].
    apply bookNameToIndexMap_lookup in Hi.
    destruct (tbBook teluguBibleData !! i) as [b|] eqn:Hb; [|done].
    destruct (at_ (tbChapter b) _) as [ch|] eqn:Hch; [|done].
    apply at_Some in Hch as (c & -> & Hc & Hch).
    destruct (at_ (tcVerse ch) _) as [tv|] eqn:Htv; [|done].
    apply at_Some in Htv as (v & -> & Hv & Htv).
    intros [= <-]. by exists i, c, v, b, ch, tv.
  - intros (i & c & v & b & ch & tv & Hi & -> & -> & Hc & Hv & Hb & Hch & Htv & <-).
    apply bookNameToIndexMap_lookup in Hi. rw Hi Hb.
    assert (at_ (tbChapter b) (minus (Num c) (Num 1)) = Some ch) as ->
      by (apply at_Some; exists c; split; [reflexivity | split; [exact Hc | exact Hch]]).
    assert (at_ (tcVerse ch) (minus (Num v) (Num 1)) = Some tv) as ->
      by (apply at_Some; exists v; split; [reflexivity | split; [exact Hv | exact Htv]]).
    done.
Qed.


Lemma allFlat_success {A} (ps : list (Error + list A)) (xs : list A) :
  allFlat ps = inr xs ↔ ∃ ls, ps = inr <$> ls ∧ xs = concat ls.
Proof.
  revert xs. induction ps as [|[e|l] ps IH]; intros xs; simpl.
  - split; [intros [= <-]; by exists [] | intros ([|??] & ? & ->); done].
  - split; [done | intros ([|??] & ? & _); done].
  - destruct (allFlat ps) as [e|ys].
    + split; [done|]. intros ([|l' ls] & [= -> Hps] & ->).
      assert (inl e = inr (concat ls) :> Error + list A); [|done].
      apply IH. by exists ls.
    + split.
      * intros [= <-]. destruct (proj1 (IH ys) eq_refl) as (ls & -> & ->).
        by exists (l :: ls).
      * intros ([|l' ls] & [= -> Hps] & ->). simpl. do 2 f_equal.
        assert (inr ys = inr (concat ls) :> Error + list A) as [= ->]; [|done].
        apply IH. by exists ls.
Qed.

Lemma allFlat_failure {A} (ps : list (Error + list A)) (e : Error) :
  allFlat ps = inl e
  ↔ ∃ ls post, ps = (inr <$> ls) ++ inl e :: post.
Proof.
  revert e. induction ps as [|[e'|l] ps IH]; intros e; simpl.
  - split; [done | intros ([|??] & ? & ?); done].
  - split.
    + intros [= ->]. by exists [], ps.
    + intros ([|??] & post & H); by simplify_eq/=.
  - destruct (allFlat ps) as [e'|ys].
    + split.
      * intros [= ->]. destruct (proj1 (IH e) eq_refl) as (ls & post & ->).
        by exists (l :: ls), post.
      * intros ([|l' ls] & post & H); simplify_eq/=.
        assert (inl e' = inl e :> Error + list A) as [= ->]; [|done].
        apply IH. by exists ls, post.
    + split; [done|]. intros ([|l' ls] & post & H); simplify_eq/=.
      assert (inr ys = inl e :> Error + list A); [|done].
      apply IH. by exists ls, post.
Qed.


End FetchFacts.

Section FetchScenarios.


Lemma telugu_line_lookup_witness :
  BibleService.getTeluguVerse Scenario.noCounts Scenario.corpusWithBreak
    (lit "Genesis") (Num 1) (Num 1)
  = Some (lit "a" ++ [LF] ++ lit "b ").
Proof.
  apply telugu_line_lookup.
  eexists 0, 1%Z, 1%Z, _, _, _.
  split_and!; [reflexivity | reflexivity | reflexivity | lia | lia
               | reflexivity | reflexivity | reflexivity | reflexivity].
Defined.


End FetchScenarios.

(** ** Resolution of names and of blank queries *)

Section ResolveFacts.

Import BibleService.

Variable chapterVerseCounts : str → list nat.

Local Abbreviation BIBLE_META := (BibleService.BIBLE_META chapterVerseCounts).
Local Abbreviation findBookMetadata := (BibleService.findBookMetadata chapterVerseCounts).
Local Abbreviation bookEntry := (Notions.bookEntry chapterVerseCounts).

(** No two canonical names differ by case only. *)
Lemma lower_names_NoDup : NoDup (toLowerCase <$> bookNames).
Proof. apply (bool_decide_unpack _). by vm_compute. Qed.

Lemma find_lower (names : list str) (n : str) :
  NoDup (toLowerCase <$> names) → n ∈ names →
  List.find (λ b, strEq (toLowerCase (name b)) (toLowerCase n)) (bookEntry <$> names)
  = Some (bookEntry n).
Proof.
  induction names as [|x names IH]; [by intros _ ?%elem_of_nil|].
  rw fmap_cons. intros [Hx Hnd]%NoDup_cons Hn. rw fmap_cons. cbn [List.find bookEntry name].
  unfold strEq at 1. apply elem_of_cons in Hn as [-> | Hn].
  - by rw bool_decide_true.
  - rw bool_decide_false; [|by apply IH].
    intros E. apply Hx. rw E. by apply list_elem_of_fmap_2.
Qed.

Lemma trim_blank (q : str) : Forall (λ c, isSpace c = true) q → trim q = [].
Proof.
  intros Hq. unfold trim. rw -(app_nil_r q). by rw trimStart_spaces.
Qed.

(** X12. A canonical book name resolves to its own book in any mixture
    of upper and lower case and with any white space around it: the full
    name wins over every abbreviation, alias and prefix. *)
Theorem canonical_name_resolves (n q : str) :
  n ∈ bookNames → toLowerCase (trim q) = toLowerCase n →
  findBookMetadata q = Some (bookEntry n).
Proof.
  intros Hn Hq. unfold BibleService.findBookMetadata. cbv zeta. rw Hq.
  rw BIBLE_META_entries. by rw (find_lower _ _ lower_names_NoDup Hn).
Qed.

(** X13. A query that is empty or made of white space only does not
    stay unresolved: it resolves, by the prefix rule, to the first book of
    the table, Genesis. *)
Theorem blank_query_resolves (q : str) :
  Forall (λ c, isSpace c = true) q →
  findBookMetadata q = Some (bookEntry (lit "Genesis")).
Proof.
  intros Hq. unfold BibleService.findBookMetadata. cbv zeta. by rw (trim_blank _ Hq).
Qed.

End ResolveFacts.

Section ResolveScenarios.

Import BibleService Scenario.

Lemma canonical_name_resolves_witness :
  findBookMetadata noCounts (lit "  song OF Solomon ")
  = Some (bookEntry noCounts (lit "Song of Solomon")).
Proof.
  apply (canonical_name_resolves noCounts (lit "Song of Solomon")).
  - apply (bool_decide_unpack _). by vm_compute.
  - reflexivity.
Defined.

Lemma blank_query_resolves_witness :
  findBookMetadata noCounts (lit "   ") = Some (bookEntry noCounts (lit "Genesis")).
Proof.
  apply (blank_query_resolves noCounts (lit "   ")).
  repeat constructor.
Defined.

End ResolveScenarios.

(** ** The edit distance *)

Section DistanceFacts.

Import BibleService.

Lemma distance_nil_r (r1 : str) : distanceFromEnd r1 [] = length r1.
Proof. by destruct r1. Qed.

Lemma distance_cons (c1 c2 : ascii) (r1 r2 : str) :
  distanceFromEnd (c1 :: r1) (c2 :: r2)
  = (distanceFromEnd r1 (c2 :: r2) + 1)
      `min` ((distanceFromEnd (c1 :: r1) r2 + 1)
               `min` (distanceFromEnd r1 r2
                      + (if bool_decide (c1 ≠ c2) then 1 else 0))).
Proof. reflexivity. Qed.

Lemma distance_sym (r1 r2 : str) : distanceFromEnd r1 r2 = distanceFromEnd r2 r1.
Proof.
  revert r2. induction r1 as [|c1 r1 IH1]; intros r2.
  - by rw distance_nil_r.
  - induction r2 as [|c2 r2 IH2]; [by rw distance_nil_r|].
    rw !distance_cons. rw (IH1 (c2 :: r2)) IH2 (IH1 r2).
    assert ((if bool_decide (c1 ≠ c2) then 1 else 0)
            = (if bool_decide (c2 ≠ c1) then 1 else 0)) as ->; [|lia].
    by repeat case_bool_decide; subst.
Qed.

Lemma distance_refl (r : str) : distanceFromEnd r r = 0.
Proof.
  induction r as [|c r IH]; [done|]. rw distance_cons IH.
  rw bool_decide_false; [by intros ?|]. lia.
Qed.

Lemma distance_zero (r1 r2 : str) : distanceFromEnd r1 r2 = 0 → r1 = r2.
Proof.
  revert r2. induction r1 as [|c1 r1 IH]; intros [|c2 r2]; try done.
  rw distance_cons. intros H.
  assert (distanceFromEnd r1 r2 = 0 ∧ c1 = c2) as [H0 ->].
  { case_bool_decide as Hc; [lia|]. split; [lia | exact Hc]. }
  by rw (IH _ H0).
Qed.

Lemma distance_upper (r1 r2 : str) :
  distanceFromEnd r1 r2 ≤ length r1 `max` length r2.
Proof.
  revert r2. induction r1 as [|c1 r1 IH]; intros [|c2 r2]; simpl length; try (simpl; lia).
  rw distance_cons. pose proof (IH r2). case_bool_decide; lia.
Qed.

Lemma distance_lower (r1 r2 : str) :
  length r1 - length r2 ≤ distanceFromEnd r1 r2
  ∧ length r2 - length r1 ≤ distanceFromEnd r1 r2.
Proof.
  revert r2. induction r1 as [|c1 r1 IH1]; intros r2; [simpl; lia|].
  induction r2 as [|c2 r2 IH2]; [simpl; lia|].
  rw distance_cons. pose proof (IH1 (c2 :: r2)) as H1. pose proof (IH1 r2) as H2.
  simpl length in *. case_bool_decide; lia.
Qed.

Lemma editDistance_snoc (a b : str) (c1 c2 : ascii) :
  editDistance (a ++ [c1]) (b ++ [c2])
  = (editDistance a (b ++ [c2]) + 1)
      `min` ((editDistance (a ++ [c1]) b + 1)
               `min` (editDistance a b + (if bool_decide (c1 ≠ c2) then 1 else 0))).
Proof. unfold editDistance. by rw !reverse_snoc distance_cons. Qed.

Lemma rowAt_distanceRow (a s2 : str) (k j : nat) :
  j < k → rowAt (distanceRow a s2 k) j = editDistance a (take j s2).
Proof.
  intros Hj. unfold rowAt, distanceRow.
  by rw list_lookup_fmap (lookup_seq_lt _ _ _ Hj).
Qed.

Lemma distanceRow_S (a s2 : str) (k : nat) :
  distanceRow a s2 (S k) = distanceRow a s2 k ++ [editDistance a (take k s2)].
Proof. unfold distanceRow. by rw seq_S fmap_app. Qed.

(** The inner loop fills the row of [a ++ [c1]] from the row of [a]. *)
Lemma inner_loop (a : str) (c1 : ascii) (s2 : str) :
  ∀ q p, s2 = p ++ q →
    foldl (levenshteinCell c1 (distanceRow a s2 (length s2 + 1)))
          (distanceRow (a ++ [c1]) s2 (length p + 1))
          (imap (λ j, pair (length p + j)) q)
    = distanceRow (a ++ [c1]) s2 (length s2 + 1).
Proof.
  induction q as [|c2 q IH]; intros p Hs.
  - by rw Hs app_nil_r.
  - cbn [imap foldl]. unfold levenshteinCell at 2.
    assert (length s2 = length p + S (length q)) as Hlen
      by by rw Hs length_app.
    rw !rowAt_distanceRow; [lia..|].
    replace (length p + 0) with (length p) by lia.
    assert (take (length p) s2 = p) as Hp by by rw Hs take_app_length.
    assert (take (length p + 1) s2 = p ++ [c2]) as Hpc.
    { rw Hs (cons_middle c2 p q) app_assoc. apply take_app_length'.
      rw length_app /=. lia. }
    rw Hp Hpc -editDistance_snoc -Hpc.
    replace (length p + 1) with (S (length p)) by lia.
    rw -distanceRow_S.
    specialize (IH (p ++ [c2])). rw length_app in IH. simpl length in IH.
    replace (S (S (length p))) with (length p + 1 + 1) by lia.
    rw -IH; [by rw Hs -app_assoc|]. f_equal.
    apply imap_ext. intros j x _. simpl. f_equal. lia.
Qed.

(** The outer loop turns the row of the empty string into the row of
    the whole first string. *)
Lemma outer_loop (s1 s2 : str) :
  ∀ q p, s1 = p ++ q →
    foldl (levenshteinRow s2) (distanceRow p s2 (length s2 + 1))
          (imap (λ i, pair (length p + i)) q)
    = distanceRow s1 s2 (length s2 + 1).
Proof.
  induction q as [|c1 q IH]; intros p Hs.
  - by rw Hs app_nil_r.
  - cbn [imap foldl]. unfold levenshteinRow at 2.
    assert ([length p + 0 + 1] = distanceRow (p ++ [c1]) s2 (length ([] : str) + 1)) as ->.
    { unfold distanceRow, editDistance. simpl. rw reverse_snoc take_0 /=.
      rw length_reverse. f_equal. lia. }
    rw (inner_loop p c1 s2 s2 [] eq_refl).
    specialize (IH (p ++ [c1])). rw length_app in IH. simpl length in IH.
    rw -IH; [by rw Hs -app_assoc|]. f_equal.
    apply imap_ext. intros j x _. simpl. f_equal. lia.
Qed.

Lemma levenshteinOrdered_distance (s1 s2 : str) :
  levenshteinOrdered s1 s2 = editDistance s1 s2.
Proof.
  unfold levenshteinOrdered. case_bool_decide as Hlen.
  - apply nil_length_inv in Hlen as ->. unfold editDistance.
    by rw distance_nil_r length_reverse.
  - cbv zeta.
    assert (seq 0 (length s2 + 1) = distanceRow [] s2 (length s2 + 1)) as ->.
    { unfold distanceRow. rw -{1}(list_fmap_id (seq 0 (length s2 + 1))).
      apply list_fmap_ext. intros i j Hj. apply lookup_seq in Hj as [-> Hi].
      unfold editDistance. simpl. rw length_reverse length_take. lia. }
    rw (outer_loop s1 s2 s1 [] eq_refl).
    rw rowAt_distanceRow; [lia|]. by rw firstn_all.
Qed.

Lemma editDistance_sym (s1 s2 : str) : editDistance s1 s2 = editDistance s2 s1.
Proof. apply distance_sym. Qed.

Lemma levenshtein_distance (s1 s2 : str) : levenshtein s1 s2 = editDistance s1 s2.
Proof.
  unfold levenshtein. case_bool_decide.
  - by rw levenshteinOrdered_distance editDistance_sym.
  - apply levenshteinOrdered_distance.
Qed.

(** X14. [levenshtein] computes the edit distance: for every two
    strings the two-row programme returns the value of the recurrence on
    the last characters, where dropping the last character of either string
    costs one and replacing one last character by the other costs one when
    they differ; the distance to the empty string is the length. *)
Theorem levenshtein_recurrence :
  (∀ s, levenshtein s [] = length s ∧ levenshtein [] s = length s)
  ∧ (∀ a b c1 c2,
       levenshtein (a ++ [c1]) (b ++ [c2])
       = (levenshtein a (b ++ [c2]) + 1)
           `min` ((levenshtein (a ++ [c1]) b + 1)
                    `min` (levenshtein a b
                           + (if bool_decide (c1 ≠ c2) then 1 else 0))))
  ∧ (∀ s1 s2, levenshtein s1 s2 = editDistance s1 s2).
Proof.
  split_and!.
  - intros s. rw !levenshtein_distance. unfold editDistance. simpl.
    by rw distance_nil_r length_reverse.
  - intros a b c1 c2. rw !levenshtein_distance. apply editDistance_snoc.
  - apply levenshtein_distance.
Qed.

(** X15. [levenshtein] behaves as a distance: it is zero exactly on equal
    strings, it does not depend on the order of its two arguments, it is
    at least the difference of the two lengths and at most the greater
    length. *)
Theorem levenshtein_distance_laws (s1 s2 : str) :
  (levenshtein s1 s2 = 0 ↔ s1 = s2)
  ∧ levenshtein s1 s2 = levenshtein s2 s1
  ∧ length s1 - length s2 ≤ levenshtein s1 s2
  ∧ length s2 - length s1 ≤ levenshtein s1 s2
  ∧ levenshtein s1 s2 ≤ length s1 `max` length s2.
Proof.
  rw !levenshtein_distance. unfold editDistance. split_and!.
  - split.
    + intros H%distance_zero. by apply (inj reverse).
    + intros ->. apply distance_refl.
  - apply distance_sym.
  - pose proof (distance_lower (reverse s1) (reverse s2)) as [H _].
    by rw !length_reverse in H.
  - pose proof (distance_lower (reverse s1) (reverse s2)) as [_ H].
    by rw !length_reverse in H.
  - pose proof (distance_upper (reverse s1) (reverse s2)) as H.
    by rw !length_reverse in H.
Qed.

End DistanceFacts.

(** ** The matcher and the texts of the reference pattern *)

Section PatternFacts.

Import BibleService App.

Lemma star_matches {A} (p : ascii → bool) (s : str) (k : str → option A) (a : A) :
  star p s k = Some a →
  ∃ t s', s = t ++ s' ∧ Forall (λ x, p x = true) t ∧ k s' = Some a.
Proof.
  induction s as [|x s IH]; simpl.
  - intros H. by exists [], [].
  - destruct (p x) eqn:Hx; [|intros H; by exists [], (x :: s)].
    destruct (star p s k) as [a'|] eqn:E; [|intros H; by exists [], (x :: s)].
    intros [= ->]. destruct (IH eq_refl) as (t & s' & -> & Ht & Hk).
    exists (x :: t), s'. split_and!; [done | by constructor | done].
Qed.

Lemma star_total {A} (p : ascii → bool) (s : str) (k : str → option A) :
  is_Some (k s) → is_Some (star p s k).
Proof.
  destruct s as [|x s]; simpl; [done|]. intros Hk.
  destruct (p x); [|done]. by destruct (star p s k).
Qed.

Lemma star_complete {A} (p : ascii → bool) (t s' : str) (k : str → option A) :
  Forall (λ x, p x = true) t → is_Some (k s') → is_Some (star p (t ++ s') k).
Proof.
  intros Ht Hk. induction Ht as [|x t Hx _ IH]; [by apply star_total|].
  simpl. rw Hx. by destruct (star p (t ++ s') k).
Qed.

(** The matcher is sound: a result comes from a text the pattern
    matches, and every group holds the text its body matched. *)
Lemma run_matches (r : regex) :
  ∀ {A} (s : str) (c : captures) (k : str → captures → option A) (a : A),
    run r s c k = Some a →
    ∃ t s' c', s = t ++ s' ∧ matches r t c c' ∧ k s' c' = Some a.
Proof.
  induction r as [p | p | p | r1 IH1 r2 IH2 | r IH | i r IH]; intros A s c k a; simpl.
  - destruct s as [|x s]; [done|]. destruct (p x) eqn:Hx; [|done]. intros Hk.
    exists [x], s, c. split_and!; [done | by constructor | done].
  - intros (t & s' & -> & Ht & Hk)%star_matches.
    exists t, s', c. split_and!; [done | by constructor | done].
  - destruct s as [|x s]; [done|]. simpl. destruct (p x) eqn:Hx; [|done].
    intros (t & s' & -> & Ht & Hk)%star_matches.
    exists (x :: t), s', c. split_and!; [done | by constructor; [|constructor] | done].
  - intros (t1 & s1 & c1 & -> & H1 & (t2 & s2 & c2 & -> & H2 & Hk)%IH2)%IH1.
    exists (t1 ++ t2), s2, c2. split_and!; [by rw app_assoc | by econstructor | done].
  - destruct (run r s c k) as [a'|] eqn:E.
    + intros [= ->]. apply IH in E as (t & s' & c' & -> & Hm & Hk).
      exists t, s', c'. split_and!; [done | by constructor | done].
    + intros Hk. exists [], s, c. split_and!; [done | by constructor | done].
  - intros (t & s' & c' & -> & Hm & Hk)%IH. rw take_prefix_length in Hk.
    exists t, s', (<[i := t]> c'). split_and!; [done | by constructor | done].
Qed.

(** The matcher is complete: where the pattern matches a text and what
    follows the pattern accepts the rest, the matcher returns a result. *)
Lemma run_complete (r : regex) (t : str) (c c' : captures) :
  matches r t c c' →
  ∀ {A} (s' : str) (k : str → captures → option A),
    is_Some (k s' c') → is_Some (run r (t ++ s') c k).
Proof.
  induction 1 as [p x c Hx | p t c Ht | p t c Hne Ht
                  | r1 r2 t1 t2 c c1 c2 _ IH1 _ IH2
                  | r t c c' _ IH | r c | i r t c c' _ IH]; intros A s' k Hk; simpl.
  - by rw Hx.
  - by apply star_complete.
  - destruct Ht as [|x t Hx Ht]; [done|]. simpl. rw Hx. by apply star_complete.
  - rw -app_assoc. apply IH1. by apply IH2.
  - destruct (IH A s' k Hk) as [a Ha]. by rw Ha.
  - by destruct (run r s' c k).
  - apply IH. by rw take_prefix_length.
Qed.

Lemma exec_matches (r : regex) (s : str) (m : captures) :
  exec r s = Some m →
  ∃ pre t post, s = pre ++ t ++ post ∧ matches r t ∅ m.
Proof.
  induction s as [|x s IH]; simpl.
  - destruct (run r [] ∅ _) as [c|] eqn:E; [|done]. intros [= ->].
    apply run_matches in E as (t & s' & c' & -> & Hm & [= ->]). by exists [], t, s'.
  - destruct (run r (x :: s) ∅ _) as [c|] eqn:E.
    + intros [= ->].
      apply run_matches in E as (t & s' & c' & Hs & Hm & [= ->]). by exists [], t, s'.
    + intros (pre & t & post & -> & Hm)%IH. by exists (x :: pre), t, post.
Qed.

Lemma exec_complete (r : regex) (s pre t post : str) (c : captures) :
  s = pre ++ t ++ post → matches r t ∅ c → is_Some (exec r s).
Proof.
  intros -> Hm. induction pre as [|x pre IH]; simpl.
  - destruct (run_complete r t ∅ c Hm post (λ _ c, Some c)) as [a Ha]; [done|].
    destruct (t ++ post); simpl; by rw Ha.
  - by destruct (run r (x :: pre ++ t ++ post) ∅ _).
Qed.

Ltac invert_matches :=
  repeat match goal with
         | H : matches (Chr _) _ _ _ |- _ => inversion H; subst; clear H
         | H : matches (Star _) _ _ _ |- _ => inversion H; subst; clear H
         | H : matches (Plus _) _ _ _ |- _ => inversion H; subst; clear H
         | H : matches (Seq _ _) _ _ _ |- _ => inversion H; subst; clear H
         | H : matches (Opt _) _ _ _ |- _ => inversion H; subst; clear H
         | H : matches (Group _ _) _ _ _ |- _ => inversion H; subst; clear H
         end.

Lemma isChar_eq (c a : ascii) : isChar c a = true → a = c.
Proof. unfold isChar. by intros ?%bool_decide_eq_true. Qed.

Lemma bookToken_inv (t : str) (c c' : captures) :
  matches bookToken t c c' →
  bookTokenText t ∧ c' !! 1 = Some t ∧ ∀ i, 3 ≤ i → c' !! i = c !! i.
Proof.
  unfold bookToken. intros H. invert_matches.
  - split_and!.
    + eexists _, _. split_and!; [reflexivity | eassumption | eassumption |].
      right. by eexists _, _.
    + by rw lookup_insert_eq.
    + intros i Hi. rw !lookup_insert_ne; [lia..|done].
  - split_and!.
    + eexists [], _. split_and!; [reflexivity | eassumption | eassumption | by left].
    + by rw lookup_insert_eq.
    + intros i Hi. rw !lookup_insert_ne; [lia..|done].
Qed.

Lemma endVersePart_inv (t : str) (c c' : captures) :
  matches endVersePart t c c' →
  (t = [] ∧ c' = c) ∨ ∃ e, t = "-"%char :: e ∧ digitRun e ∧ c' = <[5 := e]> c.
Proof.
  unfold endVersePart. intros H. invert_matches; [|by left].
  right. match goal with H : isChar _ _ = true |- _ => apply isChar_eq in H; subst end.
  eexists. split_and!; [reflexivity | by split | done].
Qed.

Lemma chapterAndVerse_inv (t : str) (c c' : captures) :
  matches chapterAndVerse t c c' →
  ∃ ws chapter verse tail,
    t = ws ++ chapter ++ ":"%char :: verse ++ tail
    ∧ ws ≠ [] ∧ Forall (λ c, isSpace c = true) ws
    ∧ digitRun chapter ∧ digitRun verse
    ∧ matches endVersePart tail (<[4 := verse]> (<[3 := chapter]> c)) c'.
Proof.
  unfold chapterAndVerse. intros H.
  inversion H as [| | |? ? ws t1 ? ? ? Hws H1| | |]; subst; clear H.
  inversion H1 as [| | |? ? chapter t2 ? ? ? Hch H2| | |]; subst; clear H1.
  inversion H2 as [| | |? ? colon t3 ? ? ? Hcolon H3| | |]; subst; clear H2.
  inversion H3 as [| | |? ? verse tail ? ? ? Hv Hend| | |]; subst; clear H3.
  invert_matches.
  match goal with H : isChar _ _ = true |- _ => apply isChar_eq in H; subst end.
  exists ws, chapter, verse, tail. split_and!; [done | done | done | by split.. | done].
Qed.

(** What a match of [referenceRegex] looks like and what its groups
    hold. *)
Lemma referenceRegex_inv (t : str) (m : captures) :
  matches referenceRegex t ∅ m →
  ∃ book ws chapter verse,
    bookTokenText book
    ∧ ws ≠ [] ∧ Forall (λ c, isSpace c = true) ws
    ∧ digitRun chapter ∧ digitRun verse
    ∧ m !! 1 = Some book ∧ m !! 3 = Some chapter ∧ m !! 4 = Some verse
    ∧ ((t = book ++ ws ++ chapter ++ ":"%char :: verse ∧ m !! 5 = None)
       ∨ ∃ e, t = book ++ ws ++ chapter ++ ":"%char :: verse ++ "-"%char :: e
              ∧ digitRun e ∧ m !! 5 = Some e).
Proof.
  unfold referenceRegex. intros H.
  inversion H as [| | |? ? book rest ? c1 ? Hbook Hrest| | |]; subst; clear H.
  apply bookToken_inv in Hbook as (Hbook & H1 & Hc1).
  apply chapterAndVerse_inv in Hrest
    as (ws & chapter & verse & tail & -> & Hne & Hws & Hch & Hv & Hend).
  exists book, ws, chapter, verse.
  apply endVersePart_inv in Hend as [[-> ->] | (e & -> & He & ->)].
  - do 5 (split; [assumption|]).
    split; [by rw !lookup_insert_ne|].
    split; [by rw lookup_insert_ne // lookup_insert_eq|].
    split; [by rw lookup_insert_eq|].
    left. split; [by rw app_nil_r|].
    rw !lookup_insert_ne; [done..|]. rw Hc1; [lia|]. apply lookup_empty.
  - do 5 (split; [assumption|]).
    split; [by rw !lookup_insert_ne|].
    split; [by rw lookup_insert_ne // lookup_insert_ne // lookup_insert_eq|].
    split; [by rw lookup_insert_ne // lookup_insert_eq|].
    right. exists e. split; [done|]. split; [done|]. by rw lookup_insert_eq.
Qed.

(** Every text of the reference form is matched by [referenceRegex]. *)
Lemma referenceShaped_matches (t : str) :
  referenceShaped t ↔ ∃ m, matches referenceRegex t ∅ m.
Proof.
  split.
  - intros (book & ws & chapter & verse & tail & -> & Hbook & Hne & Hws
            & [Hc Hcd] & [Hv Hvd] & Htail).
    destruct Hbook as (lead & letters & -> & Hl & Hld & Hlead).
    assert (∃ c1, matches bookToken (lead ++ letters) ∅ c1) as [c1 H1].
    { unfold bookToken. destruct Hlead as [-> | (d & sp & -> & Hd & Hsp)].
      - eexists. constructor.
        eapply (matches_seq _ _ [] letters); [apply matches_skip | by constructor].
      - eexists. constructor. eapply (matches_seq _ _ (d :: sp) letters).
        + do 2 constructor.
          eapply (matches_seq _ _ [d] sp); [by constructor | by constructor].
        + by constructor. }
    assert (∃ m, matches endVersePart tail
                   (<[4 := verse]> (<[3 := chapter]> c1)) m) as [m Hm].
    { unfold endVersePart. destruct Htail as [-> | (e & -> & He & Hed)].
      - eexists. by apply matches_skip.
      - eexists. constructor. eapply (matches_seq _ _ ["-"%char] e).
        + by constructor.
        + constructor. by constructor. }
    exists m. unfold referenceRegex, chapterAndVerse.
    eapply matches_seq; [exact H1|].
    eapply matches_seq; [by constructor|].
    eapply matches_seq; [by do 2 constructor|].
    eapply (matches_seq _ _ [":"%char]); [by constructor|].
    eapply matches_seq; [by do 2 constructor | exact Hm].
  - intros [m (book & ws & chapter & verse & Hbook & Hne & Hws & Hch & Hv & _ & _ & _
               & [[-> _] | (e & -> & He & _)])%referenceRegex_inv].
    + exists book, ws, chapter, verse, []. rw app_nil_r. split_and!; by eauto.
    + exists book, ws, chapter, verse, ("-"%char :: e). split_and!; by eauto.
Qed.

End PatternFacts.

(** ** What the parser returns *)

Section ParserMore.

Import BibleService App.

Variable chapterVerseCounts : str → list nat.

Local Abbreviation BIBLE_META := (BibleService.BIBLE_META chapterVerseCounts).
Local Abbreviation findBookMetadata := (BibleService.findBookMetadata chapterVerseCounts).
Local Abbreviation bookEntry := (Notions.bookEntry chapterVerseCounts).
Local Abbreviation segmentReference := (Notions.segmentReference chapterVerseCounts).
Local Abbreviation parseReferencesFromString :=
  (App.parseReferencesFromString chapterVerseCounts).

Lemma parseInt_run (ds : str) :
  digitRun ds → ∃ z, parseInt (Some ds) = Num z ∧ (0 ≤ z)%Z.
Proof.
  intros [Hne Hds]. exists (digitsValue ds).
  split; [by apply parseInt_digits | by apply digitsValue_nonneg].
Qed.

Lemma segmentReference_wellFormed (part : str) (r : ParsedReference) :
  segmentReference part = Some r → wellFormed r.
Proof.
  unfold Notions.segmentReference.
  destruct (exec referenceRegex (trim part)) as [m|] eqn:Hexec; [|done].
  cbn [mbind option_bind].
  apply exec_matches in Hexec as (pre & t & post & _ & Hm).
  apply referenceRegex_inv in Hm
    as (book & ws & chapter & verse & _ & _ & _ & Hch & Hv & -> & -> & -> & Hend).
  cbn [mbind option_bind].
  destruct (findBookMetadata (trim book)) as [bookMeta|] eqn:Hbook; [|done].
  cbn [mbind option_bind]. intros [= <-].
  apply findBookMetadata_justified in Hbook as [Hmeta _].
  apply elem_of_BIBLE_META in Hmeta as (n & Hn & ->).
  split; [exact Hn|]. split; [by apply parseInt_run|]. split; [by apply parseInt_run|].
  cbn [endVerse]. destruct Hend as [[_ ->] | (e & _ & He & ->)]; [by left|].
  right. destruct (parseInt_run e He) as (z & Hz & Hpos).
  destruct He as [Hne _]. destruct e as [|c e]; [done|].
  exists z. split; [|exact Hpos]. f_equal. exact Hz.
Qed.


(** X17. [referenceRegex] finds a match in a text exactly when some part
    of the text has the form of a reference: a book token (if present a
    digit and white space, then letters and white space), white space, a
    run of digits, a colon, a run of digits and, if present, a dash and a
    run of digits.  So a segment in which no such part occurs contributes
    no reference, and the groups of a match hold the book token and the
    digit runs of such a part. *)
Theorem pattern_finds_reference_shape (s : str) :
  (is_Some (exec referenceRegex s)
   ↔ ∃ pre t post, s = pre ++ t ++ post ∧ referenceShaped t)
  ∧ (∀ m, exec referenceRegex s = Some m →
       ∃ book chapter verse,
         bookTokenText book ∧ digitRun chapter ∧ digitRun verse
         ∧ m !! 1 = Some book ∧ m !! 3 = Some chapter ∧ m !! 4 = Some verse
         ∧ (m !! 5 = None ∨ ∃ e, digitRun e ∧ m !! 5 = Some e)).
Proof.
  split; [split|].
  - intros [m (pre & t & post & Hs & Hm)%exec_matches].
    exists pre, t, post. split; [done|]. apply referenceShaped_matches. by exists m.
  - intros (pre & t & post & Hs & [m Hm]%referenceShaped_matches).
    by apply (exec_complete _ _ pre t post m).
  - intros m (pre & t & post & _ & Hm)%exec_matches.
    apply referenceRegex_inv in Hm
      as (book & ws & chapter & verse & Hbook & _ & _ & Hch & Hv & H1 & H3 & H4 & Hend).
    exists book, chapter, verse. do 6 (split; [assumption|]).
    destruct Hend as [[_ H5] | (e & _ & He & H5)]; [by left | right; by exists e].
Qed.

Lemma names_trimmed : Forall (λ n, trim n = n) bookNames.
Proof. apply (bool_decide_unpack _). by vm_compute. Qed.

Lemma names_lettered : Forall (λ n, existsb isAlpha n = true) bookNames.
Proof. apply (bool_decide_unpack _). by vm_compute. Qed.

Lemma findBookMetadata_name (n : str) :
  n ∈ bookNames →
  findBookMetadata n = Some (bookEntry n) ∧ ∃ a, a ∈ n ∧ isAlpha a = true.
Proof.
  intros Hn. split.
  - pose proof names_trimmed as Ht. rw Forall_forall in Ht.
    unfold BibleService.findBookMetadata. cbv zeta. rw (Ht n Hn) BIBLE_META_entries.
    by rw (find_lower chapterVerseCounts _ _ lower_names_NoDup Hn).
  - pose proof names_lettered as Hl. rw Forall_forall in Hl.
    destruct (proj1 (existsb_exists _ _) (Hl n Hn)) as (a & Ha & Halpha).
    exists a. by rw list_elem_of_In.
Qed.

(** The text "Book C:V", with "-W" after it or not, for a book token
    that resolves and holds a letter. *)
Lemma parse_reference_text (Book C V : str) (W : option str) (bookMeta : BookMeta) :
  findBookMetadata Book = Some bookMeta →
  (∃ a, a ∈ Book ∧ isAlpha a = true) →
  digitRun C → digitRun V → (∀ w, W = Some w → digitRun w) →
  parseReferencesFromString
    (Book ++ " "%char :: C ++ ":"%char :: V
       ++ match W with Some w => "-"%char :: w | None => [] end)
  = inr [mkParsedReference (name bookMeta) (Num (digitsValue C)) (Num (digitsValue V))
           ((λ w, Num (digitsValue w)) <$> W)].
Proof.
  intros Hbook Halpha [HC HCd] [HV HVd] HW. rw parseReferencesFromString_eq.
  destruct W as [w|].
  - destruct (HW w eq_refl) as [Hw Hwd].
    destruct (reference_segment chapterVerseCounts Book C V ("-"%char :: w) bookMeta)
      as (Hsplit & c1 & g1 & Hc1 & Hg1 & Hexec); [done.. | | |].
    { constructor; [done|]. by apply digits_no_separator. }
    { destruct (digits_last w Hw Hwd) as (body & z & -> & Hz).
      exists (V ++ "-"%char :: body), z. by rw /= -app_assoc. }
    destruct (captures_lookup c1 g1 C V Hc1) as (H1 & H3 & H4 & _).
    destruct (digits_head w Hw Hwd) as (x & w' & Hweq & _).
    rw Hsplit. cbn [omap list_omap]. unfold Notions.segmentReference.
    rw (Hexec _ (endVersePart_present w _ Hw Hwd)). cbn [mbind option_bind].
    rw (lookup_insert_ne _ 5 1) // H1. cbn [mbind option_bind]. rw Hg1.
    cbn [mbind option_bind].
    rw (lookup_insert_ne _ 5 3) // H3 (lookup_insert_ne _ 5 4) // H4 lookup_insert_eq.
    rw {1}Hweq -Hweq. by rw !parseInt_digits.
  - destruct (reference_segment chapterVerseCounts Book C V [] bookMeta)
      as (Hsplit & c1 & g1 & Hc1 & Hg1 & Hexec); [done.. | |].
    { destruct (digits_last V HV HVd) as (body & z & -> & Hz).
      exists body, z. by rw app_nil_r. }
    destruct (captures_lookup c1 g1 C V Hc1) as (H1 & H3 & H4 & H5).
    rw Hsplit. cbn [omap list_omap]. unfold Notions.segmentReference.
    rw (Hexec _ (endVersePart_absent _)). cbn [mbind option_bind].
    rw H1. cbn [mbind option_bind]. rw Hg1. cbn [mbind option_bind].
    by rw H3 H4 H5 !parseInt_digits.
Qed.

Lemma showZ_run (z : Z) : (0 ≤ z)%Z → digitRun (showZ z) ∧ digitsValue (showZ z) = z.
Proof. intros Hz. by destruct (showZ_digits z Hz) as (? & ? & ?). Qed.


End ParserMore.

Section ParserMoreScenarios.

Import BibleService App Scenario.

Lemma pattern_finds_reference_shape_witness :
  ∃ pre t post, lit "see John 3:16!" = pre ++ t ++ post ∧ referenceShaped t.
Proof.
  destruct (pattern_finds_reference_shape (lit "see John 3:16!")) as [Hshape _].
  apply Hshape. vm_compute. by eexists.
Defined.


End ParserMoreScenarios.

(** ** Navigation *)

Section NavigationFacts.

Import BibleService App GeminiService AppHandlers.

Variable chapterVerseCounts : str → list nat.
Variable teluguBibleData : TeluguBible.
Variable http : str → HttpReply.
Variable decodeURIComponent : str → Error + str.

Local Abbreviation BIBLE_META := (BibleService.BIBLE_META chapterVerseCounts).
Local Abbreviation findBookMetadata := (BibleService.findBookMetadata chapterVerseCounts).
Local Abbreviation bookEntry := (Notions.bookEntry chapterVerseCounts).
Local Abbreviation validPosition := (NavigationNotions.validPosition chapterVerseCounts).
Local Abbreviation handleNextChapter := (AppHandlers.handleNextChapter chapterVerseCounts).
Local Abbreviation handlePreviousChapter :=
  (AppHandlers.handlePreviousChapter chapterVerseCounts).
Local Abbreviation parseHashAndSetState :=
  (AppHandlers.parseHashAndSetState chapterVerseCounts decodeURIComponent).
Local Abbreviation handleSearch :=
  (AppHandlers.handleSearch chapterVerseCounts teluguBibleData http).
Local Abbreviation searchReference := (AppHandlers.searchReference chapterVerseCounts).
Local Abbreviation searchReferences :=
  (AppHandlers.searchReferences chapterVerseCounts teluguBibleData http).
Local Abbreviation searchKeyword :=
  (AppHandlers.searchKeyword chapterVerseCounts teluguBibleData http).
Local Abbreviation loadVersesEffect :=
  (AppHandlers.loadVersesEffect chapterVerseCounts teluguBibleData http).
Local Abbreviation event :=
  (NavigationNotions.event chapterVerseCounts teluguBibleData http decodeURIComponent).

Lemma find_unknown (n : str) :
  n ∉ bookNames → List.find (λ b, strEq (name b) n) BIBLE_META = None.
Proof.
  intros Hn. apply find_absent. intros m (n' & Hn' & ->)%elem_of_BIBLE_META.
  simpl. unfold strEq. apply bool_decide_eq_false. by intros ->.
Qed.

Lemma find_name_cases (n : str) :
  (n ∈ bookNames
   ∧ List.find (λ b, strEq (name b) n) BIBLE_META = Some (bookEntry n))
  ∨ ((n ∉ bookNames) ∧ List.find (λ b, strEq (name b) n) BIBLE_META = None).
Proof.
  destruct (decide (n ∈ bookNames)) as [Hn | Hn].
  - left. split; [done|]. by apply find_by_name.
  - right. split; [done|]. by apply find_unknown.
Qed.

Lemma findIndexFrom_name (names : list str) (n : str) (i : nat) (k : Z) :
  NoDup names → names !! i = Some n →
  findIndexFrom (λ b, strEq (name b) n) (bookEntry <$> names) k = (k + Z.of_nat i)%Z.
Proof.
  revert i k. induction names as [|x names IH]; intros i k Hnd Hi; [done|].
  apply NoDup_cons in Hnd as [Hx Hnd]. rw fmap_cons. cbn [findIndexFrom bookEntry name].
  unfold strEq at 1. destruct i as [|i]; simpl in Hi.
  - injection Hi as ->. rw bool_decide_true; [done|]. lia.
  - rw bool_decide_false.
    { intros ->. apply Hx. by apply list_elem_of_lookup_2 in Hi. }
    rw (IH i (k + 1)%Z Hnd Hi). lia.
Qed.

Lemma findIndexFrom_unknown (names : list str) (n : str) (k : Z) :
  n ∉ names →
  findIndexFrom (λ b, strEq (name b) n) (bookEntry <$> names) k = (-1)%Z.
Proof.
  revert k. induction names as [|x names IH]; intros k Hn; [done|].
  rw fmap_cons. cbn [findIndexFrom bookEntry name]. unfold strEq at 1.
  rw bool_decide_false; [intros ->; apply Hn; by left|].
  apply IH. intros H. apply Hn. by right.
Qed.

Lemma findIndex_name (n : str) (i : nat) :
  bookNames !! i = Some n →
  findIndex (λ b, strEq (name b) n) BIBLE_META = Z.of_nat i.
Proof.
  intros Hi. unfold findIndex. rw BIBLE_META_entries.
  by rw (findIndexFrom_name _ _ _ _ bookNames_NoDup Hi).
Qed.

Lemma findIndex_unknown (n : str) :
  n ∉ bookNames → findIndex (λ b, strEq (name b) n) BIBLE_META = (-1)%Z.
Proof.
  intros Hn. unfold findIndex. rw BIBLE_META_entries. by apply findIndexFrom_unknown.
Qed.

Lemma BIBLE_META_at (i : nat) :
  at_ BIBLE_META (Num (Z.of_nat i)) = bookEntry <$> bookNames !! i.
Proof.
  unfold at_. destruct (Z.ltb_spec (Z.of_nat i) 0) as [H | _]; [lia|].
  by rw Nat2Z.id BIBLE_META_entries list_lookup_fmap.
Qed.

Lemma BIBLE_META_length : length BIBLE_META = length bookNames.
Proof. by rw BIBLE_META_entries length_fmap. Qed.

Lemma validPosition_intro (s : State) (n : str) (c : Z) :
  n ∈ bookNames → (1 ≤ c ≤ Z.of_nat (length (chapterVerseCounts n)))%Z →
  selectedBook s = n → selectedChapter s = Num c → validPosition s.
Proof. intros Hn Hc Hb Hch. split; [by rw Hb|]. exists c. by rw Hb. Qed.

(** Going to the next chapter, from a chapter that exists. *)
Lemma next_cases (s : State) (i : nat) (c : Z) :
  bookNames !! i = Some (selectedBook s) → selectedChapter s = Num c →
  (1 ≤ c ≤ Z.of_nat (length (chapterVerseCounts (selectedBook s))))%Z →
  (c < Z.of_nat (length (chapterVerseCounts (selectedBook s)))
   ∧ handleNextChapter s = inr (handleChapterChange (Num (c + 1)) s))%Z
  ∨ (c = Z.of_nat (length (chapterVerseCounts (selectedBook s)))
     ∧ ((∃ n', bookNames !! S i = Some n'
               ∧ handleNextChapter s = inr (handleBookChange n' s))
        ∨ (bookNames !! S i = None ∧ handleNextChapter s = inr s))).
Proof.
  intros Hi Hc Hrange. unfold AppHandlers.handleNextChapter.
  rw (find_by_name chapterVerseCounts (selectedBook s)); [by apply list_elem_of_lookup_2 in Hi|].
  cbn [bookEntry chapters]. rw Hc. cbn [numLt numPlus].
  destruct (Z.ltb_spec c (Z.of_nat (length (chapterVerseCounts (selectedBook s)))))
    as [Hlt | Hge]; [by left|].
  right. split; [lia|]. rw (findIndex_name _ _ Hi) BIBLE_META_length.
  replace (Z.of_nat i + 1)%Z with (Z.of_nat (S i)) by lia. rw BIBLE_META_at.
  destruct (bookNames !! S i) as [n'|] eqn:Hnext.
  - left. exists n'. split; [done|].
    apply lookup_lt_Some in Hnext.
    destruct (Z.ltb_spec (Z.of_nat i) (Z.of_nat (length bookNames) - 1)); [done | lia].
  - right. split; [done|]. apply lookup_ge_None in Hnext.
    destruct (Z.ltb_spec (Z.of_nat i) (Z.of_nat (length bookNames) - 1)); [lia | done].
Qed.

(** Going to the previous chapter, from a chapter that exists. *)
Lemma previous_cases (s : State) (i : nat) (c : Z) :
  bookNames !! i = Some (selectedBook s) → selectedChapter s = Num c → (1 ≤ c)%Z →
  ((1 < c)%Z ∧ handlePreviousChapter s = inr (handleChapterChange (Num (c - 1)) s))
  ∨ (c = 1%Z
     ∧ ((∃ j n', i = S j ∧ bookNames !! j = Some n'
                 ∧ handlePreviousChapter s
                   = inr (setIsToolsModalOpen false
                            (setSelectedVerseRef None
                               (setSelectedChapter
                                  (Num (Z.of_nat (length (chapterVerseCounts n'))))
                                  (setSelectedBook n' s)))))
        ∨ (i = 0 ∧ handlePreviousChapter s = inr s))).
Proof.
  intros Hi Hc Hrange. unfold AppHandlers.handlePreviousChapter.
  rw Hc. cbn [numLt minus]. destruct (Z.ltb_spec 1 c) as [Hlt | Hge]; [by left|].
  right. split; [lia|]. rw (findIndex_name _ _ Hi). destruct i as [|j].
  - right. by split.
  - left. destruct (Z.ltb_spec 0 (Z.of_nat (S j))) as [_ | H]; [|lia].
    replace (Z.of_nat (S j) - 1)%Z with (Z.of_nat j) by lia. rw BIBLE_META_at.
    destruct (bookNames !! j) as [n'|] eqn:Hprev.
    + by exists j, n'.
    + apply lookup_ge_None in Hprev. apply lookup_lt_Some in Hi. lia.
Qed.

Lemma valid_index (s : State) :
  validPosition s → ∃ i, bookNames !! i = Some (selectedBook s).
Proof. intros [Hn _]. by apply list_elem_of_lookup_1. Qed.

Lemma next_valid (s s' : State) :
  booksHaveChapters chapterVerseCounts → validPosition s →
  handleNextChapter s = inr s' → validPosition s'.
Proof.
  intros Hbooks Hvalid Hnext. destruct (valid_index s Hvalid) as [i Hi].
  destruct Hvalid as (Hn & c & Hc & Hrange).
  destruct (next_cases s i c Hi Hc Hrange)
    as [[Hlt H] | [Heq [(n' & Hn' & H) | [_ H]]]]; rw H in Hnext; injection Hnext as <-.
  - apply (validPosition_intro _ (selectedBook s) (c + 1)); [done | lia | done..].
  - apply list_elem_of_lookup_2 in Hn'.
    apply (validPosition_intro _ n' 1); [done | | done..].
    specialize (Hbooks n' Hn'). destruct (chapterVerseCounts n'); [done | simpl; lia].
  - by apply (validPosition_intro _ (selectedBook s) c).
Qed.

Lemma previous_valid (s s' : State) :
  booksHaveChapters chapterVerseCounts → validPosition s →
  handlePreviousChapter s = inr s' → validPosition s'.
Proof.
  intros Hbooks Hvalid Hprev. destruct (valid_index s Hvalid) as [i Hi].
  destruct Hvalid as (Hn & c & Hc & Hrange).
  destruct (previous_cases s i c Hi Hc (proj1 Hrange))
    as [[Hlt H] | [Heq [(j & n' & -> & Hn' & H) | [_ H]]]];
    rw H in Hprev; injection Hprev as <-.
  - apply (validPosition_intro _ (selectedBook s) (c - 1)); [done | lia | done..].
  - apply list_elem_of_lookup_2 in Hn'.
    apply (validPosition_intro _ n' (Z.of_nat (length (chapterVerseCounts n'))));
      [done | | done..].
    specialize (Hbooks n' Hn'). destruct (chapterVerseCounts n'); [done | simpl; lia].
  - by apply (validPosition_intro _ (selectedBook s) c).
Qed.

Lemma resolved_name (q : str) (m : BookMeta) :
  findBookMetadata q = Some m →
  name m ∈ bookNames ∧ chapters m = length (chapterVerseCounts (name m)).
Proof.
  intros [Hm _]%findBookMetadata_justified.
  by apply elem_of_BIBLE_META in Hm as (n & Hn & ->).
Qed.

Lemma range_check (chapter : number) (k : nat) :
  isNaN chapter || numLt chapter (Num 1) || numLt (Num (Z.of_nat k)) chapter = false →
  ∃ c, chapter = Num c ∧ (1 ≤ c ≤ Z.of_nat k)%Z.
Proof.
  destruct chapter as [|c]; [done|]. cbn [isNaN numLt orb].
  intros [H1 H2]%orb_false_elim. exists c. split; [done|].
  apply Z.ltb_ge in H1. apply Z.ltb_ge in H2. lia.
Qed.

(** A change of the hash leaves the chapter on display as it is, or
    goes to a chapter that exists. *)
Lemma hash_position (innerWidth : Z) (hash : str) (s : State) :
  let s' := (parseHashAndSetState innerWidth hash s).2 in
  position s' = position s ∨ validPosition s'.
Proof.
  unfold AppHandlers.parseHashAndSetState.
  destruct (split _ _) as [|p0 [|p1 rest]]; [by left.. |].
  case_bool_decide; [by left|].
  destruct (decodeURIComponent _) as [e | bookName]; [by left|].
  destruct (findBookMetadata bookName) as [bookMeta|] eqn:Hbook; [|by left].
  destruct (isNaN _ || _ || _) eqn:Hrange; [by left|].
  right. apply resolved_name in Hbook as [Hn Hk]. rw Hk in Hrange.
  apply range_check in Hrange as (c & Hc & Hrange).
  assert (∀ s0, selectedBook s0 = name bookMeta → selectedChapter s0 = Num c →
                 validPosition s0) as Hvalid.
  { intros s0 Hb Hch. by apply (validPosition_intro _ (name bookMeta) c). }
  destruct rest as [|[|x p2] rest]; cbv zeta; cbn [snd].
  - by apply Hvalid.
  - by apply Hvalid.
  - destruct (numTruthy _); [|by apply Hvalid].
    destruct (innerWidth <? 768)%Z; by apply Hvalid.
Qed.

Lemma validPosition_same (s s' : State) :
  position s' = position s → validPosition s → validPosition s'.
Proof.
  unfold NavigationNotions.position. intros [= Hb Hc] (Hn & c & Hch & Hrange).
  apply (validPosition_intro _ (selectedBook s) c); [done | done | done | by rw Hc].
Qed.

(** A search for one reference, with a chapter that is a number, leaves
    the chapter on display as it is, or goes to a chapter that exists. *)
Lemma searchReference_position (ref : ParsedReference) (s : State) :
  (∃ c, refChapter ref = Num c) →
  position (searchReference ref s) = position s
  ∨ validPosition (searchReference ref s).
Proof.
  intros [c Hc]. unfold AppHandlers.searchReference.
  destruct (find_name_cases (refBook ref)) as [[Hn ->] | [_ ->]]; [|by left].
  cbn [bookEntry chapters]. rw Hc.
  destruct (numLt _ _ || _) eqn:Hrange; [by left|]. right.
  destruct (range_check (Num c) _ Hrange) as (c' & [= <-] & Hc').
  apply (validPosition_intro _ (refBook ref) c); [done | done | |];
    by destruct (numTruthy _).
Qed.

Lemma searchReferences_position (refs : list ParsedReference) (s : State) :
  position (searchReferences refs s) = position s.
Proof. unfold AppHandlers.searchReferences. by destruct (fetchVersesByReferences _ _ _ _). Qed.

Lemma searchKeyword_position (reply : Reply) (query : str) (s : State) (w : World) :
  position (searchKeyword reply query s w).1 = position s.
Proof.
  unfold AppHandlers.searchKeyword.
  destruct (searchBibleByKeyword reply query w) as [[e | referenceString] w']; [done|].
  destruct (_ || _); [done|].
  destruct (parseReferencesFromString _ _) as [e | [|r rs]]; [done.. |].
  by destruct (fetchVersesByReferences _ _ _ _).
Qed.

Lemma parsed_wellFormed (query : str) (refs : list ParsedReference) :
  parseReferencesFromString chapterVerseCounts query = inr refs →
  Forall wellFormed refs.
Proof.
  rw parseReferencesFromString_eq. intros [= <-].
  apply Forall_forall. intros r (part & _ & Hr)%list_elem_of_omap.
  by apply (segmentReference_wellFormed chapterVerseCounts part).
Qed.

Lemma handleSearch_position (reply : Reply) (s : State) (w : World) :
  let s' := (handleSearch reply s w).1.2 in
  position s' = position s ∨ validPosition s'.
Proof.
  unfold AppHandlers.handleSearch. cbv zeta. case_bool_decide as Hblank; [by left|].
  destruct (parseReferencesFromString _ _) as [e | refs] eqn:Hparse; [by left|].
  apply parsed_wellFormed in Hparse.
  destruct refs as [|ref [|r2 rs]].
  - left. pose proof (searchKeyword_position reply (trim (searchQuery s))
                        (setSearchError None s) w) as Hpos.
    by destruct (searchKeyword _ _ _ _).
  - apply Forall_cons in Hparse as [(_ & [c [Hc _]] & _) _].
    destruct (searchReference_position ref (setSearchError None s)) as [Hpos | Hpos];
      [by exists c | left | right]; exact Hpos.
  - left. apply (searchReferences_position _ (setSearchError None s)).
Qed.

Lemma chapterCount_known (s : State) :
  selectedBook s ∈ bookNames →
  chapterCount chapterVerseCounts s = length (chapterVerseCounts (selectedBook s)).
Proof. intros Hn. unfold chapterCount. by rw find_by_name. Qed.

Lemma chapterCount_unknown (s : State) :
  selectedBook s ∉ bookNames → chapterCount chapterVerseCounts s = 0.
Proof. intros Hn. unfold chapterCount. by rw find_unknown. Qed.

Lemma offered_books (book : str) : book ∈ name <$> BIBLE_META ↔ book ∈ bookNames.
Proof.
  rw BIBLE_META_entries -list_fmap_compose.
  by rw (list_fmap_ext (name ∘ bookEntry) id bookNames) ?list_fmap_id.
Qed.

(** What an event does to the chapter on display: it stays, or a chapter
    that exists is shown. *)
Lemma event_position (s s' : State) :
  booksHaveChapters chapterVerseCounts → event s s' →
  position s' = position s ∨ validPosition s'
  ∨ (validPosition s → validPosition s').
Proof.
  intros Hbooks Hev.
  destruct Hev as [book s Hbook | chapter s Hch | innerWidth verseNum s
                   | s s' Hnext | s s' Hprev | innerWidth hash s | query s
                   | reply s w | s | s].
  - right. left. apply offered_books in Hbook.
    apply (validPosition_intro _ book 1); [done | | done..].
    specialize (Hbooks book Hbook). destruct (chapterVerseCounts book); [done | simpl; lia].
  - right. left. destruct (decide (selectedBook s ∈ bookNames)) as [Hn | Hn].
    + rw (chapterCount_known s Hn) in Hch.
      apply (validPosition_intro _ (selectedBook s) (Z.of_nat chapter));
        [done | lia | done..].
    + rw (chapterCount_unknown s Hn) in Hch. lia.
  - left. unfold handleVerseSelect. by destruct (innerWidth <? 768)%Z.
  - right. right. intros Hvalid. by apply (next_valid s).
  - right. right. intros Hvalid. by apply (previous_valid s).
  - destruct (hash_position innerWidth hash s) as [H | H]; [by left | by right; left].
  - by left.
  - destruct (handleSearch_position reply s w) as [H | H]; [by left | by right; left].
  - by left.
  - left. unfold AppHandlers.loadVersesEffect, loadVerses.
    destruct (isSearchView s); [done|]. by destruct (fetchChapter _ _ _ _ _).
Qed.

(** X19. The chapter on display always exists.  When every book of the
    table has a chapter and the component shows a chapter that exists (a
    canonical book and one of its chapters), then after any sequence of
    events (choosing a book or a chapter, selecting a verse, next and
    previous chapter, a change of the hash, typing and submitting a query,
    leaving the search view, the loading of a chapter) it still shows a
    chapter that exists. *)
Theorem position_stays_valid (s s' : State) :
  booksHaveChapters chapterVerseCounts → validPosition s → rtc event s s' →
  validPosition s'.
Proof.
  intros Hbooks Hvalid Hsteps. induction Hsteps as [|s s1 s2 Hev _ IH]; [done|].
  apply IH. destruct (event_position s s1 Hbooks Hev) as [H | [H | H]].
  - by apply (validPosition_same s).
  - exact H.
  - by apply H.
Qed.

Lemma next_total (s : State) : ∃ s', handleNextChapter s = inr s'.
Proof.
  unfold AppHandlers.handleNextChapter.
  destruct (find_name_cases (selectedBook s)) as [[Hn ->] | [_ ->]]; [|by eauto].
  destruct (numLt _ _); [by eauto|].
  apply list_elem_of_lookup_1 in Hn as [i Hi]. rw (findIndex_name _ _ Hi) BIBLE_META_length.
  destruct (Z.ltb_spec (Z.of_nat i) (Z.of_nat (length bookNames) - 1)) as [Hlt | _];
    [|by eauto].
  replace (Z.of_nat i + 1)%Z with (Z.of_nat (S i)) by lia. rw BIBLE_META_at.
  destruct (bookNames !! S i) as [n'|] eqn:Hnext; [by eauto|].
  apply lookup_ge_None in Hnext. lia.
Qed.

Lemma previous_total (s : State) : ∃ s', handlePreviousChapter s = inr s'.
Proof.
  unfold AppHandlers.handlePreviousChapter. destruct (numLt _ _); [by eauto|].
  destruct (decide (selectedBook s ∈ bookNames)) as [Hn | Hn].
  - apply list_elem_of_lookup_1 in Hn as [i Hi]. rw (findIndex_name _ _ Hi).
    destruct (Z.ltb_spec 0 (Z.of_nat i)) as [Hlt | _]; [|by eauto].
    replace (Z.of_nat i - 1)%Z with (Z.of_nat (i - 1)) by lia. rw BIBLE_META_at.
    destruct (bookNames !! (i - 1)) as [n'|] eqn:Hprev; [by eauto|].
    apply lookup_ge_None in Hprev. apply lookup_lt_Some in Hi. lia.
  - rw (findIndex_unknown _ Hn). by eauto.
Qed.

Lemma first_and_last_book :
  bookNames !! 0 = Some (lit "Genesis") ∧ bookNames !! 65 = Some (lit "Revelation")
  ∧ length bookNames = 66.
Proof. by vm_compute. Qed.

Lemma index_unique (i j : nat) (n : str) :
  bookNames !! i = Some n → bookNames !! j = Some n → i = j.
Proof. apply NoDup_lookup, bookNames_NoDup. Qed.

(** X20. The handlers for the next and the previous chapter never throw,
    and from a chapter that exists they undo each other: when every book
    has a chapter, going to the next chapter and then to the previous one,
    or the other way round, shows the chapter one started from, also across
    the boundary between two books.  Going to the next chapter changes
    nothing exactly at the last chapter of Revelation, going to the previous
    one changes nothing exactly at Genesis 1. *)
Theorem next_previous_inverse :
  (∀ s, (∃ s', handleNextChapter s = inr s')
        ∧ ∃ s', handlePreviousChapter s = inr s')
  ∧ ∀ s sn sp,
      booksHaveChapters chapterVerseCounts → validPosition s →
      handleNextChapter s = inr sn → handlePreviousChapter s = inr sp →
      (position sn = position s
       ∨ ∃ s', handlePreviousChapter sn = inr s' ∧ position s' = position s)
      ∧ (position sp = position s
         ∨ ∃ s', handleNextChapter sp = inr s' ∧ position s' = position s)
      ∧ (position sn = position s
         ↔ position s
           = (lit "Revelation",
              Num (Z.of_nat (length (chapterVerseCounts (lit "Revelation"))))))
      ∧ (position sp = position s ↔ position s = (lit "Genesis", Num 1)).
Proof.
  split; [intros s; split; [apply next_total | apply previous_total]|].
  intros s sn sp Hbooks Hvalid Hnext Hprev.
  destruct (valid_index s Hvalid) as [i Hi].
  destruct Hvalid as (Hn & c & Hc & Hrange).
  destruct first_and_last_book as (Hfirst & Hlast & Hlen).
  pose proof (next_cases s i c Hi Hc Hrange) as Hnc.
  pose proof (previous_cases s i c Hi Hc (proj1 Hrange)) as Hpc.
  unfold NavigationNotions.position.
  split_and!.
  - destruct Hnc as [[Hlt H] | [Heq [(n' & Hn' & H) | [_ H]]]];
      rw H in Hnext; injection Hnext as <-; [right | right | by left].
    + destruct (previous_cases (handleChapterChange (Num (c + 1)) s) i (c + 1) Hi eq_refl)
        as [[_ Hback] | [? _]]; [lia | | lia].
      eexists. split; [exact Hback|]. simpl. rw Hc. do 2 f_equal. lia.
    + destruct (previous_cases (handleBookChange n' s) (S i) 1 Hn' eq_refl)
        as [[? _] | [_ [(j & n'' & [= <-] & Hj & Hback) | [? _]]]]; [lia | lia | | done].
      rw Hi in Hj. injection Hj as <-.
      eexists. split; [exact Hback|]. simpl. by rw Hc Heq.
  - destruct Hpc as [[Hlt H] | [Heq [(j & n' & -> & Hn' & H) | [_ H]]]];
      rw H in Hprev; injection Hprev as <-; [right | right | by left].
    + destruct (next_cases (handleChapterChange (Num (c - 1)) s) i (c - 1) Hi eq_refl)
        as [[_ Hback] | [Hlast' _]]; [simpl; lia | | simpl in Hlast'; lia].
      eexists. split; [exact Hback|]. simpl. rw Hc. do 2 f_equal. lia.
    + pose proof (Hbooks n' (list_elem_of_lookup_2 _ _ _ Hn')) as Hne.
      destruct (next_cases
                  (setIsToolsModalOpen false
                     (setSelectedVerseRef None
                        (setSelectedChapter
                           (Num (Z.of_nat (length (chapterVerseCounts n'))))
                           (setSelectedBook n' s))))
                  j (Z.of_nat (length (chapterVerseCounts n'))) Hn' eq_refl)
        as [[Hless _] | [_ [(n'' & Hj & Hback) | [Hj _]]]].
      * simpl. destruct (chapterVerseCounts n'); [done | simpl; lia].
      * simpl in Hless. lia.
      * rw Hi in Hj. injection Hj as <-.
        eexists. split; [exact Hback|]. simpl. by rw Hc Heq.
      * by rw Hi in Hj.
  - destruct Hnc as [[Hlt H] | [Heq [(n' & Hn' & H) | [Hend H]]]];
      rw H in Hnext; injection Hnext as <-; simpl; rw Hc.
    + split; [intros [= ?]; lia | intros [= Hb Hcc]]. rw Hb in Hlt. lia.
    + split.
      * intros [= Hb _]. rw Hb in Hn'. pose proof (index_unique _ _ _ Hi Hn'). lia.
      * intros [= Hb _]. rw Hb in Hi. pose proof (index_unique _ _ _ Hi Hlast) as ->.
        apply lookup_lt_Some in Hn'. lia.
    + split; [intros _ | done].
      assert (i = 65) as ->.
      { apply lookup_ge_None in Hend. apply lookup_lt_Some in Hi. lia. }
      rw Hlast in Hi. injection Hi as Hb. by rw Heq -Hb.
  - destruct Hpc as [[Hlt H] | [Heq [(j & n' & -> & Hn' & H) | [-> H]]]];
      rw H in Hprev; injection Hprev as <-; simpl; rw Hc.
    + split; [intros [= ?]; lia | intros [= _ ?]; lia].
    + split.
      * intros [= Hb _]. rw Hb in Hn'. pose proof (index_unique _ _ _ Hi Hn'). lia.
      * intros [= Hb _]. rw Hb in Hi. by pose proof (index_unique _ _ _ Hi Hfirst).
    + split; [intros _ | done]. rw Hfirst in Hi. injection Hi as Hb. by rw Heq -Hb.
Qed.

(** X21. The arrows are disabled where they would do nothing.  At a
    chapter that exists, [isFirstChapterOfBible] holds exactly when
    [handlePreviousChapter] leaves the state as it is; and, when the table
    gives Revelation its 22 chapters, [isLastChapterOfBible] holds exactly
    when [handleNextChapter] leaves the state as it is. *)
Theorem arrows_disabled_at_the_ends (s : State) :
  validPosition s →
  (isFirstChapterOfBible s = true ↔ handlePreviousChapter s = inr s)
  ∧ (length (chapterVerseCounts (lit "Revelation")) = 22 →
     (isLastChapterOfBible s = true ↔ handleNextChapter s = inr s)).
Proof.
  intros Hvalid. destruct (valid_index s Hvalid) as [i Hi].
  destruct Hvalid as (Hn & c & Hc & Hrange).
  destruct first_and_last_book as (Hfirst & Hlast & Hlen).
  assert (∀ n, strEq (selectedBook s) n = true ↔ selectedBook s = n) as Hname.
  { intros n. apply strEq_true. }
  unfold isFirstChapterOfBible, isLastChapterOfBible. rw Hc. cbn [numEq]. split.
  - destruct (previous_cases s i c Hi Hc (proj1 Hrange))
      as [[Hlt ->] | [-> [(j & n' & -> & Hn' & ->) | [-> ->]]]].
    + split.
      * intros [_ H%Z.eqb_eq]%andb_true_iff. lia.
      * intros [= H]. apply (f_equal selectedChapter) in H. simpl in H.
        rw Hc in H. injection H as H. lia.
    + split.
      * intros [Hb%Hname _]%andb_true_iff. rw Hb in Hi.
        by pose proof (index_unique _ _ _ Hi Hfirst).
      * intros [= H]. apply (f_equal selectedBook) in H. simpl in H.
        rw -H in Hi. pose proof (index_unique _ _ _ Hi Hn'). lia.
    + split; [done|]. intros _. rw Hfirst in Hi. injection Hi as Hb.
      apply andb_true_iff. split; [by apply Hname | done].
  - intros Hlength.
    destruct (next_cases s i c Hi Hc Hrange)
      as [[Hlt ->] | [Heq [(n' & Hn' & ->) | [Hend ->]]]].
    + split.
      * intros [Hb%Hname H%Z.eqb_eq]%andb_true_iff. rw Hb Hlength in Hlt. lia.
      * intros [= H]. apply (f_equal selectedChapter) in H. simpl in H.
        rw Hc in H. injection H as H. lia.
    + split.
      * intros [Hb%Hname _]%andb_true_iff. rw Hb in Hi.
        pose proof (index_unique _ _ _ Hi Hlast) as ->.
        apply lookup_lt_Some in Hn'. lia.
      * intros [= H]. apply (f_equal selectedBook) in H. simpl in H.
        rw -H in Hi. pose proof (index_unique _ _ _ Hi Hn'). lia.
    + split; [done|]. intros _.
      assert (i = 65) as ->.
      { apply lookup_ge_None in Hend. apply lookup_lt_Some in Hi. lia. }
      rw Hlast in Hi. injection Hi as Hb.
      apply andb_true_iff. split; [by apply Hname|].
      apply Z.eqb_eq. rw Heq -Hb Hlength. done.
Qed.

(** X22. A change of the hash never shows a chapter that does not exist,
    whatever the hash holds: [parseHashAndSetState] leaves the search view,
    and either leaves the book and the chapter as they are or selects a
    canonical book and one of its chapters.  A verse it selects belongs to
    the book and the chapter it selects and is a number other than zero,
    but is not checked against the chapter.  The only error it can throw is
    one thrown by [decodeURIComponent]. *)
Theorem hash_navigation (innerWidth : Z) (hash : str) (s : State) :
  let r := parseHashAndSetState innerWidth hash s in
  isSearchView r.2 = false
  ∧ (position r.2 = position s ∨ validPosition r.2)
  ∧ (∀ ref, selectedVerseRef r.2 = Some ref →
       selectedVerseRef s = Some ref
       ∨ ((vrBook ref, vrChapter ref) = position r.2
          ∧ ∃ v, vrVerse ref = Num v ∧ v ≠ 0%Z))
  ∧ (∀ e, r.1 = Some e → ∃ text, decodeURIComponent text = inl e).
Proof.
  split_and!.
  - unfold AppHandlers.parseHashAndSetState.
    destruct (split _ _) as [|p0 [|p1 rest]]; [done.. |].
    case_bool_decide; [done|].
    destruct (decodeURIComponent _) as [e | bookName]; [done|].
    destruct (findBookMetadata bookName) as [bookMeta|]; [|done].
    destruct (isNaN _ || _ || _); [done|].
    destruct rest as [|[|x p2] rest]; cbv zeta; [done.. |].
    destruct (numTruthy _); [|done]. by destruct (innerWidth <? 768)%Z.
  - apply hash_position.
  - unfold AppHandlers.parseHashAndSetState.
    destruct (split _ _) as [|p0 [|p1 rest]]; [by left.. |].
    case_bool_decide; [by left|].
    destruct (decodeURIComponent _) as [e | bookName]; [by left|].
    destruct (findBookMetadata bookName) as [bookMeta|]; [|by left].
    destruct (isNaN _ || _ || _); [by left|].
    destruct rest as [|[|x p2] rest]; cbv zeta; [done.. |].
    destruct (parseInt (Some (x :: p2))) as [|v] eqn:Hv; [done|].
    cbn [numTruthy]. destruct (Z.eqb_spec v 0) as [-> | Hne]; [done|]. cbn [negb].
    destruct (innerWidth <? 768)%Z;
      cbn [snd selectedVerseRef setIsToolsModalOpen setSelectedVerseRef];
      intros ref [= <-]; right; (split; [reflexivity | by exists v]).
  - unfold AppHandlers.parseHashAndSetState.
    destruct (split _ _) as [|p0 [|p1 rest]]; [done.. |].
    case_bool_decide; [done|].
    destruct (decodeURIComponent _) as [e | bookName] eqn:Hdecode.
    { intros e' [= <-]. by eauto. }
    destruct (findBookMetadata bookName) as [bookMeta|]; [|done].
    destruct (isNaN _ || _ || _); [done|].
    destruct rest as [|[|x p2] rest]; cbv zeta; [done.. |].
    by destruct (numTruthy _).
Qed.

Lemma searchBibleByKeyword_effect (reply : Reply) (keyword : str) (w : World) :
  ∃ text w', searchBibleByKeyword reply keyword w = (inr text, w')
             ∧ atMostOneCall w w'
             ∧ (cooling w ∨ ¬ configured w ∨ (∃ e, outcome reply = inl e) → text = [])
             ∧ (text ≠ [] → outcome reply = inr text).
Proof.
  rw searchBibleByKeyword_eq.
  pose proof (safeGenerate_effect reply (lit "gemini-2.5-flash-lite")
                (keywordPrompt keyword) w) as (_ & _ & _ & Hnet & _).
  assert (atMostOneCall w (safeGenerate reply (lit "gemini-2.5-flash-lite")
                             (keywordPrompt keyword) w).2) as Hone.
  { destruct Hnet as [H | H]; [by left | right; by eexists]. }
  rw safeGenerate_eq in Hone |- *.
  destruct (Z.ltb_spec (now w) (globalCooldownUntil w)) as [Hcool | Hopen].
  { eexists [], _. by split_and!. }
  destruct (getAiInstance_cases w) as [[Hai Hconf] | [[Hai Hconf] | [Hai Hconf]]];
    rw Hai in Hone |- *.
  - destruct (outcome reply) as [err | text] eqn:Hout.
    + destruct (isQuotaError err); eexists [], _; by split_and!.
    + eexists text, _. split_and!; [done | done | | done].
      intros [Hc | [Hn | [e He]]]; [unfold cooling in Hc; lia | | done].
      destruct Hn. by left.
  - destruct (outcome reply) as [err | text] eqn:Hout.
    + destruct (isQuotaError err); eexists [], _; by split_and!.
    + eexists text, _. split_and!; [done | done | | done].
      intros [Hc | [Hn | [e He]]]; [unfold cooling in Hc; lia | | done].
      destruct Hn. right. exact (proj2 Hconf).
  - eexists [], _. by split_and!.
Qed.

(** X23. [handleSearch] never throws and never stays busy.  A blank query
    changes nothing.  A query that holds a reference never contacts the
    remote AI service: the world of the gateway is what it was.  Every run
    makes at most one call to the AI service, and a run that started with
    the busy flag off ends with it off. *)
Theorem search_runs_to_end (reply : Reply) (s : State) (w : World) :
  let r := handleSearch reply s w in
  r.1.1 = None
  ∧ (trim (searchQuery s) = [] → r = (None, s, w))
  ∧ (∀ ref refs,
       parseReferencesFromString chapterVerseCounts (trim (searchQuery s))
       = inr (ref :: refs) → r.2 = w)
  ∧ atMostOneCall w r.2
  ∧ (isSearching s = false → isSearching r.1.2 = false).
Proof.
  unfold AppHandlers.handleSearch. cbv zeta.
  case_bool_decide as Hblank.
  { split_and!; [done | done | done | by left | done]. }
  rw parseReferencesFromString_eq.
  destruct (omap _ _) as [|ref [|r2 rs]] eqn:Hrefs.
  - unfold AppHandlers.searchKeyword.
    destruct (searchBibleByKeyword_effect reply (trim (searchQuery s)) w)
      as (text & w' & -> & Hone & _).
    split_and!; [done | done | done | exact Hone | done].
  - split_and!; [done | done | done | by left |]. cbn [fst snd].
    unfold AppHandlers.searchReference.
    destruct (List.find _ _); [|done].
    destruct (_ || _); [done|]. by destruct (numTruthy _).
  - split_and!; [done | done | done | by left | done].
Qed.

(** X24. A query that holds exactly one reference navigates and shows no
    search view.  When the chapter of the reference is one of the chapters
    of its book, the book and the chapter are selected, the verse is
    selected if it is not zero (it is not checked against the chapter), and
    the query is cleared; otherwise the only change is the error "Invalid
    chapter for" followed by the book, and the query is kept. *)
Theorem search_single_reference (reply : Reply) (s : State) (w : World)
    (ref : ParsedReference) :
  parseReferencesFromString chapterVerseCounts (trim (searchQuery s)) = inr [ref] →
  let s' := (handleSearch reply s w).1.2 in
  ∃ c v, refBook ref ∈ bookNames ∧ refChapter ref = Num c ∧ startVerse ref = Num v
    ∧ ((1 ≤ c ≤ Z.of_nat (length (chapterVerseCounts (refBook ref))))%Z →
       validPosition s'
       ∧ s' = setSearchQuery []
                (setSelectedVerseRef
                   (if (v =? 0)%Z then None
                    else Some (mkVerseReference (refBook ref) (Num c) (Num v)))
                   (setSelectedChapter (Num c)
                      (setSelectedBook (refBook ref)
                         (setIsSearchView false (setSearchError None s))))))
    ∧ (¬ (1 ≤ c ≤ Z.of_nat (length (chapterVerseCounts (refBook ref))))%Z →
       s' = setSearchError
              (Some (lit "Invalid chapter for " ++ refBook ref ++ lit ".")) s).
Proof.
  intros Hparse. pose proof (parsed_wellFormed _ _ Hparse) as Hwf.
  apply Forall_cons in Hwf as [(Hn & (c & Hc & Hc0) & (v & Hv & Hv0) & _) _].
  exists c, v. split; [done|]. split; [done|]. split; [done|].
  unfold AppHandlers.handleSearch. cbv zeta. rw Hparse.
  case_bool_decide as Hblank.
  { rw Hblank in Hparse. by vm_compute in Hparse. }
  cbn [fst snd]. unfold AppHandlers.searchReference.
  rw (find_by_name chapterVerseCounts _ Hn). cbn [bookEntry chapters]. rw Hc Hv.
  cbn [numLt numTruthy].
  destruct (Z.ltb_spec c 1) as [Hlow | Hlow];
    destruct (Z.ltb_spec (Z.of_nat (length (chapterVerseCounts (refBook ref)))) c)
      as [Hhigh | Hhigh]; cbn [orb]; (split; [intros Hin | intros Hout]);
    try lia; try done.
  split.
  - apply (validPosition_intro _ (refBook ref) c); [done | lia | |];
      by destruct (negb _).
  - by destruct (Z.eqb_spec v 0).
Qed.

(** X25. A query without a reference is a keyword search.  Whenever the
    remote AI service gives no answer (a cooldown is active, the credential
    is missing, or the call fails) the reader is told "No verses found for"
    the query, with an empty result list in the search view: a failure of
    the AI service never shows as an error of its own.  The error "An error
    occurred during keyword search." is shown only when the AI service
    answered with references and fetching their verses failed.  In every
    case the query is cleared and the busy flag is off. *)
Theorem keyword_search_outcomes (reply : Reply) (s : State) (w : World) :
  trim (searchQuery s) ≠ [] →
  parseReferencesFromString chapterVerseCounts (trim (searchQuery s)) = inr [] →
  let s' := (handleSearch reply s w).1.2 in
  searchQuery s' = [] ∧ isSearching s' = false
  ∧ (cooling w ∨ ¬ configured w ∨ (∃ e, outcome reply = inl e) →
     searchError s'
     = Some (lit "No verses found for " ++ [QUOTE] ++ trim (searchQuery s) ++ [QUOTE]
               ++ lit ".")
     ∧ searchResults s' = [] ∧ isSearchView s' = true)
  ∧ (searchError s' = Some (lit "An error occurred during keyword search.") →
     ∃ text refs e,
       outcome reply = inr text
       ∧ parseReferencesFromString chapterVerseCounts text = inr refs
       ∧ refs ≠ []
       ∧ fetchVersesByReferences chapterVerseCounts teluguBibleData http refs = inl e).
Proof.
  intros Hquery Hparse. unfold AppHandlers.handleSearch. cbv zeta. rw Hparse.
  rw bool_decide_false; [done|]. unfold AppHandlers.searchKeyword.
  destruct (searchBibleByKeyword_effect reply (trim (searchQuery s)) w)
    as (text & w' & -> & _ & Hfail & Hanswer).
  cbn [fst snd].
  destruct (_ || _) eqn:Hblank.
  { split_and!; [done | done | done |]. simpl. intros H. discriminate H. }
  apply orb_false_elim in Hblank as [Htext%bool_decide_eq_false _].
  rw (parseReferencesFromString_eq chapterVerseCounts text).
  destruct (omap _ _) as [|r rs] eqn:Hrefs.
  { split_and!; [done | done | by intros ?%Hfail |]. simpl. intros H. discriminate H. }
  destruct (fetchVersesByReferences _ _ _ _) as [e | results] eqn:Hfetch.
  - split_and!; [done | done | by intros ?%Hfail |]. intros _.
    exists text, (r :: rs), e. split_and!; [by apply Hanswer | | done | done].
    by rw parseReferencesFromString_eq Hrefs.
  - split_and!; [done | done | by intros ?%Hfail | done].
Qed.


End NavigationFacts.

Section NavigationScenarios.

Import BibleService App GeminiService AppHandlers Scenario NavigationScenario.

Lemma threeChapters_books : booksHaveChapters threeChapters.
Proof. by intros n _. Qed.

Lemma startState_valid : validPosition threeChapters startState.
Proof.
  split; [apply (bool_decide_unpack _); by vm_compute|].
  exists 1%Z. split; [reflexivity | simpl; lia].
Qed.

Lemma position_stays_valid_witness :
  validPosition threeChapters (handleChapterChange (Num 2) startState).
Proof.
  apply (position_stays_valid threeChapters emptyCorpus httpFive decodePlain startState).
  - exact threeChapters_books.
  - exact startState_valid.
  - apply rtc_once. by apply event_next.
Defined.

Lemma next_previous_inverse_witness :
  ∃ s', handlePreviousChapter threeChapters (handleChapterChange (Num 2) startState)
        = inr s'
        ∧ position s' = position startState.
Proof.
  destruct (next_previous_inverse threeChapters) as [_ Hinverse].
  destruct (Hinverse startState (handleChapterChange (Num 2) startState) startState
              threeChapters_books startState_valid eq_refl eq_refl)
    as ([Hfix | Hback] & _); [discriminate Hfix | exact Hback].
Defined.

Lemma arrows_disabled_at_the_ends_witness :
  handlePreviousChapter threeChapters startState = inr startState.
Proof.
  destruct (arrows_disabled_at_the_ends threeChapters startState startState_valid)
    as [Hfirst _].
  by apply Hfirst.
Defined.

Lemma hash_navigation_witness :
  validPosition threeChapters
    (parseHashAndSetState threeChapters decodePlain 1024 (lit "#/1+john/3/5")
       startState).2.
Proof.
  destruct (hash_navigation threeChapters decodePlain 1024 (lit "#/1+john/3/5")
              startState) as (_ & [Hsame | Hvalid] & _).
  - discriminate Hsame.
  - exact Hvalid.
Defined.

Lemma search_runs_to_end_witness :
  handleSearch threeChapters emptyCorpus httpFive replyHello
    (setSearchQuery (lit "   ") startState) openWorld
  = (None, setSearchQuery (lit "   ") startState, openWorld).
Proof.
  destruct (search_runs_to_end threeChapters emptyCorpus httpFive replyHello
              (setSearchQuery (lit "   ") startState) openWorld) as (_ & Hblank & _).
  by apply Hblank.
Defined.


Lemma search_single_reference_witness :
  let s := setSearchQuery (lit " gen 2:7 ") startState in
  position (handleSearch threeChapters emptyCorpus httpFive replyHello s openWorld).1.2
  = (lit "Genesis", Num 2).
Proof.
  intros s.
  destruct (search_single_reference threeChapters emptyCorpus httpFive replyHello s
              openWorld (mkParsedReference (lit "Genesis") (Num 2) (Num 7) None) eq_refl)
    as (c & v & _ & [= <-] & [= <-] & Hvalid & _).
  destruct Hvalid as [_ ->]; [simpl; lia | reflexivity].
Defined.

Lemma keyword_search_outcomes_witness :
  let s := setSearchQuery (lit "faith") startState in
  searchError (handleSearch threeChapters emptyCorpus httpFive replyQuota s openWorld).1.2
  = Some (lit "No verses found for " ++ [QUOTE] ++ lit "faith" ++ [QUOTE] ++ lit ".").
Proof.
  intros s.
  destruct (keyword_search_outcomes threeChapters emptyCorpus httpFive replyQuota s
              openWorld) as (_ & _ & Hnone & _); [done | reflexivity |].
  destruct Hnone as (-> & _); [|reflexivity].
  right; right. by eexists.
Defined.

End NavigationScenarios.

(** ** The hash written and read back *)

Section HashFacts.

Import BibleService App GeminiService AppHandlers.

Variable chapterVerseCounts : str → list nat.
Variable decodeURIComponent : str → Error + str.
Variable encodeURIComponent : str → str.

Local Abbreviation validPosition := (NavigationNotions.validPosition chapterVerseCounts).
Local Abbreviation desiredHash := (AppHandlers.desiredHash encodeURIComponent).
Local Abbreviation parseHashAndSetState :=
  (AppHandlers.parseHashAndSetState chapterVerseCounts decodeURIComponent).

Lemma digit_no_slash (c : ascii) : isDigit c = true → isChar "/" c = false.
Proof. destruct c as [[] [] [] [] [] [] [] []]; by vm_compute. Qed.

Lemma split_number (z : Z) :
  (0 ≤ z)%Z → Forall (λ c, isChar "/" c = false) (showZ z).
Proof.
  intros Hz. destruct (showZ_digits z Hz) as (_ & Hd & _).
  eapply Forall_impl; [exact Hd | exact digit_no_slash].
Qed.

Lemma parseInt_showZ (z : Z) : (0 ≤ z)%Z → parseInt (Some (showZ z)) = Num z.
Proof.
  intros Hz. destruct (showZ_digits z Hz) as (Hne & Hd & Hv).
  by rw parseInt_digits // Hv.
Qed.


End HashFacts.

Section HashScenarios.

Import BibleService App GeminiService AppHandlers Scenario NavigationScenario.

Lemma plain_names :
  Forall (λ n, replacePlus n = n ∧ n ≠ [] ∧ ("/"%char ∉ n)) bookNames.
Proof. apply (bool_decide_unpack _). by vm_compute. Qed.


End HashScenarios.

(** ** The chat window *)

Section ChatFacts.

Import BibleService GeminiService Chatbot.

Lemma sendMessageToBot_total (reply : Reply) (message : str) (history : list Message)
    (mode : ChatMode) (w : World) :
  ∃ text w', sendMessageToBot reply message history mode w
             = (inr (mkBotReply text []), w')
             ∧ atMostOneCall w w'.
Proof.
  pose proof (step_effect w _ (step_sendMessageToBot reply message history mode w))
    as (_ & _ & Hone).
  destruct (decide (mode = lit "gemini-2.5-flash")) as [-> | Hmode].
  - rw sendMessageToBot_flash in Hone |- *.
    destruct (safeGenerate _ _ _ w) as [[e|text] v]; by eexists _, _.
  - rw (sendMessageToBot_chat _ _ _ _ _ Hmode) in Hone |- *.
    destruct (getChat mode w) as [[e|chat] v]; by eexists _, _.
Qed.

Lemma contextualizedInput_suffix (props : Props) (text : str) :
  text `suffix_of` contextualizedInput props text.
Proof.
  unfold contextualizedInput.
  destruct (selectedVerseRef props) as [ref|].
  - destruct (List.find _ _) as [d|].
    + destruct (orText _ _) as [[|c t]|]; rw ?app_assoc; by apply suffix_app_r.
    + rw ?app_assoc. by apply suffix_app_r.
  - destruct (selectedBook props) as [|c t]; [done|].
    destruct (numTruthy _); [|done]. rw ?app_assoc. by apply suffix_app_r.
Qed.

(** X28. Sending a chat message.  A blank input, or an input while a
    reply is awaited, does nothing.  Otherwise [handleSend] throws nothing
    and never leaves the chat waiting: it makes at most one call, adds
    exactly the message of the reader, with the input as typed, and the
    reply of the bot after it, clears the input and turns the loading flag
    off.  What is sent to the bot ends with the input as typed: the verse or
    the chapter on display is only put in front of it. *)
Theorem chat_send (props : Props) (reply : Reply) (st : State) (w : World) :
  let r := handleSend props reply st w in
  r.1.1 = None
  ∧ (trim (input st) = [] ∨ isLoading st = true → r = (None, st, w))
  ∧ (trim (input st) ≠ [] → isLoading st = false →
     ∃ sent text,
       input st `suffix_of` sent
       ∧ sendMessageToBot reply sent (entryMessage <$> messages st) (chatMode st) w
         = (inr (mkBotReply text []), r.2)
       ∧ messages r.1.2
         = messages st
             ++ [mkEntry (mkMessage (showZ (now w)) (input st) (lit "user")) None;
                 mkEntry (mkMessage (showZ (now r.2 + 1)) text (lit "bot")) (Some [])]
       ∧ input r.1.2 = [] ∧ isLoading r.1.2 = false
       ∧ atMostOneCall w r.2).
Proof.
  unfold handleSend. cbv zeta.
  destruct (sendMessageToBot_total reply (contextualizedInput props (input st))
              (entryMessage <$> messages st) (chatMode st) w)
    as (text & w' & Hsend & Hone).
  case_bool_decide as Hblank; cbn [orb].
  { split_and!; [done | done | done]. }
  destruct (isLoading st) eqn:Hloading.
  { split_and!; [done | done | done]. }
  rw Hsend. split_and!; [done | by intros [? | ?] |].
  intros _ _. exists (contextualizedInput props (input st)), text.
  split_and!; [apply contextualizedInput_suffix | done | | done | done | done].
  cbn [fst snd messages setIsLoading setMessages setInput botText botSources].
  by rw -app_assoc.
Qed.

End ChatFacts.

Section ChatScenarios.

Import BibleService GeminiService Chatbot Scenario.

Lemma chat_send_witness :
  let props := mkProps (lit "John") (Num 3) None [] (lit "ESV") in
  let st := mkState true [] (lit "Who wrote it?") false (lit "gemini-2.5-flash") in
  ∃ sent text,
    lit "Who wrote it?" `suffix_of` sent
    ∧ sendMessageToBot replyHello sent [] (lit "gemini-2.5-flash") openWorld
      = (inr (mkBotReply text []), (handleSend props replyHello st openWorld).2).
Proof.
  intros props st.
  destruct (chat_send props replyHello st openWorld) as (_ & _ & Hsent).
  destruct Hsent as (sent & text & Hsuffix & Hsend & _); [done | done |].
  by exists sent, text.
Defined.

End ChatScenarios.
